(** * HyperCode CLI: plan generation, approval and the task ledger

    A shallow embedding of the generation-plan subsystem of hypercode-cli
    (the classes [FileGenerator], [DirectorySafety], [GitManager] and
    [TodoManager] of [src/core]) together with the properties the
    specification states about it and further properties of the code.

    Conventions.
    - A JavaScript string is a sequence of UTF-16 code units; the model
      covers the code units below 256, written as Rocq [ascii] characters.
    - Paths follow the POSIX flavour of Node's [path] module.
    - Effects (filesystem, git, the approval prompt) are threaded through
      an explicit world state; a thrown exception is an outcome [Threw]. *)

From Stdlib Require Import ZArith Ascii String.
From stdpp Require Import base list strings pretty sorting gmap.

Local Open Scope string_scope.
Local Open Scope list_scope.

(** ** JavaScript strings *)

Module Js.

Definition code (c : ascii) : nat := nat_of_ascii c.

Definition chr (n : nat) : ascii := ascii_of_nat n.

Definition nl : ascii := chr 10.
Definition cr : ascii := chr 13.
Definition dquote : ascii := chr 34.
Definition backslash : ascii := chr 92.

Definition in_range (lo hi : nat) (c : ascii) : bool :=
  (lo <=? code c)%nat && (code c <=? hi)%nat.

Definition is_lower (c : ascii) : bool := in_range 97 122 c.
Definition is_upper (c : ascii) : bool := in_range 65 90 c.
Definition is_digit (c : ascii) : bool := in_range 48 57 c.

(** [\s] of a regular expression and the characters [trim] removes:
    tab, line feed, vertical tab, form feed, carriage return, space and
    the no-break space (the members below 256). *)
Definition is_space (c : ascii) : bool :=
  in_range 9 13 c || (code c =? 32)%nat || (code c =? 160)%nat.

(** Line terminators, which [.] does not match without the [s] flag. *)
Definition is_line_terminator (c : ascii) : bool :=
  (code c =? 10)%nat || (code c =? 13)%nat.

(** [toLowerCase] on one code unit: A-Z, and the Latin-1 capitals
    0xC0-0xDE except the multiplication sign 0xD7. *)
Definition lower_char (c : ascii) : ascii :=
  if is_upper c || (in_range 192 222 c && negb (code c =? 215)%nat)
  then chr (code c + 32) else c.

Definition eqc (a b : ascii) : bool := (code a =? code b)%nat.

Definition chars (s : string) : list ascii := list_ascii_of_string s.
Definition str (l : list ascii) : string := string_of_list_ascii l.

Definition toLowerCase (s : string) : string :=
  str (map lower_char (chars s)).

Fixpoint drop_space (l : list ascii) : list ascii :=
  match l with
  | c :: tl => if is_space c then drop_space tl else l
  | [] => []
  end.

Definition trim_chars (l : list ascii) : list ascii :=
  rev (drop_space (rev (drop_space l))).

Definition trim (s : string) : string := str (trim_chars (chars s)).

Fixpoint starts_with (p l : list ascii) : bool :=
  match p, l with
  | [], _ => true
  | a :: p', b :: l' => eqc a b && starts_with p' l'
  | _ :: _, [] => false
  end.

Definition startsWith (s p : string) : bool :=
  starts_with (chars p) (chars s).

(** [s.substring(0, n)] *)
Definition substring0 (n : nat) (s : string) : string :=
  str (take n (chars s)).

(** A JavaScript string is truthy when it is not empty. *)
Definition truthy (s : string) : bool :=
  match s with EmptyString => false | _ => true end.

(** [s.split(sep)] for a one-character separator. *)
Fixpoint split_chars (sep : ascii) (cur : list ascii) (l : list ascii)
  : list (list ascii) :=
  match l with
  | [] => [rev cur]
  | c :: tl =>
      if eqc c sep then rev cur :: split_chars sep [] tl
      else split_chars sep (c :: cur) tl
  end.

Definition split (sep : ascii) (s : string) : list string :=
  map str (split_chars sep [] (chars s)).

Fixpoint join (sep : string) (l : list string) : string :=
  match l with
  | [] => ""
  | [x] => x
  | x :: tl => x +:+ sep +:+ join sep tl
  end.

End Js.

(** ** Regular expressions

    A backtracking matcher in continuation-passing style, following the
    matcher semantics of ECMAScript: alternatives are tried left to
    right, a greedy quantifier tries one more iteration before the
    continuation and a lazy one the continuation first, an iteration
    that consumes nothing is rejected once the minimum is reached, and
    the groups inside a quantified term are reset on each iteration. *)

Module Regex.

Inductive re : Type :=
| Eps
| Chr (p : ascii -> bool)
| Cat (a b : re)
| Alt (a b : re)
| Rep (greedy : bool) (lo : nat) (hi : option nat) (a : re)
| Grp (i : nat) (a : re)
| Bol
| Eol.

Definition caps : Type := list (nat * list ascii).

Record mstate : Type := MState {
  pos : nat;
  rest : list ascii;
  cap : caps
}.

Definition cont : Type := mstate -> option mstate.

Fixpoint groups (r : re) : list nat :=
  match r with
  | Cat a b | Alt a b => groups a ++ groups b
  | Rep _ _ _ a => groups a
  | Grp i a => i :: groups a
  | _ => []
  end.

Definition clear (gs : list nat) (st : mstate) : mstate :=
  MState (pos st) (rest st)
         (filter (fun kv => negb (bool_decide (kv.1 ∈ gs))) (cap st)).

Definition or_else (x : option mstate) (y : unit -> option mstate)
  : option mstate :=
  match x with Some r => Some r | None => y tt end.

(** RepeatMatcher.  [fuel] bounds the iterations; [lo] plus the length
    of the remaining input is enough, since past the minimum every
    iteration consumes a character. *)
Fixpoint rep (fuel : nat) (body : cont -> cont) (gs : list nat)
    (greedy : bool) (lo : nat) (hi : option nat) (k : cont) (st : mstate)
  : option mstate :=
  match fuel with
  | 0 => None
  | S fuel' =>
      match hi with
      | Some 0 => k st
      | _ =>
          let again (_ : unit) :=
            body (fun st' =>
                    if (lo =? 0)%nat && (pos st' =? pos st)%nat then None
                    else rep fuel' body gs greedy (pred lo)
                           (option_map pred hi) k st')
                 (clear gs st) in
          if (0 <? lo)%nat then again tt
          else if greedy then or_else (again tt) (fun _ => k st)
          else or_else (k st) again
      end
  end.

Fixpoint m (r : re) (k : cont) (st : mstate) : option mstate :=
  match r with
  | Eps => k st
  | Chr p =>
      match rest st with
      | c :: tl => if p c then k (MState (S (pos st)) tl (cap st)) else None
      | [] => None
      end
  | Cat a b => m a (m b k) st
  | Alt a b => or_else (m a k st) (fun _ => m b k st)
  | Rep g lo hi a =>
      rep (S (lo + length (rest st))) (m a) (groups a) g lo hi k st
  | Grp i a =>
      m a (fun st' =>
             k (MState (pos st') (rest st')
                       ((i, take (pos st' - pos st) (rest st)) :: cap st')))
        st
  | Bol => if (pos st =? 0)%nat then k st else None
  | Eol => match rest st with [] => k st | _ => None end
  end.

(** The value of group [i]: [None] is JavaScript's [undefined]. *)
Fixpoint group (i : nat) (c : caps) : option (list ascii) :=
  match c with
  | [] => None
  | (j, v) :: tl => if (i =? j)%nat then Some v else group i tl
  end.

(** One match: where it starts, where it ends, the matched text and
    the groups. *)
Record rmatch : Type := RMatch {
  m_start : nat;
  m_end : nat;
  m_text : list ascii;
  m_caps : caps
}.

Definition match_here (r : re) (p : nat) (l : list ascii) : option rmatch :=
  match m r Some (MState p l []) with
  | Some e => Some (RMatch p (pos e) (take (pos e - p) l) (cap e))
  | None => None
  end.

(** The first match at or after position [p], [l] being the input
    from [p] on. *)
Fixpoint search (r : re) (p : nat) (l : list ascii)
  : option (rmatch * list ascii) :=
  match match_here r p l with
  | Some x => Some (x, drop (m_end x - p) l)
  | None =>
      match l with
      | [] => None
      | _ :: tl => search r (S p) tl
      end
  end.

(** [s.match(r)] for a regular expression without the [g] flag. *)
Definition match_first (r : re) (s : string) : option rmatch :=
  fst <$> search r 0 (Js.chars s).

(** The loop [while ((x = r.exec(s)) !== null)] of a [g] regular
    expression: every match, left to right, each search starting where
    the previous match ended. *)
Fixpoint exec_loop (fuel : nat) (r : re) (p : nat) (l : list ascii)
  : list rmatch :=
  match fuel with
  | 0 => []
  | S fuel' =>
      match search r p l with
      | None => []
      | Some (x, l') => x :: exec_loop fuel' r (m_end x) l'
      end
  end.

Definition exec_all (r : re) (s : string) : list rmatch :=
  exec_loop (S (String.length s)) r 0 (Js.chars s).

(** [s.replace(r, by)] without the [g] flag: the first match only. *)
Definition replace_first (r : re) (by_ : string) (s : string) : string :=
  match search r 0 (Js.chars s) with
  | None => s
  | Some (x, l') =>
      Js.str (take (m_start x) (Js.chars s) ++ Js.chars by_ ++ l')
  end.

(** [s.replace(r, by)] with the [g] flag; after an empty match the
    search moves on by one character. *)
Fixpoint replace_loop (fuel : nat) (r : re) (by_ : list ascii)
    (p : nat) (l : list ascii) : list ascii :=
  match fuel with
  | 0 => l
  | S fuel' =>
      match search r p l with
      | None => l
      | Some (x, l') =>
          take (m_start x - p) l ++ by_ ++
          (if (m_end x =? m_start x)%nat
           then match l' with
                | [] => []
                | c :: tl => c :: replace_loop fuel' r by_ (S (m_end x)) tl
                end
           else replace_loop fuel' r by_ (m_end x) l')
      end
  end.

Definition replace_all (r : re) (by_ : string) (s : string) : string :=
  Js.str (replace_loop (S (String.length s)) r (Js.chars by_) 0 (Js.chars s)).

(** *** Building blocks for writing patterns *)

Definition ch (c : ascii) : re := Chr (Js.eqc c).

(** A letter under the [i] flag. *)
Definition ch_i (c : ascii) : re :=
  Chr (fun x => Js.eqc (Js.lower_char c) (Js.lower_char x)
                && (Js.code x <? 128)%nat).

Fixpoint seq (l : list re) : re :=
  match l with
  | [] => Eps
  | [x] => x
  | x :: tl => Cat x (seq tl)
  end.

Fixpoint alts (l : list re) : re :=
  match l with
  | [] => Eps
  | [x] => x
  | x :: tl => Alt x (alts tl)
  end.

Definition lit (s : string) : re := seq (map ch (Js.chars s)).
Definition lit_i (s : string) : re := seq (map ch_i (Js.chars s)).

Definition star (a : re) : re := Rep true 0 None a.
Definition plus (a : re) : re := Rep true 1 None a.
Definition opt (a : re) : re := Rep true 0 (Some 1) a.
Definition star_lazy (a : re) : re := Rep false 0 None a.
Definition plus_lazy (a : re) : re := Rep false 1 None a.

Definition ws : re := Chr Js.is_space.
(** [.] without the [s] flag and with it. *)
Definition dot : re := Chr (fun c => negb (Js.is_line_terminator c)).
Definition dot_all : re := Chr (fun _ => true).

End Regex.

(** ** Node's [path] module (POSIX) *)

Module NodePath.

Definition slash : ascii := "/"%char.

Definition isAbsolute (p : string) : bool :=
  match p with
  | String c _ => Js.eqc c slash
  | EmptyString => false
  end.

(** Walks the segments left to right, keeping the stack of directory
    names reversed: empty segments and [.] are dropped, [..] pops a
    name, and at the root of an absolute path [..] is dropped. *)
Fixpoint normalize_segments (stack : list string) (segs : list string)
  : list string :=
  match segs with
  | [] => rev stack
  | s :: tl =>
      if bool_decide (s = "") || bool_decide (s = ".")
      then normalize_segments stack tl
      else if bool_decide (s = "..")
      then normalize_segments (tail stack) tl
      else normalize_segments (s :: stack) tl
  end.

Definition segments (p : string) : list string :=
  normalize_segments [] (Js.split slash p).

(** [path.resolve(...args)] in working directory [cwd] (an absolute
    path): the arguments are taken right to left until an absolute one
    is met, empty ones are skipped, and the result is normalised. *)
Fixpoint resolve_join (args : list string) (acc : string) : string * bool :=
  match args with
  | [] => (acc, false)
  | p :: before =>
      if Js.truthy p
      then let acc' := p +:+ "/" +:+ acc in
           if isAbsolute p then (acc', true) else resolve_join before acc'
      else resolve_join before acc
  end.

Definition resolve (cwd : string) (args : list string) : string :=
  let '(joined, absolute) := resolve_join (rev args) "" in
  let joined := if absolute then joined else cwd +:+ "/" +:+ joined in
  "/" +:+ Js.join "/" (segments joined).

Fixpoint drop_slashes (l : list ascii) : list ascii :=
  match l with
  | c :: tl => if Js.eqc c slash then drop_slashes tl else l
  | [] => []
  end.

Fixpoint take_until_slash (l : list ascii) : list ascii :=
  match l with
  | c :: tl => if Js.eqc c slash then [] else c :: take_until_slash tl
  | [] => []
  end.

(** The last part of the path read backwards, trailing slashes
    ignored. *)
Definition last_part_rev (p : string) : list ascii :=
  take_until_slash (drop_slashes (rev (Js.chars p))).

(** [path.basename(p)] *)
Definition basename (p : string) : string := Js.str (rev (last_part_rev p)).

Fixpoint take_until_dot (l : list ascii) : option (list ascii * list ascii) :=
  match l with
  | c :: tl =>
      if Js.eqc c "."%char then Some ([], tl)
      else match take_until_dot tl with
           | Some (a, b) => Some (c :: a, b)
           | None => None
           end
  | [] => None
  end.

(** [path.extname(p)]: from the last dot of the last part to its end;
    empty when there is no dot, when nothing precedes the last dot,
    and for the part [..]. *)
Definition extname (p : string) : string :=
  match take_until_dot (last_part_rev p) with
  | None => ""
  | Some (ext_rev, before_rev) =>
      match before_rev, ext_rev with
      | [], _ => ""
      | [c], [] => if Js.eqc c "."%char then "" else "."
      | _, _ => Js.str ("."%char :: rev ext_rev)
      end
  end.

Fixpoint drop_until_slash (l : list ascii) : list ascii :=
  match l with
  | c :: tl => if Js.eqc c slash then l else drop_until_slash tl
  | [] => []
  end.

(** [path.dirname(p)] *)
Definition dirname (p : string) : string :=
  match Js.chars p with
  | [] => "."
  | c0 :: _ =>
      let hasRoot := Js.eqc c0 slash in
      match drop_until_slash (drop_slashes (rev (Js.chars p))) with
      | [] => if hasRoot then "/" else "."
      | _ :: [] => "/"
      | _ :: before_rev =>
          if hasRoot && (length before_rev =? 1)%nat then "//"
          else Js.str (rev before_rev)
      end
  end.

End NodePath.

(** ** Outcomes of effectful calls *)

(** What a call into the filesystem, git or the approval prompt yields:
    a value, or a thrown exception rendered as the text that
    [`${error}`] gives. *)
Inductive outcome (A : Type) : Type :=
| Ret (a : A)
| Threw (e : string).
Arguments Ret {A} a.
Arguments Threw {A} e.

(** Computations that read and write a state and may throw; whatever
    was written before the throw stays written. *)
Definition M (S A : Type) : Type := S -> outcome A * S.

Definition ret {S A} (a : A) : M S A := fun s => (Ret a, s).

Definition bind {S A B} (c : M S A) (k : A -> M S B) : M S B :=
  fun s =>
    match c s with
    | (Ret a, s') => k a s'
    | (Threw e, s') => (Threw e, s')
    end.

Definition try_catch {S A} (c : M S A) (h : string -> M S A) : M S A :=
  fun s =>
    match c s with
    | (Ret a, s') => (Ret a, s')
    | (Threw e, s') => h e s'
    end.

Definition get {S} : M S S := fun s => (Ret s, s).
Definition modify_ {S} (f : S -> S) : M S unit := fun s => (Ret tt, f s).

Global Instance M_ret {S} : MRet (M S) := fun A => @ret S A.
Global Instance M_bind {S} : MBind (M S) := fun A B k c => @bind S A B c k.

(** ** DirectorySafety (imported as [./directory-safety]) *)

Module DirectorySafety.

(** The two fields the constructor sets: [process.cwd()] and the
    result of [findProjectRoot()]. *)
Record t : Type := Build {
  workingDirectory : string;
  projectRoot : string
}.

Section WithCwd.
(** [process.cwd()] at the time of the call. *)
Variable cwd : string.

Definition isPathSafe (self : t) (targetPath : string) : bool :=
  let resolvedPath := NodePath.resolve cwd [targetPath] in
  let resolvedRoot := NodePath.resolve cwd [projectRoot self] in
  Js.startsWith resolvedPath resolvedRoot.

Definition validatePath (self : t) (targetPath : string) : outcome unit :=
  if negb (isPathSafe self targetPath)
  then Threw ("Error: Access denied: Path '" +:+ targetPath +:+
              "' is outside project boundary '" +:+ projectRoot self +:+ "'")
  else Ret tt.
End WithCwd.

(** The boundary the check is meant to draw: [p] is the root directory
    itself or lies below it, directory name by directory name. *)
Definition within (root p : string) : Prop :=
  NodePath.segments root `prefix_of` NodePath.segments p.

Global Instance within_dec root p : Decision (within root p).
Proof. unfold within. apply _. Defined.

End DirectorySafety.

(** ** GitManager configuration ([src/core/git-manager.ts]) *)

Module GitManager.

Record GitConfig : Type := Build_GitConfig {
  autoCommit : bool;
  createFeatureBranches : bool;
  autoPush : bool;
  commitMessagePrefix : string;
  branchPrefix : string
}.

Definition getDefaultConfig : GitConfig :=
  {| autoCommit := false;
     createFeatureBranches := true;
     autoPush := false;
     commitMessagePrefix := "[HyperCode]";
     branchPrefix := "hypercode-" |}.

End GitManager.

(** ** The external systems

    The filesystem and the version-control subprocess, as the calls the
    generator makes into them.  [W] is the state of the world outside
    the process.  The four git entries stand for
    [gitManager.getStatus()] (of which only [isGitRepo] is read),
    [gitManager.createBranch(featureName)],
    [gitManager.generateCommitMessage(files, feature)] and
    [gitManager.commit(message, files)]. *)
Class Externals (W : Type) : Type := {
  fs_existsSync : string -> W -> bool;
  fs_readFileSync : string -> W -> outcome string;
  fs_ensureDir : string -> W -> outcome unit * W;
  fs_writeFile : string -> string -> W -> outcome unit * W;
  fs_pathExists : string -> W -> bool;
  fs_remove : string -> W -> outcome unit * W;
  git_getStatus : W -> outcome bool * W;
  git_createBranch : string -> W -> outcome string * W;
  git_generateCommitMessage : list string -> string -> W -> string;
  git_commit : string -> list string -> W -> outcome unit * W
}.

(** ** FileGenerator ([src/core/file-generator.ts]): data and parsing *)

Module FileGenerator.
Import Regex.

Inductive OpType : Type := create | modify | delete.

Global Instance OpType_eq_dec : EqDecision OpType.
Proof. solve_decision. Defined.

Record FileOperation : Type := Build_FileOperation {
  path : string;
  type : OpType;
  content : string;
  backup : option string;
  description : string;
  estimatedLines : nat
}.

Inductive GitStrategy : Type := new_branch | current_branch.

Global Instance GitStrategy_eq_dec : EqDecision GitStrategy.
Proof. solve_decision. Defined.

(** [estimatedCost] is a number the plan only carries along. *)
Record FileGenerationPlan : Type := Build_FileGenerationPlan {
  feature : string;
  files : list FileOperation;
  estimatedCost : Z;
  gitStrategy : GitStrategy;
  branchName : option string;
  summary : string
}.

Record GenerationResult : Type := Build_GenerationResult {
  success : bool;
  filesCreated : list string;
  filesModified : list string;
  filesSkipped : list string;
  errors : list string;
  gitCommit : option string;
  branchCreated : option string
}.

(** The generator object: its project root, its own DirectorySafety
    and the configuration held by its GitManager. *)
Record t : Type := Build {
  projectRoot : string;
  directorySafety : DirectorySafety.t;
  gitConfig : GitManager.GitConfig
}.

(** *** The regular expressions of the source, term by term *)

Definition backtick : ascii := "`"%char.
Definition fence : re := lit "```".

(** [/```(?:typescript|javascript|jsx|tsx|python|go|rust|json|html)?\s*\n(?:\/\/\s*(.+?)\n)?(.*?)```/gs] *)
Definition fileRegex : re :=
  seq [ fence;
        opt (alts (map lit ["typescript"; "javascript"; "jsx"; "tsx";
                            "python"; "go"; "rust"; "json"; "html"]));
        star ws;
        ch Js.nl;
        opt (seq [lit "//"; star ws; Grp 1 (plus_lazy dot_all); ch Js.nl]);
        Grp 2 (star_lazy dot_all);
        fence ].

Definition quote_or_tick : re :=
  Chr (fun c => Js.eqc c backtick || Js.eqc c Js.dquote).

Definition letter_i : re := Chr (fun c => Js.is_lower c || Js.is_upper c).

(** [/(?:Create|Update|Modify)\s+(?:file\s+)?[`Q]?([^`Q\s]+\.[a-z]{1,4})[`Q]?/gi],
    Q standing for the double-quote character. *)
Definition explicitFileRegex : re :=
  seq [ alts [lit_i "Create"; lit_i "Update"; lit_i "Modify"];
        plus ws;
        opt (seq [lit_i "file"; plus ws]);
        opt quote_or_tick;
        Grp 1 (seq [ plus (Chr (fun c => negb (Js.eqc c backtick
                                               || Js.eqc c Js.dquote
                                               || Js.is_space c)));
                     ch "."%char;
                     Rep true 1 (Some 4) letter_i ]);
        opt quote_or_tick ].

(** [/^(\/\/|#|<!--)\s*/] *)
Definition commentLeader : re :=
  seq [Bol; Grp 1 (alts [lit "//"; lit "#"; lit "<!--"]); star ws].

(** The four [pathPatterns].  In the source the first three are
    written with a doubled backslash, so that [\\s*] stands for a
    backslash followed by any number of the letter s, and [\\.] for
    a backslash followed by any character. *)
Definition pathPatterns : list re :=
  [ (* /^File:\\s*(.+)$/i *)
    seq [Bol; lit_i "File:"; ch Js.backslash; star (ch_i "s"%char);
         Grp 1 (plus dot); Eol];
    (* /^Path:\\s*(.+)$/i *)
    seq [Bol; lit_i "Path:"; ch Js.backslash; star (ch_i "s"%char);
         Grp 1 (plus dot); Eol];
    (* /^(.+\\.(?:ts|tsx|js|jsx|py|go|rs|java|cpp|h|css|scss|json|md|yml|yaml))$/i *)
    seq [Bol;
         Grp 1 (seq [plus dot; ch Js.backslash; dot;
                     alts (map lit_i ["ts"; "tsx"; "js"; "jsx"; "py"; "go";
                                      "rs"; "java"; "cpp"; "h"; "css"; "scss";
                                      "json"; "md"; "yml"; "yaml"])]);
         Eol];
    (* /^(.+)$/ *)
    seq [Bol; Grp 1 (plus dot); Eol] ].

(** The three replacements of [sanitizeFeatureName], again as the
    source writes them: the class of the first excludes a-z, 0-9, the
    backslash, the letter s and the hyphen; the second matches a
    backslash followed by one or more of the letter s. *)
Definition notSlugChar : re :=
  Chr (fun c => negb (Js.is_lower c || Js.is_digit c
                      || Js.eqc c Js.backslash || Js.eqc c "s"%char
                      || Js.eqc c "-"%char)).
Definition backslashEsses : re := seq [ch Js.backslash; plus (ch "s"%char)].
Definition hyphens : re := plus (ch "-"%char).

Definition sanitizeFeatureName (feature : string) : string :=
  Js.substring0 50
    (replace_all hyphens "-"
      (replace_all backslashEsses "-"
        (replace_all notSlugChar ""
          (Js.toLowerCase feature)))).

Fixpoint first_match (ps : list re) (cleaned : string) : option string :=
  match ps with
  | [] => None
  | p :: tl =>
      match match_first p cleaned with
      | Some x =>
          match group 1 (m_caps x) with
          | Some g => Some (Js.trim (Js.str g))
          | None => None
          end
      | None => first_match tl cleaned
      end
  end.

Definition extractFilePath (comment : string) : option string :=
  let cleaned := Js.trim (replace_first commentLeader "" comment) in
  first_match pathPatterns cleaned.

Definition getFileType (filePath : string) : string :=
  let ext := Js.toLowerCase (NodePath.extname filePath) in
  let typeMap : list (string * string) :=
    [ (".ts", "TypeScript file"); (".tsx", "React component");
      (".js", "JavaScript file"); (".jsx", "React component");
      (".py", "Python module"); (".go", "Go file"); (".rs", "Rust file");
      (".java", "Java class"); (".cpp", "C++ file"); (".h", "Header file");
      (".css", "Stylesheet"); (".scss", "Sass stylesheet");
      (".json", "Configuration file"); (".md", "Documentation");
      (".yml", "YAML configuration"); (".yaml", "YAML configuration") ] in
  match list_find (fun kv => kv.1 = ext) typeMap with
  | Some (_, (_, v)) => v
  | None => "file"
  end.

Definition generateFileDescription (filePath : string) (exists_ : bool)
  : string :=
  let fileName := NodePath.basename filePath in
  let fileType := getFileType filePath in
  let action := if exists_ then "Modify" else "Create" in
  action +:+ " " +:+ fileType +:+ " " +:+ fileName.

(** *** Parsing the generated text *)

Section Parsing.
Context {W : Type} `{!Externals W}.
(** [process.cwd()] *)
Variable cwd : string.
Variable self : t.
(** The filesystem the parser looks at; it only reads. *)
Variable w : W.

(** What both loops do once they hold a candidate path: resolve it,
    validate it, look the file up, and push the operation; anything
    thrown on the way drops the candidate (with a console warning). *)
Definition push_candidate (filePath : string) (content_ : string)
    (lines : nat) (readBackup : bool) (files_ : list FileOperation)
  : list FileOperation :=
  let fullPath := NodePath.resolve cwd [projectRoot self; filePath] in
  match DirectorySafety.validatePath cwd (directorySafety self) fullPath with
  | Threw _ => files_
  | Ret _ =>
      let exists_ := fs_existsSync fullPath w in
      let operation :=
        {| path := filePath;
           type := if exists_ then modify else create;
           content := content_;
           backup := None;
           description := generateFileDescription filePath exists_;
           estimatedLines := lines |} in
      if exists_ && readBackup then
        match fs_readFileSync fullPath w with
        | Ret old =>
            files_ ++ [ {| path := path operation;
                           type := type operation;
                           content := content operation;
                           backup := Some old;
                           description := description operation;
                           estimatedLines := estimatedLines operation |} ]
        | Threw _ => files_
        end
      else files_ ++ [operation]
  end.

(** The body of the first [while] loop, for one match of
    [fileRegex]. *)
Definition fenced_step (files_ : list FileOperation) (x : rmatch)
  : list FileOperation :=
  let pathComment := Js.str <$> group 1 (m_caps x) in
  let code := default "" (Js.str <$> group 2 (m_caps x)) in
  match pathComment with
  | Some pc =>
      if Js.truthy pc then
        match extractFilePath pc with
        | Some filePath =>
            if Js.truthy filePath then
              push_candidate filePath (Js.trim code)
                (length (Js.split Js.nl code)) true files_
            else files_
        | None => files_
        end
      else files_
  | None => files_
  end.

(** The body of the second [while] loop, for one match of
    [explicitFileRegex]. *)
Definition explicit_step (files_ : list FileOperation) (x : rmatch)
  : list FileOperation :=
  let filePath := default "" (Js.str <$> group 1 (m_caps x)) in
  if negb (existsb (fun f => bool_decide (path f = filePath)) files_)
  then push_candidate filePath "// TODO: Implementation needed" 10 false files_
  else files_.

Definition parseGeneratedContent (content_ : string) : list FileOperation :=
  let files_ := foldl fenced_step [] (exec_all fileRegex content_) in
  foldl explicit_step files_ (exec_all explicitFileRegex content_).

Definition plural (n : nat) : string := if (1 <? n)%nat then "s" else "".

Definition generatePlanSummary (files_ : list FileOperation)
    (feature_ : string) : string :=
  let createCount := length (filter (fun f => type f = create) files_) in
  let modifyCount := length (filter (fun f => type f = modify) files_) in
  let totalLines := foldl (fun sum f => sum + estimatedLines f)%nat 0%nat files_ in
  let parts : list string :=
    ((if (0 <? createCount)%nat
      then [pretty createCount +:+ " new file" +:+ plural createCount]
      else []) ++
     (if (0 <? modifyCount)%nat
      then [pretty modifyCount +:+ " modified file" +:+ plural modifyCount]
      else []))%list in
  "Generate " +:+ feature_ +:+ ": " +:+ Js.join ", " parts +:+
  " (~" +:+ pretty totalLines +:+ " lines)".

Definition createGenerationPlan (feature_ : string)
    (generatedContent : string) (estimatedCost_ : Z) : FileGenerationPlan :=
  let files_ := parseGeneratedContent generatedContent in
  let cfg := gitConfig self in
  let gitStrategy_ :=
    if GitManager.createFeatureBranches cfg then new_branch
    else current_branch in
  let branchName_ :=
    match gitStrategy_ with
    | new_branch =>
        let safeName := sanitizeFeatureName feature_ in
        Some (GitManager.branchPrefix cfg +:+ safeName)
    | current_branch => None
    end in
  {| feature := feature_;
     files := files_;
     estimatedCost := estimatedCost_;
     gitStrategy := gitStrategy_;
     branchName := branchName_;
     summary := generatePlanSummary files_ feature_ |}.
End Parsing.

End FileGenerator.

(** ** FileGenerator: executing a plan *)

Module Exec.
Import FileGenerator.

(** The decisions of the approval callback. *)
Inductive Approval : Type := approve | edit | skip | auto.

Global Instance Approval_eq_dec : EqDecision Approval.
Proof. solve_decision. Defined.

(** The mutable locals of [executeGenerationPlan] and the world.
    [asked] is a ghost log: the operations the callback was invoked
    for, oldest first. *)
Record state (W : Type) : Type := State {
  result : GenerationResult;
  autoMode : bool;
  asked : list FileOperation;
  world : W
}.
Arguments State {W}.
Arguments result {W}.
Arguments autoMode {W}.
Arguments asked {W}.
Arguments world {W}.

Definition with_result {W} (f : GenerationResult -> GenerationResult)
  : M (state W) unit :=
  modify_ (fun s => State (f (result s)) (autoMode s) (asked s) (world s)).

Definition set_success (b : bool) (r : GenerationResult) : GenerationResult :=
  Build_GenerationResult b (filesCreated r) (filesModified r)
    (filesSkipped r) (errors r) (gitCommit r) (branchCreated r).
Definition push_created (p : string) (r : GenerationResult) : GenerationResult :=
  Build_GenerationResult (success r) (filesCreated r ++ [p]) (filesModified r)
    (filesSkipped r) (errors r) (gitCommit r) (branchCreated r).
Definition push_modified (p : string) (r : GenerationResult) : GenerationResult :=
  Build_GenerationResult (success r) (filesCreated r) (filesModified r ++ [p])
    (filesSkipped r) (errors r) (gitCommit r) (branchCreated r).
Definition push_skipped (p : string) (r : GenerationResult) : GenerationResult :=
  Build_GenerationResult (success r) (filesCreated r) (filesModified r)
    (filesSkipped r ++ [p]) (errors r) (gitCommit r) (branchCreated r).
Definition push_error (e : string) (r : GenerationResult) : GenerationResult :=
  Build_GenerationResult (success r) (filesCreated r) (filesModified r)
    (filesSkipped r) (errors r ++ [e]) (gitCommit r) (branchCreated r).
Definition set_gitCommit (m : string) (r : GenerationResult) : GenerationResult :=
  Build_GenerationResult (success r) (filesCreated r) (filesModified r)
    (filesSkipped r) (errors r) (Some m) (branchCreated r).
Definition set_branchCreated (b : option string) (r : GenerationResult)
  : GenerationResult :=
  Build_GenerationResult (success r) (filesCreated r) (filesModified r)
    (filesSkipped r) (errors r) (gitCommit r) b.

Definition set_autoMode {W} (b : bool) : M (state W) unit :=
  modify_ (fun s => State (result s) b (asked s) (world s)).

(** A call into the world. *)
Definition call {W A} (f : W -> outcome A * W) : M (state W) A :=
  fun s =>
    let '(r, w') := f (world s) in
    (r, State (result s) (autoMode s) (asked s) w').

(** The error text of the per-operation [catch]. *)
Definition failed_to_process (op : FileOperation) (error : string) : string :=
  "Failed to process " +:+ path op +:+ ": " +:+ error.

Section Run.
Context {W : Type} `{!Externals W}.
Variable cwd : string.
Variable self : t.

Definition callback : Type := FileOperation -> W -> outcome Approval * W.

Variable approvalCallback : callback.

(** [await approvalCallback(operation)], noted in the ghost log. *)
Definition ask (operation : FileOperation) : M (state W) Approval :=
  modify_ (fun s => State (result s) (autoMode s)
                      (asked s ++ [operation]) (world s)) ;;
  call (approvalCallback operation).

Definition executeFileOperation (operation : FileOperation)
  : M (state W) unit :=
  let fullPath := NodePath.resolve cwd [projectRoot self; path operation] in
  call (fs_ensureDir (NodePath.dirname fullPath)) ;;
  match type operation with
  | create | modify => call (fs_writeFile fullPath (content operation))
  | delete =>
      s ← get;
      if fs_pathExists fullPath (world s)
      then call (fs_remove fullPath)
      else ret tt
  end.

(** The first half of the loop body: which decision applies. *)
Definition decide_approval (operation : FileOperation)
  : M (state W) Approval :=
  s ← get;
  if autoMode s then ret approve
  else
    approval ← ask operation;
    match approval with
    | auto => set_autoMode true ;; ret approve
    | _ => ret approval
    end.

(** The loop body: what stands inside the [try] ... *)
Definition attempt (operation : FileOperation) : M (state W) unit :=
  approval ← decide_approval operation;
  match approval with
  | approve =>
      executeFileOperation operation ;;
      match type operation with
      | create => with_result (push_created (path operation))
      | modify => with_result (push_modified (path operation))
      | delete => ret tt
      end
  | skip => with_result (push_skipped (path operation))
  | edit =>
      with_result (push_skipped (path operation)) ;;
      with_result (push_error ("Edit mode not yet implemented for "
                               +:+ path operation))
  | auto => ret tt
  end.

(** ... and the [catch]. *)
Definition recover (operation : FileOperation) (error : string)
  : M (state W) unit :=
  with_result (push_error (failed_to_process operation error)) ;;
  with_result (set_success false).

Definition process_operation (operation : FileOperation)
  : M (state W) unit :=
  try_catch (attempt operation) (recover operation).

(** [for (const operation of plan.files)] *)
Fixpoint process_all (ops : list FileOperation) : M (state W) unit :=
  match ops with
  | [] => ret tt
  | operation :: later => process_operation operation ;; process_all later
  end.

Definition setup_branch (plan : FileGenerationPlan) : M (state W) unit :=
  if bool_decide (gitStrategy plan = new_branch)
     && Js.truthy (default "" (branchName plan))
  then
    try_catch
      (isGitRepo ← call git_getStatus;
       if isGitRepo : bool then
         call (git_createBranch (sanitizeFeatureName (feature plan))) ;;
         with_result (set_branchCreated (branchName plan))
       else ret tt)
      (fun error =>
         with_result (push_error ("Git branch creation failed: " +:+ error)))
  else ret tt.

Definition auto_commit (plan : FileGenerationPlan) : M (state W) unit :=
  s ← get;
  let r := result s in
  if GitManager.autoCommit (gitConfig self)
     && ((0 <? length (filesCreated r))%nat
         || (0 <? length (filesModified r))%nat)
  then
    try_catch
      (let allFiles := (filesCreated r ++ filesModified r)%list in
       let message :=
         git_generateCommitMessage allFiles (feature plan) (world s) in
       call (git_commit message allFiles) ;;
       with_result (set_gitCommit message))
      (fun error =>
         with_result (push_error ("Auto-commit failed: " +:+ error)))
  else ret tt.

Definition initial_result : GenerationResult :=
  {| success := true;
     filesCreated := [];
     filesModified := [];
     filesSkipped := [];
     errors := [];
     gitCommit := None;
     branchCreated := None |}.

Definition initial_state (w : W) : state W := State initial_result false [] w.

(** The whole of [executeGenerationPlan], ending in the state it
    leaves: the result, the ghost log and the world. *)
Definition run_plan (plan : FileGenerationPlan) (w : W) : state W :=
  snd ((setup_branch plan ;;
        process_all (files plan) ;;
        auto_commit plan) (initial_state w)).

Definition executeGenerationPlan (plan : FileGenerationPlan) (w : W)
  : GenerationResult * W :=
  let s := run_plan plan w in (result s, world s).
End Run.

End Exec.

(** ** The task ledger ([src/core/todo-manager.ts]) *)

Module Status.
Inductive t : Type := pending | in_progress | completed | skipped | blocked.
Global Instance eq_dec : EqDecision t.
Proof. solve_decision. Defined.
(** The three outcome states of a todo. *)
Definition terminal (s : t) : Prop := s = completed \/ s = skipped \/ s = blocked.
End Status.

Module Priority.
Inductive t : Type := low | medium | high.
Global Instance eq_dec : EqDecision t.
Proof. solve_decision. Defined.
End Priority.

Module GroupStatus.
Inductive t : Type := pending | in_progress | completed | cancelled.
Global Instance eq_dec : EqDecision t.
Proof. solve_decision. Defined.
End GroupStatus.

Module Todo.
Record t : Type := Build {
  id : string;
  title : string;
  description : option string;
  status : Status.t;
  priority : Priority.t;
  createdAt : Z;
  updatedAt : Z;
  estimatedTokens : option Z;
  actualTokens : option Z;
  dependencies : option (list string);
  tags : option (list string)
}.
End Todo.

Module TodoGroup.
Record t : Type := Build {
  id : string;
  title : string;
  description : option string;
  todos : list Todo.t;
  status : GroupStatus.t;
  createdAt : Z;
  updatedAt : Z;
  estimatedTokens : option Z;
  actualTokens : option Z
}.
End TodoGroup.

Module TodoManager.

(** The in-memory ledger.  [currentGroup] is a reference to one of the
    objects in [groups], kept here as its index. *)
Record t : Type := Build {
  projectRoot : string;
  sessionId : string;
  currentGroup : option nat;
  groups : list TodoGroup.t
}.

Definition with_groups (self : t) (gs : list TodoGroup.t) : t :=
  Build (projectRoot self) (sessionId self) (currentGroup self) gs.

(** [Array.prototype.sort(cmp)]: the sort is stable, and with a
    consistent comparator its result is the one stable ordering; an
    insertion sort that keeps equal elements in their order computes
    it. *)
Section Sort.
Context {A : Type} (cmp : A -> A -> Z).

Fixpoint insert_sorted (x : A) (l : list A) : list A :=
  match l with
  | [] => [x]
  | y :: tl =>
      if (cmp x y <=? 0)%Z then x :: l else y :: insert_sorted x tl
  end.

Definition js_sort (l : list A) : list A := foldr insert_sorted [] l.
End Sort.

Definition getAllTodos (self : t) : list Todo.t :=
  groups self ≫= TodoGroup.todos.

(** [group.todos.find(t => t.id === todoId)] with the place it was
    found at. *)
Definition find_in_group (todoId : string) (g : TodoGroup.t)
  : option (nat * Todo.t) :=
  list_find (fun t => Todo.id t = todoId) (TodoGroup.todos g).

(** [findTodo]: the first group that holds a todo of that id, as
    (group index, todo index, group, todo). *)
Fixpoint find_from (todoId : string) (gi : nat) (gs : list TodoGroup.t)
  : option (nat * nat * TodoGroup.t * Todo.t) :=
  match gs with
  | [] => None
  | g :: later =>
      match find_in_group todoId g with
      | Some (ti, todo) => Some (gi, ti, g, todo)
      | None => find_from todoId (S gi) later
      end
  end.

Definition findTodo (self : t) (todoId : string)
  : option (nat * nat * TodoGroup.t * Todo.t) :=
  find_from todoId 0 (groups self).

Definition areDependenciesMet (self : t) (todo : Todo.t) : bool :=
  match Todo.dependencies todo with
  | None | Some [] => true
  | Some deps =>
      forallb (fun depId =>
                 match findTodo self depId with
                 | Some (_, _, _, depTodo) =>
                     bool_decide (Todo.status depTodo = Status.completed)
                 | None => false
                 end) deps
  end.

Definition priorityWeight (p : Priority.t) : Z :=
  match p with
  | Priority.high => 3
  | Priority.medium => 2
  | Priority.low => 1
  end.

(** The comparator of [getNextTodo]. *)
Definition compareTodos (a b : Todo.t) : Z :=
  let aPriority := priorityWeight (Todo.priority a) in
  let bPriority := priorityWeight (Todo.priority b) in
  if negb (aPriority =? bPriority)%Z then (bPriority - aPriority)%Z
  else (Todo.createdAt a - Todo.createdAt b)%Z.

Definition getCurrentTodo (self : t) : option Todo.t :=
  head (filter (fun t => Todo.status t = Status.in_progress) (getAllTodos self)).

Definition getNextTodo (self : t) : option Todo.t :=
  let pendingTodos :=
    js_sort compareTodos
      (filter (fun t => areDependenciesMet self t = true)
         (filter (fun t => Todo.status t = Status.pending)
            (getAllTodos self))) in
  head pendingTodos.

(** The todo [getNextTodo] returns is an object of the ledger:
    [nextTodoAt] is the same selection, made on the todos together
    with their places in [getAllTodos]. *)
Definition nextTodoAt (self : t) : option (nat * Todo.t) :=
  head (js_sort (fun a b : nat * Todo.t => compareTodos a.2 b.2)
          (filter (fun it : nat * Todo.t => areDependenciesMet self it.2 = true)
             (filter (fun it : nat * Todo.t => Todo.status it.2 = Status.pending)
                (imap pair (getAllTodos self))))).

(** [updateGroupStatus(group)] at time [now]. *)
Definition updateGroupStatus (now : Z) (group : TodoGroup.t) : TodoGroup.t :=
  let todos := TodoGroup.todos group in
  let set (s : GroupStatus.t) (updated : Z) :=
    TodoGroup.Build (TodoGroup.id group) (TodoGroup.title group)
      (TodoGroup.description group) todos s (TodoGroup.createdAt group)
      updated (TodoGroup.estimatedTokens group)
      (TodoGroup.actualTokens group) in
  if (length todos =? 0)%nat then set GroupStatus.pending (TodoGroup.updatedAt group)
  else
    let completed :=
      length (filter (fun t => Todo.status t = Status.completed) todos) in
    let inProgress :=
      length (filter (fun t => Todo.status t = Status.in_progress) todos) in
    let total := length todos in
    if (completed =? total)%nat then set GroupStatus.completed now
    else if (0 <? inProgress)%nat || (0 <? completed)%nat
    then set GroupStatus.in_progress now
    else set GroupStatus.pending now.

Definition set_status (now : Z) (s : Status.t) (actualTokens : option Z)
    (todo : Todo.t) : Todo.t :=
  Todo.Build (Todo.id todo) (Todo.title todo) (Todo.description todo) s
    (Todo.priority todo) (Todo.createdAt todo) now (Todo.estimatedTokens todo)
    (match actualTokens with
     | Some n => Some n
     | None => Todo.actualTokens todo
     end)
    (Todo.dependencies todo) (Todo.tags todo).

Definition with_todos (g : TodoGroup.t) (ts : list Todo.t) : TodoGroup.t :=
  TodoGroup.Build (TodoGroup.id g) (TodoGroup.title g)
    (TodoGroup.description g) ts (TodoGroup.status g) (TodoGroup.createdAt g)
    (TodoGroup.updatedAt g) (TodoGroup.estimatedTokens g)
    (TodoGroup.actualTokens g).

Definition not_found (todoId : string) : string :=
  "Error: Todo with id " +:+ todoId +:+ " not found".

(** The operations take what the source draws from its environment as
    arguments: one argument for each [new Date()] the operation
    evaluates, in the order of evaluation, and [newId] for the result
    of [generateId()]. *)
Section Operations.
(** [saveTodos()]: the write of the ledger to the session file,
    which may throw; the ledger in memory is not touched by it. *)
Variable saveTodos : t -> outcome unit.

Definition save : M t unit := fun self => (saveTodos self, self).

Definition createTodoGroup (created updated : Z) (newId : string)
    (title : string) (description : option string)
    (estimatedTokens : option Z) : M t string :=
  let group :=
    TodoGroup.Build newId title description [] GroupStatus.pending
      created updated estimatedTokens None in
  modify_ (fun self =>
             Build (projectRoot self) (sessionId self)
                   (Some (length (groups self)))
                   (groups self ++ [group])) ;;
  save ;;
  ret newId.

Record AddOptions : Type := Build_AddOptions {
  o_description : option string;
  o_priority : option Priority.t;
  o_estimatedTokens : option Z;
  o_dependencies : option (list string);
  o_tags : option (list string);
  o_groupId : option string
}.

Definition no_options : AddOptions :=
  Build_AddOptions None None None None None None.

(** The readings of the clock in [addTodo]: the two of the new todo,
    the two of the default group should one have to be created, and
    the one written to the receiving group at the end. *)
Record AddTimes : Type := Build_AddTimes {
  todoCreated : Z;
  todoUpdated : Z;
  groupCreated : Z;
  groupUpdated : Z;
  groupTouched : Z
}.

(** [addTodo]; [groupId] is the id handed to the default group
    should one have to be created. *)
Definition addTodo (times : AddTimes) (newId groupId : string)
    (title : string) (options : AddOptions) : M t string :=
  let todo :=
    Todo.Build newId title (o_description options) Status.pending
      (default Priority.medium (o_priority options))
      (todoCreated times) (todoUpdated times)
      (o_estimatedTokens options) None
      (Some (default [] (o_dependencies options)))
      (Some (default [] (o_tags options))) in
  self ← get;
  let wanted :=
    match o_groupId options with
    | Some gid =>
        if Js.truthy gid then
          match list_find (fun g => TodoGroup.id g = gid) (groups self) with
          | Some (i, _) => Some i
          | None => currentGroup self
          end
        else currentGroup self
    | None => currentGroup self
    end in
  target ← match wanted with
           | Some i => ret i
           | None =>
               createTodoGroup (groupCreated times) (groupUpdated times)
                 groupId "Default Tasks" None None ;;
               self' ← get;
               ret (default 0%nat (currentGroup self'))
           end;
  modify_ (fun self =>
             with_groups self
               (alter (fun g =>
                         TodoGroup.Build (TodoGroup.id g) (TodoGroup.title g)
                           (TodoGroup.description g)
                           (TodoGroup.todos g ++ [todo])
                           (TodoGroup.status g) (TodoGroup.createdAt g)
                           (groupTouched times)
                           (TodoGroup.estimatedTokens g)
                           (TodoGroup.actualTokens g))
                      target (groups self))) ;;
  save ;;
  ret newId.

(** [updateTodoStatus]: [now] is written to the todo, [groupNow] is
    the reading [updateGroupStatus] takes afterwards. *)
Definition updateTodoStatus (now groupNow : Z) (todoId : string)
    (status : Status.t) (actualTokens : option Z) : M t unit :=
  self ← get;
  match findTodo self todoId with
  | None => fun s => (Threw (not_found todoId), s)
  | Some (gi, ti, group, _) =>
      let group' :=
        updateGroupStatus groupNow
          (with_todos group
             (alter (set_status now status actualTokens) ti
                    (TodoGroup.todos group))) in
      modify_ (fun self => with_groups self (<[gi := group']> (groups self))) ;;
      save
  end.

(** [continueFromLastCheckpoint].  What [getNextTodo] hands over is
    one of the ledger's own objects, [nextTodoAt] giving its place;
    [updateTodoStatus] then writes to the first todo of that id, and
    what is returned is the object at that place as it is afterwards. *)
Definition continueFromLastCheckpoint (now groupNow : Z)
  : M t (option Todo.t) :=
  self ← get;
  match getCurrentTodo self with
  | Some currentTodo => ret (Some currentTodo)
  | None =>
      match nextTodoAt self with
      | Some (place, nextTodo) =>
          updateTodoStatus now groupNow (Todo.id nextTodo)
            Status.in_progress None ;;
          self' ← get;
          ret (Some (default nextTodo (getAllTodos self' !! place)))
      | None => ret None
      end
  end.

Definition skipTodo (now groupNow : Z) (todoId : string)
    (reason : option string) : M t unit :=
  self ← get;
  match findTodo self todoId with
  | None => fun s => (Threw (not_found todoId), s)
  | Some (gi, ti, _, _) =>
      updateTodoStatus now groupNow todoId Status.skipped None ;;
      match reason with
      | Some why =>
          if Js.truthy why then
            modify_ (fun self =>
              with_groups self
                (alter (fun g =>
                   with_todos g
                     (alter (fun todo =>
                        Todo.Build (Todo.id todo) (Todo.title todo)
                          (Some (default "" (Todo.description todo) +:+
                                 String Js.nl ("[SKIPPED: " +:+ why +:+ "]")))
                          (Todo.status todo) (Todo.priority todo)
                          (Todo.createdAt todo) (Todo.updatedAt todo)
                          (Todo.estimatedTokens todo) (Todo.actualTokens todo)
                          (Todo.dependencies todo) (Todo.tags todo))
                      ti (TodoGroup.todos g)))
                 gi (groups self)))
          else ret tt
      | None => ret tt
      end
  end.
End Operations.

End TodoManager.

(** * Properties of the task ledger *)

Module LedgerProps.
Import TodoManager.

(** ** The sort behind [getNextTodo] *)

Section SortFacts.
Context {A : Type} (cmp : A -> A -> Z).
Let le (a b : A) : Prop := (cmp a b <= 0)%Z.
Hypothesis le_trans : forall a b c, le a b -> le b c -> le a c.
Hypothesis le_total : forall a b, le a b \/ le b a.

Lemma insert_sorted_elem x y l :
  y ∈ insert_sorted cmp x l <-> y = x \/ y ∈ l.
Proof.
  induction l as [|z l IH]; simpl.
  - rewrite list_elem_of_singleton, elem_of_nil. tauto.
  - destruct (cmp x z <=? 0)%Z.
    + rewrite !elem_of_cons. tauto.
    + rewrite !elem_of_cons, IH. tauto.
Qed.

Lemma js_sort_elem y l : y ∈ js_sort cmp l <-> y ∈ l.
Proof.
  induction l as [|x l IH]; simpl; [done|].
  rewrite insert_sorted_elem, elem_of_cons, IH. tauto.
Qed.

Lemma insert_sorted_head x l t :
  head (insert_sorted cmp x l) = Some t ->
  (t = x /\ forall u, head l = Some u -> le x u)
  \/ (head l = Some t /\ le t x).
Proof.
  destruct l as [|z l]; simpl.
  - intros [= <-]. left. split; [done|]. intros u [=].
  - destruct (Z.leb_spec (cmp x z) 0) as [Hle|Hgt]; simpl.
    + intros [= <-]. left. split; [done|]. by intros u [= <-].
    + intros [= <-]. right. split; [done|].
      destruct (le_total z x) as [?|Hxz]; [done|].
      unfold le in Hxz. lia.
Qed.

(** The result is a rearrangement of the input, in comparator order. *)
Lemma insert_sorted_perm x l : insert_sorted cmp x l ≡ₚ x :: l.
Proof.
  induction l as [|y l IH]; simpl; [done|].
  destruct (cmp x y <=? 0)%Z; [done|].
  rewrite IH. apply Permutation_swap.
Qed.

Lemma js_sort_perm l : js_sort cmp l ≡ₚ l.
Proof.
  induction l as [|x l IH]; simpl; [done|].
  by rewrite insert_sorted_perm, IH.
Qed.

Lemma insert_sorted_sorted x l :
  Sorted le l -> Sorted le (insert_sorted cmp x l).
Proof.
  induction 1 as [|y l Hl IH Hhd]; simpl; [by repeat constructor|].
  destruct (Z.leb_spec (cmp x y) 0) as [Hle|Hgt].
  - by repeat constructor.
  - constructor; [done|].
    assert (le y x) as Hyx.
    { destruct (le_total y x) as [?|Hxy]; [done|]. unfold le in Hxy. lia. }
    destruct Hhd as [|z l Hyz]; simpl; [by constructor|].
    destruct (cmp x z <=? 0)%Z; by constructor.
Qed.

Lemma js_sort_sorted l : Sorted le (js_sort cmp l).
Proof.
  induction l as [|x l IH]; simpl; [constructor|].
  by apply insert_sorted_sorted.
Qed.

(** The head of the sorted list is minimal for the comparator. *)
Lemma js_sort_head_least l t :
  head (js_sort cmp l) = Some t -> forall u, u ∈ l -> le t u.
Proof.
  revert t. induction l as [|x l IH]; intros t Hhd u Hu.
  - by apply elem_of_nil in Hu.
  - simpl in Hhd. apply insert_sorted_head in Hhd.
    apply elem_of_cons in Hu.
    destruct Hhd as [[-> Hx]|[Hhd Htx]].
    + destruct Hu as [->|Hu].
      * destruct (le_total x x); done.
      * destruct (head (js_sort cmp l)) as [m|] eqn:Hm.
        -- apply le_trans with m; [by apply Hx|]. by apply IH.
        -- destruct (js_sort cmp l) eqn:Hs; [|done].
           apply js_sort_elem in Hu. rewrite Hs in Hu.
           by apply elem_of_nil in Hu.
    + destruct Hu as [->|Hu]; [done|]. by apply IH.
Qed.

Lemma js_sort_head_none l : head (js_sort cmp l) = None -> l = [].
Proof.
  destruct l as [|x l]; [done|]. simpl.
  intros Hhd. destruct (js_sort cmp l) as [|z k]; simpl in Hhd; [done|].
  by destruct (cmp x z <=? 0)%Z.
Qed.
End SortFacts.

Definition weight (t : Todo.t) : Z := priorityWeight (Todo.priority t).

Lemma weight_inj a b : weight a = weight b -> Todo.priority a = Todo.priority b.
Proof. unfold weight. by destruct (Todo.priority a), (Todo.priority b). Qed.

(** [t] goes before [u] in the order of [getNextTodo]: a higher
    priority, or the same priority and a creation time that is not
    later. *)
Definition goes_first (t u : Todo.t) : Prop :=
  (weight u < weight t)%Z
  \/ (Todo.priority u = Todo.priority t
      /\ (Todo.createdAt t <= Todo.createdAt u)%Z).

Lemma compareTodos_le a b : (compareTodos a b <= 0)%Z <-> goes_first a b.
Proof.
  unfold compareTodos, goes_first. fold (weight a) (weight b).
  destruct (Z.eqb_spec (weight a) (weight b)) as [Heq|Hne]; simpl.
  - split.
    + intros. right. split; [symmetry; by apply weight_inj | lia].
    + intros [?|[_ ?]]; lia.
  - split.
    + intros. left. lia.
    + intros [?|[Hp _]]; [lia|]. unfold weight in Hne. by rewrite Hp in Hne.
Qed.

Lemma goes_first_trans a b c : goes_first a b -> goes_first b c -> goes_first a c.
Proof.
  unfold goes_first, weight.
  intros [?|[Hp ?]] [?|[Hq ?]].
  - left. lia.
  - left. rewrite Hq. lia.
  - left. rewrite <- Hp. lia.
  - right. split; [congruence | lia].
Qed.

Lemma goes_first_total a b : goes_first a b \/ goes_first b a.
Proof.
  unfold goes_first.
  destruct (Z.lt_trichotomy (weight a) (weight b)) as [?|[Heq|?]]; [tauto| |tauto].
  apply weight_inj in Heq.
  destruct (Z.le_ge_cases (Todo.createdAt a) (Todo.createdAt b)); [left|right];
    right; split; congruence || lia.
Qed.

(** ** Eligibility *)

(** Every dependency id of [t] resolves, through [findTodo], to a
    completed todo. *)
Definition dependencies_completed (self : TodoManager.t) (t : Todo.t) : Prop :=
  forall depId, depId ∈ default [] (Todo.dependencies t) ->
    exists gi ti g dep,
      findTodo self depId = Some (gi, ti, g, dep)
      /\ Todo.status dep = Status.completed.

Definition eligible (self : TodoManager.t) (t : Todo.t) : Prop :=
  t ∈ getAllTodos self
  /\ Todo.status t = Status.pending
  /\ dependencies_completed self t.

Lemma areDependenciesMet_iff self t :
  areDependenciesMet self t = true <-> dependencies_completed self t.
Proof.
  unfold areDependenciesMet, dependencies_completed.
  destruct (Todo.dependencies t) as [deps|]; simpl.
  - transitivity (forallb
      (fun depId =>
         match findTodo self depId with
         | Some (_, _, _, depTodo) =>
             bool_decide (Todo.status depTodo = Status.completed)
         | None => false
         end) deps = true).
    { by destruct deps. }
    rewrite forallb_forall. setoid_rewrite <- list_elem_of_In.
    split.
    + intros H d Hd. specialize (H d Hd).
      destruct (findTodo self d) as [[[[gi ti] g] dep]|]; [|done].
      apply bool_decide_eq_true in H. eauto 6.
    + intros H d Hd. destruct (H d Hd) as (gi & ti & g & dep & -> & Hs).
      by apply bool_decide_eq_true.
  - split; [|done]. intros _ d Hd. by apply elem_of_nil in Hd.
Qed.

Lemma eligible_filter self t :
  t ∈ filter (fun t => areDependenciesMet self t = true)
        (filter (fun t => Todo.status t = Status.pending) (getAllTodos self))
  <-> eligible self t.
Proof.
  rewrite !list_elem_of_filter, areDependenciesMet_iff.
  unfold eligible. tauto.
Qed.

Lemma getNextTodo_eligible self t : getNextTodo self = Some t -> eligible self t.
Proof.
  unfold getNextTodo. intros Hhd.
  apply eligible_filter, (js_sort_elem compareTodos).
  by apply head_Some_elem_of.
Qed.

Lemma getNextTodo_least self t u :
  getNextTodo self = Some t -> eligible self u -> goes_first t u.
Proof.
  unfold getNextTodo. intros Hhd Hu.
  apply compareTodos_le.
  eapply (js_sort_head_least compareTodos); [| |exact Hhd|by apply eligible_filter].
  - intros a b c. rewrite !compareTodos_le. apply goes_first_trans.
  - intros a b. rewrite !compareTodos_le. apply goes_first_total.
Qed.

Lemma getNextTodo_none self u : getNextTodo self = None -> ~ eligible self u.
Proof.
  unfold getNextTodo. intros Hhd Hu.
  apply js_sort_head_none in Hhd. apply eligible_filter in Hu.
  rewrite Hhd in Hu. by apply elem_of_nil in Hu.
Qed.

(** ** Where [findTodo] looks *)

Lemma find_from_Some todoId k gs gi ti g t :
  find_from todoId k gs = Some (gi, ti, g, t) ->
  exists i, gi = (k + i)%nat /\ gs !! i = Some g
            /\ TodoGroup.todos g !! ti = Some t /\ Todo.id t = todoId.
Proof.
  revert k. induction gs as [|g0 gs IH]; intros k; simpl; [done|].
  unfold find_in_group.
  destruct (list_find _ (TodoGroup.todos g0)) as [[i0 t0]|] eqn:Hf.
  - intros [= <- <- <- <-]. apply list_find_Some in Hf as (? & ? & _).
    exists 0%nat. split; [lia|done].
  - intros H. apply IH in H as (i & -> & ? & ? & ?).
    exists (S i). split; [lia|done].
Qed.

Lemma findTodo_Some self todoId gi ti g t :
  findTodo self todoId = Some (gi, ti, g, t) ->
  groups self !! gi = Some g /\ TodoGroup.todos g !! ti = Some t
  /\ Todo.id t = todoId.
Proof.
  intros H. apply find_from_Some in H as (i & -> & ? & ? & ?). done.
Qed.

Lemma getAllTodos_lookup self t :
  t ∈ getAllTodos self <->
  exists gi g ti, groups self !! gi = Some g /\ TodoGroup.todos g !! ti = Some t.
Proof.
  unfold getAllTodos. rewrite list_elem_of_bind. split.
  - intros (g & Ht & Hg).
    apply list_elem_of_lookup in Ht as [ti ?].
    apply list_elem_of_lookup in Hg as [gi ?]. eauto.
  - intros (gi & g & ti & Hg & Ht). exists g.
    split; eapply list_elem_of_lookup_2; eauto.
Qed.

(** With distinct ids, [findTodo] on the id of a todo of the ledger
    finds that very todo, at its place. *)
Lemma find_from_at todoIds k gs gi g ti t :
  todoIds = Todo.id <$> (gs ≫= TodoGroup.todos) ->
  NoDup todoIds ->
  gs !! gi = Some g -> TodoGroup.todos g !! ti = Some t ->
  find_from (Todo.id t) k gs = Some ((k + gi)%nat, ti, g, t).
Proof.
  intros ->. revert k gi. induction gs as [|g0 gs IH]; intros k gi Hnd Hg Ht; [done|].
  simpl in Hnd. rewrite fmap_app in Hnd.
  apply NoDup_app in Hnd as (Hnd0 & Hdisj & Hnd1).
  simpl. unfold find_in_group. destruct gi as [|gi]; simpl in Hg.
  - injection Hg as ->.
    destruct (list_find _ (TodoGroup.todos g)) as [[i0 t0]|] eqn:Hf.
    + apply list_find_Some in Hf as (Hi0 & Hid & _).
      assert (i0 = ti) as ->.
      { eapply NoDup_lookup; [exact Hnd0| |].
        - rewrite list_lookup_fmap, Hi0. simpl. by rewrite Hid.
        - by rewrite list_lookup_fmap, Ht. }
      rewrite Ht in Hi0. injection Hi0 as ->.
      by rewrite Nat.add_0_r.
    + exfalso. eapply list_find_None in Hf.
      rewrite Forall_forall in Hf. apply (Hf t); [|done].
      by eapply list_elem_of_lookup_2.
  - destruct (list_find _ (TodoGroup.todos g0)) as [[i0 t0]|] eqn:Hf.
    + exfalso. apply list_find_Some in Hf as (Hi0 & Hid & _).
      apply (Hdisj (Todo.id t)).
      * rewrite <- Hid. apply list_elem_of_fmap_2.
        by eapply list_elem_of_lookup_2.
      * apply list_elem_of_fmap_2, list_elem_of_bind. exists g.
        split; eapply list_elem_of_lookup_2; eauto.
    + rewrite (IH (S k) gi Hnd1 Hg Ht). do 4 f_equal. lia.
Qed.

Lemma findTodo_at self gi g ti t :
  NoDup (Todo.id <$> getAllTodos self) ->
  groups self !! gi = Some g -> TodoGroup.todos g !! ti = Some t ->
  findTodo self (Todo.id t) = Some (gi, ti, g, t).
Proof.
  intros Hnd Hg Ht. unfold findTodo.
  by rewrite (find_from_at _ 0 _ gi g ti t eq_refl Hnd Hg Ht).
Qed.

(** ** What the operations leave behind *)

Lemma updateGroupStatus_todos now g :
  TodoGroup.todos (updateGroupStatus now g) = TodoGroup.todos g.
Proof.
  unfold updateGroupStatus.
  repeat match goal with |- context [if ?b then _ else _] => destruct b end;
    reflexivity.
Qed.

Lemma updateTodoStatus_state save now groupNow todoId status a self gi ti g t :
  findTodo self todoId = Some (gi, ti, g, t) ->
  (updateTodoStatus save now groupNow todoId status a self).2 =
    with_groups self
      (<[gi := updateGroupStatus groupNow
                 (with_todos g (alter (set_status now status a) ti
                                      (TodoGroup.todos g)))]> (groups self)).
Proof.
  intros Hf. unfold updateTodoStatus, mbind, M_bind, bind, get. simpl.
  rewrite Hf. reflexivity.
Qed.

Lemma updateTodoStatus_at save now groupNow todoId status a self gi ti g t :
  findTodo self todoId = Some (gi, ti, g, t) ->
  exists g',
    groups (updateTodoStatus save now groupNow todoId status a self).2 !! gi = Some g'
    /\ g' = updateGroupStatus groupNow
              (with_todos g (alter (set_status now status a) ti
                                   (TodoGroup.todos g)))
    /\ TodoGroup.todos g' !! ti = Some (set_status now status a t).
Proof.
  intros Hf. rewrite (updateTodoStatus_state _ _ _ _ _ _ _ _ _ _ _ Hf).
  apply findTodo_Some in Hf as (Hg & Ht & _).
  eexists. split; [|split; [reflexivity|]].
  - simpl. apply list_lookup_insert_eq. by eapply lookup_lt_Some.
  - rewrite updateGroupStatus_todos. simpl.
    by rewrite list_lookup_alter_eq, Ht.
Qed.

Lemma updateTodoStatus_elsewhere save now groupNow todoId status a self gi ti g t
    gj g1 tj t1 :
  findTodo self todoId = Some (gi, ti, g, t) ->
  groups self !! gj = Some g1 -> TodoGroup.todos g1 !! tj = Some t1 ->
  (gj, tj) <> (gi, ti) ->
  exists g',
    groups (updateTodoStatus save now groupNow todoId status a self).2 !! gj = Some g'
    /\ TodoGroup.todos g' !! tj = Some t1.
Proof.
  intros Hf Hg1 Ht1 Hne. rewrite (updateTodoStatus_state _ _ _ _ _ _ _ _ _ _ _ Hf).
  apply findTodo_Some in Hf as (Hg & Ht & _). simpl.
  destruct (decide (gj = gi)) as [->|Hgne].
  - rewrite Hg in Hg1. injection Hg1 as <-.
    eexists. split.
    + apply list_lookup_insert_eq. by eapply lookup_lt_Some.
    + rewrite updateGroupStatus_todos. simpl.
      rewrite list_lookup_alter_ne; [done|]. congruence.
  - exists g1. by rewrite list_lookup_insert_ne.
Qed.

(** ** [findTodo] and the order of [getAllTodos] *)

Definition has_id (todoId : string) (t : Todo.t) : Prop := Todo.id t = todoId.

Global Instance has_id_dec todoId t : Decision (has_id todoId t).
Proof. unfold has_id. apply _. Defined.

(** [findTodo] walks the groups in order and each group's todos in
    order: it finds what a search of [getAllTodos] finds. *)
Lemma find_from_flat todoId k gs :
  (fun r => r.2) <$> find_from todoId k gs
  = snd <$> list_find (has_id todoId) (gs ≫= TodoGroup.todos).
Proof.
  revert k. induction gs as [|g gs IH]; intros k; [done|].
  rewrite bind_cons. simpl. unfold find_in_group.
  change (fun t => Todo.id t = todoId) with (has_id todoId).
  destruct (list_find (has_id todoId) (TodoGroup.todos g)) as [[i t]|] eqn:Hf.
  - by rewrite (list_find_app_l _ _ _ _ _ Hf).
  - rewrite (list_find_app_r _ _ _ Hf), IH.
    by destruct (list_find (has_id todoId) (gs ≫= TodoGroup.todos)) as [[j u]|].
Qed.

Lemma findTodo_None_iff self todoId :
  findTodo self todoId = None <-> todoId ∉ (Todo.id <$> getAllTodos self).
Proof.
  unfold findTodo, getAllTodos.
  pose proof (find_from_flat todoId 0 (groups self)) as Hflat.
  split.
  - intros Hnone. rewrite Hnone in Hflat. simpl in Hflat.
    destruct (list_find _ _) as [[j u]|] eqn:Hf; [done|].
    apply list_find_None in Hf. rewrite Forall_forall in Hf.
    intros (u & -> & Hu)%list_elem_of_fmap. by apply (Hf u).
  - intros Hnot. destruct (find_from _ _ _) as [r|] eqn:Hr; [|done].
    destruct (list_find _ _) as [[j u]|] eqn:Hf; [|done].
    apply list_find_Some in Hf as (Hj & Hid & _). destruct Hnot.
    rewrite <- Hid. apply list_elem_of_fmap_2. by eapply list_elem_of_lookup_2.
Qed.

(** The todos that come before the one [findTodo] returns do not have
    the id. *)
Lemma find_from_first todoId k gs gi ti g t :
  find_from todoId k gs = Some (gi, ti, g, t) ->
  todoId ∉ (Todo.id <$> ((take (gi - k) gs ≫= TodoGroup.todos)
                          ++ take ti (TodoGroup.todos g))).
Proof.
  revert k. induction gs as [|g0 gs IH]; intros k; simpl; [done|].
  unfold find_in_group.
  destruct (list_find _ (TodoGroup.todos g0)) as [[i0 t0]|] eqn:Hf.
  - intros [= <- <- <- <-]. rewrite Nat.sub_diag. simpl.
    apply list_find_Some in Hf as (_ & _ & Hleast).
    intros (u & Hu & Hin)%list_elem_of_fmap.
    apply list_elem_of_lookup in Hin as [j Hj].
    pose proof (lookup_lt_Some _ _ _ Hj) as Hlt.
    rewrite length_take in Hlt. rewrite lookup_take_lt in Hj by lia.
    apply (Hleast j u); [done|lia|done].
  - intros H. pose proof (find_from_Some _ _ _ _ _ _ _ H) as (i & -> & _).
    apply IH in H.
    match type of H with context [take ?n gs] =>
      replace n with i in H by lia end.
    match goal with |- context [take ?n (g0 :: gs)] =>
      replace n with (S i) by lia end.
    rewrite firstn_cons, bind_cons, <- app_assoc, fmap_app. intros [Hin|Hin]%elem_of_app; [|done].
    apply list_find_None in Hf. rewrite Forall_forall in Hf.
    apply list_elem_of_fmap in Hin as (u & -> & Hu). by apply (Hf u).
Qed.

(** ** How [updateTodoStatus] rewrites the ledger *)

Lemma alter_middle {A} (f : A -> A) (l : list A) i x :
  l !! i = Some x -> alter f i l = take i l ++ f x :: drop (S i) l.
Proof.
  revert i. induction l as [|y l IH]; intros [|i] Hi; simplify_eq/=; [done|].
  f_equal. by apply IH.
Qed.

Definition before (self : TodoManager.t) (gi ti : nat) (g : TodoGroup.t)
  : list Todo.t :=
  (take gi (groups self) ≫= TodoGroup.todos) ++ take ti (TodoGroup.todos g).

Definition behind (self : TodoManager.t) (gi ti : nat) (g : TodoGroup.t)
  : list Todo.t :=
  drop (S ti) (TodoGroup.todos g) ++ (drop (S gi) (groups self) ≫= TodoGroup.todos).

Lemma getAllTodos_split self gi ti g t :
  groups self !! gi = Some g ->
  TodoGroup.todos g !! ti = Some t ->
  getAllTodos self = before self gi ti g ++ t :: behind self gi ti g.
Proof.
  intros Hg Ht. unfold getAllTodos, before, behind.
  rewrite <- (take_drop_middle _ _ _ Hg) at 1.
  rewrite bind_app, bind_cons.
  rewrite <- (take_drop_middle _ _ _ Ht) at 1.
  by rewrite <- !app_assoc.
Qed.

Lemma getAllTodos_altered self gi ti g t (f : Todo.t -> Todo.t) g' :
  groups self !! gi = Some g ->
  TodoGroup.todos g !! ti = Some t ->
  TodoGroup.todos g' = alter f ti (TodoGroup.todos g) ->
  getAllTodos (with_groups self (<[gi := g']> (groups self)))
  = before self gi ti g ++ f t :: behind self gi ti g.
Proof.
  intros Hg Ht Hg'. unfold getAllTodos, before, behind. simpl.
  rewrite insert_take_drop by (by eapply lookup_lt_Some).
  rewrite bind_app, bind_cons, Hg', (alter_middle _ _ _ _ Ht).
  by rewrite <- !app_assoc.
Qed.

(** ** Sample ledgers *)

Definition sample_todo (id : string) (p : Priority.t) (created : Z)
    (s : Status.t) (deps : list string) : Todo.t :=
  Todo.Build id id None s p created created None None (Some deps) (Some []).

Definition sample_group (id : string) (s : GroupStatus.t) (ts : list Todo.t)
  : TodoGroup.t :=
  TodoGroup.Build id id None ts s 0 0 None None.

Definition sample_ledger (gs : list TodoGroup.t) : TodoManager.t :=
  TodoManager.Build "/home/u/app" "session" (Some 0%nat) gs.

(** A write-through that always succeeds. *)
Definition saved (_ : TodoManager.t) : outcome unit := Ret tt.

(** ** The ledger in the words of the specification

    The notions the scheduling and state-machine claims speak of,
    written down on the groups of the ledger themselves and not
    through the functions of the code. *)

(** [t] is a todo of the ledger: a member of one of its groups. *)
Definition in_ledger (self : TodoManager.t) (t : Todo.t) : Prop :=
  exists g, g ∈ groups self /\ t ∈ TodoGroup.todos g.

(** [t] stands at todo [ti] of group [gi]. *)
Definition todo_at (self : TodoManager.t) (gi ti : nat) (t : Todo.t) : Prop :=
  exists g, groups self !! gi = Some g /\ TodoGroup.todos g !! ti = Some t.

(** [t] stands at todo [ti] of group [gi], and no todo of the same id
    stands before it, groups in their order and the todos of a group
    in theirs. *)
Definition first_of_id (self : TodoManager.t) (gi ti : nat) (t : Todo.t)
  : Prop :=
  todo_at self gi ti t
  /\ forall gj tj u,
       todo_at self gj tj u -> Todo.id u = Todo.id t ->
       (gi < gj \/ (gi = gj /\ ti <= tj))%nat.

(** No two todos of the ledger have the same id. *)
Definition distinct_ids (self : TodoManager.t) : Prop :=
  forall gi ti t gj tj u,
    todo_at self gi ti t -> todo_at self gj tj u ->
    Todo.id t = Todo.id u -> gi = gj /\ ti = tj.

(** The todo an id resolves to: the first todo that has it. *)
Definition resolves_to (self : TodoManager.t) (todoId : string) (d : Todo.t)
  : Prop :=
  Todo.id d = todoId /\ exists gi ti, first_of_id self gi ti d.

(** Pending, and every dependency resolves to a completed todo. *)
Definition ready (self : TodoManager.t) (t : Todo.t) : Prop :=
  in_ledger self t
  /\ Todo.status t = Status.pending
  /\ forall depId, depId ∈ default [] (Todo.dependencies t) ->
       exists d, resolves_to self depId d /\ Todo.status d = Status.completed.

(** high > medium > low *)
Inductive outranks : Priority.t -> Priority.t -> Prop :=
| high_over_medium : outranks Priority.high Priority.medium
| high_over_low : outranks Priority.high Priority.low
| medium_over_low : outranks Priority.medium Priority.low.

(** [t] is to be scheduled no later than [u]: a higher priority, or
    the same priority and a creation time that is not later. *)
Definition precedes (t u : Todo.t) : Prop :=
  outranks (Todo.priority t) (Todo.priority u)
  \/ (Todo.priority t = Todo.priority u
      /\ (Todo.createdAt t <= Todo.createdAt u)%Z).

Lemma in_ledger_iff self t : in_ledger self t <-> t ∈ getAllTodos self.
Proof.
  unfold in_ledger, getAllTodos. rewrite list_elem_of_bind.
  split; intros (g & ? & ?); by exists g.
Qed.

Lemma precedes_iff t u : precedes t u <-> goes_first t u.
Proof.
  unfold precedes, goes_first, weight. split.
  - intros [Hrank|[Hp Hc]].
    + left. by destruct Hrank.
    + right. by split.
  - intros [Hw|[Hp Hc]].
    + left. destruct (Todo.priority t), (Todo.priority u);
        simpl in Hw; try lia; constructor.
    + right. by split.
Qed.

(** A todo that stands before the one [findTodo] returns does not
    have the id. *)
Lemma findTodo_first self todoId gi ti g t gj tj g' u :
  findTodo self todoId = Some (gi, ti, g, t) ->
  groups self !! gj = Some g' -> TodoGroup.todos g' !! tj = Some u ->
  Todo.id u = todoId ->
  (gi < gj \/ (gi = gj /\ ti <= tj))%nat.
Proof.
  intros Hf Hg' Hu Hid.
  pose proof (find_from_first _ _ _ _ _ _ _ Hf) as Hfirst.
  rewrite Nat.sub_0_r in Hfirst.
  apply findTodo_Some in Hf as (Hg & Ht & _).
  destruct (decide (gi < gj)%nat) as [|Hge]; [by left|]. right.
  destruct (decide (gj = gi)) as [->|Hne].
  - split; [done|]. rewrite Hg in Hg'. injection Hg' as <-.
    destruct (decide (ti <= tj)%nat) as [|Hlt]; [done|].
    destruct Hfirst. rewrite <- Hid. apply list_elem_of_fmap_2, elem_of_app.
    right. apply (list_elem_of_lookup_2 _ tj). rewrite lookup_take_lt by lia.
    done.
  - destruct Hfirst. rewrite <- Hid. apply list_elem_of_fmap_2, elem_of_app.
    left. apply list_elem_of_bind. exists g'. split.
    + by eapply list_elem_of_lookup_2.
    + apply (list_elem_of_lookup_2 _ gj). rewrite lookup_take_lt by lia. done.
Qed.

Lemma findTodo_present self t :
  t ∈ getAllTodos self -> is_Some (findTodo self (Todo.id t)).
Proof.
  intros Hin. destruct (findTodo self (Todo.id t)) eqn:Hf; [by eexists|].
  apply findTodo_None_iff in Hf. destruct Hf. by apply list_elem_of_fmap_2.
Qed.

Lemma findTodo_resolves self todoId gi ti g t :
  findTodo self todoId = Some (gi, ti, g, t) ->
  first_of_id self gi ti t /\ Todo.id t = todoId.
Proof.
  intros Hf. pose proof (findTodo_Some _ _ _ _ _ _ Hf) as (Hg & Ht & Hid).
  split; [|done]. split; [by exists g|].
  intros gj tj u (g' & Hg' & Hu) Hsame. rewrite Hid in Hsame.
  by eapply findTodo_first.
Qed.

Lemma first_of_id_found self gi ti t :
  first_of_id self gi ti t ->
  exists g, findTodo self (Todo.id t) = Some (gi, ti, g, t).
Proof.
  intros [(g & Hg & Ht) Hleast].
  destruct (findTodo_present self t) as [[[[gi' ti'] g'] t'] Hf].
  { apply getAllTodos_lookup. by exists gi, g, ti. }
  pose proof (findTodo_Some _ _ _ _ _ _ Hf) as (Hg' & Ht' & Hid').
  assert (todo_at self gi' ti' t') as Hat' by by exists g'.
  pose proof (Hleast gi' ti' t' Hat' Hid') as Hle.
  pose proof (findTodo_first _ _ _ _ _ _ gi ti g t Hf Hg Ht eq_refl) as Hge.
  assert (gi' = gi /\ ti' = ti) as [-> ->] by lia.
  rewrite Hg in Hg'. injection Hg' as <-.
  rewrite Ht in Ht'. injection Ht' as <-. by exists g.
Qed.

Lemma distinct_first self gi ti t :
  distinct_ids self -> todo_at self gi ti t -> first_of_id self gi ti t.
Proof.
  intros Hdistinct Hat. split; [done|]. intros gj tj u Hu Hid.
  destruct (Hdistinct gj tj u gi ti t Hu Hat Hid) as [-> ->]. right. lia.
Qed.

Lemma todo_at_listed self gi ti t : todo_at self gi ti t -> t ∈ getAllTodos self.
Proof. intros (g & Hg & Ht). apply getAllTodos_lookup. by exists gi, g, ti. Qed.

Lemma resolves_to_iff self todoId d :
  resolves_to self todoId d
  <-> exists gi ti g, findTodo self todoId = Some (gi, ti, g, d).
Proof.
  split.
  - intros (<- & gi & ti & Hfirst).
    destruct (first_of_id_found _ _ _ _ Hfirst) as [g Hf]. by exists gi, ti, g.
  - intros (gi & ti & g & Hf).
    destruct (findTodo_resolves _ _ _ _ _ _ Hf) as [Hfirst Hid].
    split; [done|]. by exists gi, ti.
Qed.

Lemma ready_iff self t : ready self t <-> eligible self t.
Proof.
  unfold ready, eligible, dependencies_completed.
  rewrite in_ledger_iff. split.
  - intros (Hin & Hs & Hdeps). split; [done|]. split; [done|].
    intros depId Hdep. destruct (Hdeps depId Hdep) as (d & Hd & Hdone).
    apply resolves_to_iff in Hd as (gi & ti & g & Hf). by exists gi, ti, g, d.
  - intros (Hin & Hs & Hdeps). split; [done|]. split; [done|].
    intros depId Hdep.
    destruct (Hdeps depId Hdep) as (gi & ti & g & d & Hf & Hdone).
    exists d. split; [|done]. apply resolves_to_iff. by exists gi, ti, g.
Qed.

(** ** Scheduling *)

(** C2. Whatever the ledger, the todo [getNextTodo] returns is a
    pending todo of the ledger whose every dependency id resolves to
    a completed todo, and among all such todos none has a higher
    priority (high > medium > low), nor the same priority and an
    earlier creation time.  A todo with a dependency that does not
    resolve to a completed todo is never returned, whatever its
    priority.  The answer is null exactly when the ledger has no
    pending todo with all its dependencies completed. *)
Theorem getNextTodo_selects (self : TodoManager.t) :
  (forall t, getNextTodo self = Some t ->
     ready self t
     /\ forall u, ready self u ->
          ~ outranks (Todo.priority u) (Todo.priority t)
          /\ (Todo.priority u = Todo.priority t ->
              (Todo.createdAt t <= Todo.createdAt u)%Z)
          /\ precedes t u)
  /\ (forall t depId,
        depId ∈ default [] (Todo.dependencies t) ->
        ~ (exists d, resolves_to self depId d
                     /\ Todo.status d = Status.completed) ->
        getNextTodo self <> Some t)
  /\ (getNextTodo self = None <-> forall u, ~ ready self u).
Proof.
  split; [|split].
  - intros t Hnext. split; [by apply ready_iff, getNextTodo_eligible|].
    intros u Hu%ready_iff.
    pose proof (getNextTodo_least self t u Hnext Hu) as Hfirst.
    apply precedes_iff in Hfirst. split; [|split; [|done]].
    + intros Hrank. destruct Hfirst as [Hup|[Hsame _]].
      * destruct Hrank; inversion Hup.
      * rewrite Hsame in Hrank. inversion Hrank.
    + intros Hsame. destruct Hfirst as [Hup|[_ Hc]]; [|done].
      rewrite Hsame in Hup. inversion Hup.
  - intros t depId Hdep Hunmet Hnext.
    apply getNextTodo_eligible, ready_iff in Hnext as (_ & _ & Hmet).
    by destruct Hunmet, (Hmet depId Hdep) as (d & ? & ?); exists d.
  - split.
    + intros Hnone u Hu%ready_iff. by apply (getNextTodo_none self u).
    + intros Hnobody. destruct (getNextTodo self) as [t|] eqn:Hnext; [|done].
      destruct (Hnobody t). by apply ready_iff, getNextTodo_eligible.
Qed.

(** The scenario of the specification: priorities low, high, medium
    created in that order come out high, medium, low. *)
Example next_by_priority :
  let lo := sample_todo "a" Priority.low 1 Status.pending [] in
  let hi := sample_todo "b" Priority.high 2 Status.pending [] in
  let me := sample_todo "c" Priority.medium 3 Status.pending [] in
  let done_ (t : Todo.t) := sample_todo (Todo.id t) (Todo.priority t)
                             (Todo.createdAt t) Status.completed [] in
  getNextTodo (sample_ledger [sample_group "g" GroupStatus.pending [lo; hi; me]])
    = Some hi
  /\ getNextTodo (sample_ledger
                   [sample_group "g" GroupStatus.pending [lo; done_ hi; me]])
    = Some me
  /\ getNextTodo (sample_ledger
                   [sample_group "g" GroupStatus.pending [lo; done_ hi; done_ me]])
    = Some lo.
Proof. repeat split; vm_compute; reflexivity. Qed.

(** C10. A todo that lists a dependency id matching no todo of the
    ledger is never returned by [getNextTodo]. *)
Theorem unresolved_dependency_blocks (self : TodoManager.t) (t : Todo.t)
    (deps : list string) (depId : string) :
  Todo.dependencies t = Some deps ->
  depId ∈ deps ->
  findTodo self depId = None ->
  getNextTodo self <> Some t.
Proof.
  intros Hdeps Hin Hnone Hnext.
  apply getNextTodo_eligible in Hnext as (_ & _ & Hmet).
  destruct (Hmet depId) as (gi & ti & g & dep & Hfound & _).
  - by rewrite Hdeps.
  - by rewrite Hnone in Hfound.
Qed.

(** ** Terminal statuses *)

Lemma insert_sorted_fmap {A B} (f : A -> B) (cmp : B -> B -> Z) x l :
  f <$> insert_sorted (fun a b => cmp (f a) (f b)) x l
  = insert_sorted cmp (f x) (f <$> l).
Proof.
  induction l as [|y l IH]; [done|].
  rewrite fmap_cons. cbn [insert_sorted].
  destruct (cmp (f x) (f y) <=? 0)%Z; rewrite !fmap_cons; [done|].
  by rewrite IH.
Qed.

Lemma js_sort_fmap {A B} (f : A -> B) (cmp : B -> B -> Z) l :
  f <$> js_sort (fun a b => cmp (f a) (f b)) l = js_sort cmp (f <$> l).
Proof.
  induction l as [|x l IH]; [done|].
  rewrite fmap_cons. cbn [js_sort foldr].
  rewrite insert_sorted_fmap. f_equal. apply IH.
Qed.

Lemma snd_imap_pair {A} (f : nat -> nat) (l : list A) :
  snd <$> imap (fun i x => (f i, x)) l = l.
Proof.
  revert f. induction l as [|x l IH]; intros f; [done|].
  cbn [imap]. rewrite fmap_cons. f_equal. apply (IH (f ∘ S)).
Qed.

Lemma filter_through {A B} (f : A -> B) (P : B -> Prop)
    `{!forall y, Decision (P y)} (l : list A) :
  filter P (f <$> l) = f <$> filter (fun x => P (f x)) l.
Proof.
  induction l as [|x l IH]; [done|].
  rewrite fmap_cons, !filter_cons.
  destruct (decide (P (f x))); by rewrite ?fmap_cons, IH.
Qed.

(** [nextTodoAt] selects the todo [getNextTodo] selects. *)
Lemma getNextTodo_at self : getNextTodo self = snd <$> nextTodoAt self.
Proof.
  unfold getNextTodo, nextTodoAt.
  rewrite <- (snd_imap_pair id (getAllTodos self)) at 1.
  rewrite !filter_through, <- js_sort_fmap.
  by destruct (js_sort _ _).
Qed.

Lemma nextTodoAt_lookup self place t :
  nextTodoAt self = Some (place, t) ->
  getAllTodos self !! place = Some t /\ Todo.status t = Status.pending.
Proof.
  unfold nextTodoAt. intros Hhd%head_Some_elem_of.
  apply js_sort_elem in Hhd.
  apply list_elem_of_filter in Hhd as [_ Hhd].
  apply list_elem_of_filter in Hhd as [Hs Hhd].
  by apply elem_of_lookup_imap in Hhd as (i & y & [= -> ->] & Hi).
Qed.

(** The place in [getAllTodos] of the todo at [ti] in group [gi]. *)
Definition place_of (self : TodoManager.t) (gi ti : nat) : nat :=
  length (take gi (groups self) ≫= TodoGroup.todos) + ti.

Lemma bind_lookup gs p u :
  (gs ≫= TodoGroup.todos) !! p = Some u ->
  exists gi ti g,
    gs !! gi = Some g /\ TodoGroup.todos g !! ti = Some u
    /\ p = (length (take gi gs ≫= TodoGroup.todos) + ti)%nat.
Proof.
  revert p. induction gs as [|g0 gs IH]; intros p; [done|].
  rewrite bind_cons. intros [Hp|[Hle Hp]]%lookup_app_Some.
  - exists 0%nat, p, g0. by rewrite take_0.
  - destruct (IH _ Hp) as (gi & ti & g & Hg & Ht & Hplace).
    exists (S gi), ti, g. split; [done|]. split; [done|].
    rewrite firstn_cons, bind_cons, length_app. lia.
Qed.

Lemma place_lookup self p u :
  getAllTodos self !! p = Some u ->
  exists gi ti, todo_at self gi ti u /\ p = place_of self gi ti.
Proof.
  intros (gi & ti & g & Hg & Ht & ->)%bind_lookup.
  exists gi, ti. split; [by exists g|done].
Qed.

Lemma place_of_before self gi ti g t :
  TodoGroup.todos g !! ti = Some t ->
  length (before self gi ti g) = place_of self gi ti.
Proof.
  intros Ht%lookup_lt_Some. unfold before, place_of.
  rewrite length_app, length_take. lia.
Qed.

Lemma lookup_middle_ne {A} (l1 l2 : list A) x y i :
  i <> length l1 -> (l1 ++ x :: l2) !! i = (l1 ++ y :: l2) !! i.
Proof.
  intros Hne. destruct (decide (i < length l1)%nat).
  - by rewrite !lookup_app_l.
  - rewrite !lookup_app_r by lia.
    destruct (i - length l1)%nat eqn:Hd; [lia|done].
Qed.

Lemma continue_state save now groupNow self :
  (continueFromLastCheckpoint save now groupNow self).2 =
    match getCurrentTodo self with
    | Some _ => self
    | None =>
        match getNextTodo self with
        | Some nextTodo =>
            (updateTodoStatus save now groupNow (Todo.id nextTodo)
               Status.in_progress None self).2
        | None => self
        end
    end.
Proof.
  unfold continueFromLastCheckpoint, mbind, M_bind, bind, get. simpl.
  destruct (getCurrentTodo self); [done|]. rewrite getNextTodo_at.
  destruct (nextTodoAt self) as [[place nextTodo]|]; [|done]. simpl.
  by destruct (updateTodoStatus _ _ _ _ _ _ self) as [[[]|e] self'].
Qed.

(** What [continueFromLastCheckpoint] hands back when it starts a
    todo: [updateTodoStatus] has written to the first todo of the id,
    and the object handed back is the selected one, which is the
    written one exactly when it stands at that place. *)
Lemma continue_starts save now groupNow self place nextTodo gi ti g t resumed :
  getCurrentTodo self = None ->
  nextTodoAt self = Some (place, nextTodo) ->
  findTodo self (Todo.id nextTodo) = Some (gi, ti, g, t) ->
  (continueFromLastCheckpoint save now groupNow self).1 = Ret (Some resumed) ->
  resumed ∈ getAllTodos (continueFromLastCheckpoint save now groupNow self).2
  /\ ((place = place_of self gi ti
       /\ resumed = set_status now Status.in_progress None nextTodo)
      \/ (place <> place_of self gi ti /\ resumed = nextTodo)).
Proof.
  intros Hcur Hnext Hf.
  rewrite continue_state, Hcur, getNextTodo_at, Hnext. simpl.
  pose proof (updateTodoStatus_state save now groupNow _ Status.in_progress
                None self _ _ _ _ Hf) as Hstate.
  unfold continueFromLastCheckpoint, mbind, M_bind, bind, get, ret. simpl.
  rewrite Hcur, Hnext.
  destruct (updateTodoStatus _ _ _ _ _ _ self) as [[[]|e] self'];
    simpl in *; [|done].
  subst self'. intros [= <-].
  apply nextTodoAt_lookup in Hnext as [Hplace _].
  apply findTodo_Some in Hf as (Hg & Ht & Hid).
  rewrite (getAllTodos_altered self gi ti g t
             (set_status now Status.in_progress None) _ Hg Ht)
    by (by rewrite updateGroupStatus_todos).
  rewrite (getAllTodos_split self gi ti g t Hg Ht) in Hplace.
  rewrite <- (place_of_before self gi ti g t Ht).
  destruct (decide (place = length (before self gi ti g))) as [->|Hne].
  - rewrite list_lookup_middle in Hplace by done. injection Hplace as ->.
    rewrite list_lookup_middle by done. simpl. split; [|by left].
    apply elem_of_app. right. by left.
  - rewrite (lookup_middle_ne _ _ _ t), Hplace by done. simpl.
    split; [|by right].
    apply (list_elem_of_lookup_2 _ place).
    by rewrite (lookup_middle_ne _ _ _ t).
Qed.

Lemma continue_returns save now groupNow self resumed :
  (continueFromLastCheckpoint save now groupNow self).1 = Ret (Some resumed) ->
  resumed ∈ getAllTodos (continueFromLastCheckpoint save now groupNow self).2
  /\ (Todo.status resumed = Status.in_progress
      \/ Todo.status resumed = Status.pending).
Proof.
  intros Hret.
  destruct (getCurrentTodo self) as [currentTodo|] eqn:Hcur.
  - rewrite continue_state, Hcur.
    unfold continueFromLastCheckpoint, mbind, M_bind, bind, get, ret in Hret.
    simpl in Hret. rewrite Hcur in Hret. injection Hret as <-.
    unfold getCurrentTodo in Hcur.
    apply head_Some_elem_of, list_elem_of_filter in Hcur as [Hs Hin].
    split; [done|by left].
  - destruct (nextTodoAt self) as [[place nextTodo]|] eqn:Hnext.
    + pose proof (nextTodoAt_lookup _ _ _ Hnext) as [Hplace Hpending].
      destruct (findTodo_present self nextTodo) as [[[[gi ti] g] t] Hf].
      { by eapply list_elem_of_lookup_2. }
      destruct (continue_starts _ _ _ _ _ _ _ _ _ _ _ Hcur Hnext Hf Hret)
        as [Hin [[_ ->]|[_ ->]]]; (split; [done|]); [by left|by right].
    + unfold continueFromLastCheckpoint, mbind, M_bind, bind, get, ret in Hret.
      simpl in Hret. by rewrite Hcur, Hnext in Hret.
Qed.

(** With distinct ids the todo that is started is the one handed
    back. *)
Lemma continue_returns_started save now groupNow self resumed :
  distinct_ids self ->
  (continueFromLastCheckpoint save now groupNow self).1 = Ret (Some resumed) ->
  Todo.status resumed = Status.in_progress.
Proof.
  intros Hdistinct Hret.
  destruct (getCurrentTodo self) as [currentTodo|] eqn:Hcur.
  - unfold continueFromLastCheckpoint, mbind, M_bind, bind, get, ret in Hret.
    simpl in Hret. rewrite Hcur in Hret. injection Hret as <-.
    unfold getCurrentTodo in Hcur.
    by apply head_Some_elem_of, list_elem_of_filter in Hcur as [Hs Hin].
  - destruct (nextTodoAt self) as [[place nextTodo]|] eqn:Hnext.
    + pose proof (nextTodoAt_lookup _ _ _ Hnext) as [Hplace Hpending].
      destruct (findTodo_present self nextTodo) as [[[[gi ti] g] t] Hf].
      { by eapply list_elem_of_lookup_2. }
      destruct (continue_starts _ _ _ _ _ _ _ _ _ _ _ Hcur Hnext Hf Hret)
        as [_ [[_ ->]|[Hne _]]]; [done|]. destruct Hne.
      apply place_lookup in Hplace as (gj & tj & Hat & ->).
      apply findTodo_Some in Hf as (Hg & Ht & Hid).
      assert (todo_at self gi ti t) as Hat' by by exists g.
      by destruct (Hdistinct gj tj nextTodo gi ti t Hat Hat' (eq_sym Hid))
        as [-> ->].
    + unfold continueFromLastCheckpoint, mbind, M_bind, bind, get, ret in Hret.
      simpl in Hret. by rewrite Hcur, Hnext in Hret.
Qed.

(** With distinct ids [continueFromLastCheckpoint] leaves every todo
    that is not pending where and as it is. *)
Lemma continue_keeps save now groupNow self gi ti t :
  distinct_ids self ->
  todo_at self gi ti t -> Todo.status t <> Status.pending ->
  todo_at (continueFromLastCheckpoint save now groupNow self).2 gi ti t.
Proof.
  intros Hdistinct Hat Hstatus. rewrite continue_state.
  destruct (getCurrentTodo self); [done|].
  destruct (getNextTodo self) as [nextTodo|] eqn:Hnext; [|done].
  apply getNextTodo_eligible in Hnext as (Hin & Hpending & _).
  destruct (findTodo_present self nextTodo Hin) as [[[[gj tj] g1] t1] Hf].
  destruct Hat as (g & Hg & Ht).
  eapply updateTodoStatus_elsewhere; [exact Hf|exact Hg|exact Ht|].
  intros [= -> ->].
  pose proof (findTodo_Some _ _ _ _ _ _ Hf) as (Hg1 & Ht1 & Hid).
  apply getAllTodos_lookup in Hin as (gk & g2 & tk & Hg2 & Ht2).
  assert (todo_at self gk tk nextTodo) as Hat2 by by exists g2.
  assert (todo_at self gj tj t1) as Hat1 by by exists g1.
  destruct (Hdistinct gk tk nextTodo gj tj t1 Hat2 Hat1 (eq_sym Hid))
    as [-> ->].
  rewrite Hg in Hg2. injection Hg2 as <-.
  rewrite Ht in Ht2. injection Ht2 as <-. done.
Qed.

Definition finished : Todo.t :=
  sample_todo "ship" Priority.high 1 Status.completed [].

Definition waiting : Todo.t :=
  sample_todo "docs" Priority.low 2 Status.pending [].

Definition finished_ledger : TodoManager.t :=
  sample_ledger [sample_group "g" GroupStatus.in_progress [finished; waiting]].

Lemma finished_ledger_distinct : distinct_ids finished_ledger.
Proof.
  intros gi ti t gj tj u (g & Hg & Ht) (g' & Hg' & Hu) Hid.
  destruct gi as [|gi]; [|done]. destruct gj as [|gj]; [|done].
  injection Hg as <-. injection Hg' as <-.
  destruct ti as [|[|ti]]; destruct tj as [|[|tj]]; simplify_eq/=; done.
Qed.

(** C6, as stated, fails: [updateTodoStatus] moves the completed todo
    "ship" back to pending. *)
Lemma completed_todo_reopened :
  let after := updateTodoStatus saved 9 10 "ship" Status.pending None finished_ledger in
  Todo.status <$> getAllTodos finished_ledger
    = [Status.completed; Status.pending]
  /\ after.1 = Ret tt
  /\ Todo.status <$> getAllTodos after.2 = [Status.pending; Status.pending].
Proof. repeat split; vm_compute; reflexivity. Qed.

(** Two todos of one id: the pending one is selected and handed back
    as it is, and the status is written to the first todo of the id,
    a completed one. *)
Definition twin_ledger : TodoManager.t :=
  sample_ledger
    [sample_group "g" GroupStatus.in_progress
       [sample_todo "a" Priority.high 1 Status.completed [];
        sample_todo "a" Priority.low 2 Status.pending []]].

Example twin_is_restarted :
  let run := continueFromLastCheckpoint saved 9 10 twin_ledger in
  run.1 = Ret (Some (sample_todo "a" Priority.low 2 Status.pending []))
  /\ Todo.status <$> getAllTodos run.2 = [Status.in_progress; Status.pending].
Proof. split; vm_compute; reflexivity. Qed.

(** C6, amended.  [updateTodoStatus] has no transition guard: for an
    id that some todo of the ledger has, it replaces the first todo of
    that id, whatever its status and so also when it is completed,
    skipped or blocked, by the same todo with the requested status.
    The todo [continueFromLastCheckpoint] hands back is a todo of the
    ledger as the call leaves it and is in progress or pending, never
    completed, skipped or blocked.  In a ledger whose todo ids are
    distinct, [continueFromLastCheckpoint] leaves every completed,
    skipped or blocked todo at its place and unchanged, and the todo
    it hands back is in progress. *)
Theorem terminal_only_by_convention save (self : TodoManager.t) :
  (forall now groupNow todoId status a t0,
      in_ledger self t0 -> Todo.id t0 = todoId ->
      exists gi ti t,
        first_of_id self gi ti t /\ Todo.id t = todoId
        /\ todo_at (updateTodoStatus save now groupNow todoId status a self).2
             gi ti (set_status now status a t)
        /\ Todo.status (set_status now status a t) = status)
  /\ (forall now groupNow resumed,
        (continueFromLastCheckpoint save now groupNow self).1
          = Ret (Some resumed) ->
        in_ledger (continueFromLastCheckpoint save now groupNow self).2 resumed
        /\ (Todo.status resumed = Status.in_progress
            \/ Todo.status resumed = Status.pending)
        /\ ~ Status.terminal (Todo.status resumed))
  /\ (distinct_ids self ->
      forall now groupNow,
        (forall gi ti t,
            todo_at self gi ti t -> Status.terminal (Todo.status t) ->
            todo_at (continueFromLastCheckpoint save now groupNow self).2
              gi ti t)
        /\ (forall resumed,
              (continueFromLastCheckpoint save now groupNow self).1
                = Ret (Some resumed) ->
              Todo.status resumed = Status.in_progress)).
Proof.
  split; [|split].
  - intros now groupNow todoId status a t0 Hin%in_ledger_iff <-.
    destruct (findTodo_present self t0 Hin) as [[[[gi ti] g] t] Hf].
    destruct (findTodo_resolves _ _ _ _ _ _ Hf) as [Hfirst Hid].
    destruct (updateTodoStatus_at save now groupNow _ status a self _ _ _ _ Hf)
      as (g' & Hg' & _ & Ht').
    exists gi, ti, t. split; [done|]. split; [done|]. split; [by exists g'|done].
  - intros now groupNow resumed Hret.
    destruct (continue_returns _ _ _ _ _ Hret) as [Hin Hstatus].
    split; [by apply in_ledger_iff|]. split; [done|].
    intros Hterm. destruct Hstatus as [Hs|Hs]; rewrite Hs in Hterm;
      by destruct Hterm as [?|[?|?]].
  - intros Hdistinct now groupNow. split.
    + intros gi ti t Hat Hterm. apply continue_keeps; [done|done|].
      intros Hs. rewrite Hs in Hterm. by destruct Hterm as [?|[?|?]].
    + intros resumed. by apply continue_returns_started.
Qed.

Lemma terminal_only_by_convention_witness :
  todo_at (continueFromLastCheckpoint saved 9 10 finished_ledger).2 0 0 finished
  /\ exists gi ti t,
       first_of_id finished_ledger gi ti t /\ Todo.id t = "ship"
       /\ todo_at (updateTodoStatus saved 9 10 "ship" Status.pending None
                     finished_ledger).2
            gi ti (set_status 9 Status.pending None t)
       /\ Todo.status (set_status 9 Status.pending None t) = Status.pending.
Proof.
  split.
  - apply (proj2 (proj2 (terminal_only_by_convention saved finished_ledger))
             finished_ledger_distinct 9%Z 10%Z).
    + eexists. split; reflexivity.
    + left. reflexivity.
  - apply (proj1 (terminal_only_by_convention saved finished_ledger)
             9%Z 10%Z "ship" Status.pending None finished).
    + exists (sample_group "g" GroupStatus.in_progress [finished; waiting]).
      split; apply list_elem_of_here.
    + reflexivity.
Defined.

(** ** Group status *)

Lemma count_all {A} (P : A -> Prop) `{!forall x, Decision (P x)} (l : list A) :
  length (filter P l) = length l <-> forall x, x ∈ l -> P x.
Proof.
  induction l as [|y l IH].
  - split; [|done]. intros _ x Hx. by apply elem_of_nil in Hx.
  - rewrite filter_cons. pose proof (length_filter P l) as Hle.
    destruct (decide (P y)) as [Hy|Hy]; simpl.
    + split.
      * intros Hlen x [->|Hx]%elem_of_cons; [done|]. apply IH; [lia|done].
      * intros Hl. f_equal. apply IH. intros x Hx. apply Hl. by right.
    + split; [lia|]. intros Hl. destruct Hy. apply Hl. by left.
Qed.

Lemma count_some {A} (P : A -> Prop) `{!forall x, Decision (P x)} (l : list A) :
  (0 < length (filter P l))%nat <-> exists x, x ∈ l /\ P x.
Proof.
  split.
  - destruct (filter P l) as [|x k] eqn:Hf; simpl; [lia|]. intros _.
    assert (x ∈ filter P l) as Hx by (rewrite Hf; by left).
    apply list_elem_of_filter in Hx as [? ?]. eauto.
  - intros (x & Hx & HP).
    assert (x ∈ filter P l) as Hin by by apply list_elem_of_filter.
    destruct (filter P l); [by apply elem_of_nil in Hin|simpl; lia].
Qed.

Definition all_completed (ts : list Todo.t) : Prop :=
  forall t, t ∈ ts -> Todo.status t = Status.completed.

Definition some_started (ts : list Todo.t) : Prop :=
  exists t, t ∈ ts
    /\ (Todo.status t = Status.in_progress \/ Todo.status t = Status.completed).

(** The rule the code follows: a group without members is pending;
    otherwise it is completed exactly when all members are, in
    progress exactly when some member is in progress or completed but
    not all are completed, and pending in every other case. *)
Definition status_rule (g : TodoGroup.t) : Prop :=
  let ts := TodoGroup.todos g in
  let s := TodoGroup.status g in
  (ts = [] -> s = GroupStatus.pending)
  /\ (ts <> [] ->
      (s = GroupStatus.completed <-> all_completed ts)
      /\ (s = GroupStatus.in_progress <-> some_started ts /\ ~ all_completed ts)
      /\ (s = GroupStatus.pending <-> ~ some_started ts)).

Lemma updateGroupStatus_rule now g : status_rule (updateGroupStatus now g).
Proof.
  unfold status_rule. rewrite updateGroupStatus_todos.
  unfold updateGroupStatus.
  destruct (TodoGroup.todos g) as [|t0 ts] eqn:Hts; [by split|].
  split; [done|]. intros _. rewrite <- Hts.
  set (l := TodoGroup.todos g) in *.
  assert ((length l =? 0)%nat = false) as ->.
  { apply Nat.eqb_neq. rewrite Hts. simpl. lia. }
  pose proof (count_all (fun t => Todo.status t = Status.completed) l
              : _ <-> all_completed l) as Hall.
  pose proof (count_some (fun t => Todo.status t = Status.completed) l) as Hc.
  pose proof (count_some (fun t => Todo.status t = Status.in_progress) l) as Hp.
  assert (some_started l <->
          (0 < length (filter (fun t => Todo.status t = Status.in_progress) l)
           \/ 0 < length (filter (fun t => Todo.status t = Status.completed) l))%nat)
    as Hstarted.
  { rewrite Hc, Hp. unfold some_started. split.
    - intros (t & ? & [?|?]); eauto.
    - intros [(t & ? & ?)|(t & ? & ?)]; eauto. }
  destruct (Nat.eqb_spec
              (length (filter (fun t => Todo.status t = Status.completed) l))
              (length l)) as [Heq|Hne]; simpl.
  - assert (all_completed l) as Ha by by apply Hall.
    assert (some_started l) as Hs.
    { apply Hstarted. right. rewrite Heq, Hts. simpl. lia. }
    repeat split; try done; tauto.
  - assert (~ all_completed l) as Ha by (rewrite <- Hall; done).
    destruct (Nat.ltb_spec 0
                (length (filter (fun t => Todo.status t = Status.in_progress) l)));
      simpl.
    + assert (some_started l) by (apply Hstarted; tauto).
      repeat split; try done; tauto.
    + destruct (Nat.ltb_spec 0
                (length (filter (fun t => Todo.status t = Status.completed) l)));
        simpl.
      * assert (some_started l) by (apply Hstarted; tauto).
        repeat split; try done; tauto.
      * assert (~ some_started l) by (rewrite Hstarted; lia).
        repeat split; try done; tauto.
Qed.

Definition fresh_ledger : TodoManager.t :=
  TodoManager.Build "/home/u/app" "session" None [].

(** C7, as stated, fails for a group without members: the group that
    [createTodoGroup] adds has all of its (zero) members completed and
    yet is pending, and [updateGroupStatus] keeps it pending. *)
Lemma new_group_is_pending :
  let after :=
    createTodoGroup saved 7 8 "g1" "Building: login" None None fresh_ledger in
  exists g,
    groups after.2 = [g]
    /\ all_completed (TodoGroup.todos g)
    /\ TodoGroup.status g = GroupStatus.pending
    /\ TodoGroup.status (updateGroupStatus 9 g) = GroupStatus.pending
    /\ ~ (TodoGroup.status g = GroupStatus.completed
          <-> all_completed (TodoGroup.todos g)).
Proof.
  eexists. split; [reflexivity|]. simpl.
  assert (all_completed []) as Hall by (intros t Ht; by apply elem_of_nil in Ht).
  repeat split; try done.
  intros [_ Hback]. by specialize (Hback Hall).
Qed.

(** C7, amended. After [updateTodoStatus] the group that holds the
    updated todo has the status the rule gives: completed exactly when
    all its members are completed, in progress exactly when some
    member is in progress or completed but not all are completed,
    pending otherwise, so also when all members are skipped or
    blocked.  A group without members is pending: [updateGroupStatus]
    says so, and [createTodoGroup] adds the new, empty group as
    pending. *)
Theorem group_status_follows_rule save now groupNow (self : TodoManager.t)
    (todoId : string) (status : Status.t) (a : option Z)
    (gi ti : nat) (g : TodoGroup.t) (t : Todo.t) :
  findTodo self todoId = Some (gi, ti, g, t) ->
  (exists g',
     groups (updateTodoStatus save now groupNow todoId status a self).2 !! gi = Some g'
     /\ TodoGroup.todos g' !! ti = Some (set_status now status a t)
     /\ status_rule g')
  /\ (forall when g0, TodoGroup.todos g0 = [] ->
        TodoGroup.status (updateGroupStatus when g0) = GroupStatus.pending)
  /\ (forall created updated newId title description tokens,
        exists g0,
          groups (createTodoGroup save created updated newId title description
                    tokens self).2
            = groups self ++ [g0]
          /\ TodoGroup.todos g0 = []
          /\ TodoGroup.status g0 = GroupStatus.pending).
Proof.
  intros Hf. split; [|split].
  - destruct (updateTodoStatus_at save now groupNow todoId status a self
                _ _ _ _ Hf) as (g' & Hg' & -> & Ht').
    eexists. split; [exact Hg'|]. split; [exact Ht'|].
    apply updateGroupStatus_rule.
  - intros when g0 Hempty. unfold updateGroupStatus. by rewrite Hempty.
  - intros created updated newId title description tokens.
    exists (TodoGroup.Build newId title description [] GroupStatus.pending
              created updated tokens None).
    unfold createTodoGroup, TodoManager.save, mbind, M_bind, bind, modify_, ret.
    simpl. split; [|done]. by destruct (save _) as [[]|e].
Qed.

Lemma group_status_follows_rule_witness :
  exists g',
    groups (updateTodoStatus saved 9 10 "docs" Status.skipped None
              finished_ledger).2 !! 0%nat = Some g'
    /\ TodoGroup.todos g' !! 1%nat
       = Some (set_status 9 Status.skipped None waiting)
    /\ status_rule g'.
Proof.
  apply (group_status_follows_rule saved 9 10 finished_ledger "docs"
           Status.skipped None 0 1
           (sample_group "g" GroupStatus.in_progress [finished; waiting])
           waiting).
  vm_compute. reflexivity.
Defined.

Definition orphan : Todo.t :=
  sample_todo "deploy" Priority.high 1 Status.pending ["missing"].

Definition orphan_ledger : TodoManager.t :=
  sample_ledger [sample_group "g" GroupStatus.pending
                   [orphan; sample_todo "docs" Priority.low 2 Status.pending []]].

Lemma unresolved_dependency_blocks_witness :
  getNextTodo orphan_ledger <> Some orphan.
Proof.
  apply (unresolved_dependency_blocks orphan_ledger orphan ["missing"] "missing").
  - reflexivity.
  - apply list_elem_of_singleton. reflexivity.
  - vm_compute. reflexivity.
Defined.

End LedgerProps.

(** * A simulated world

    A small filesystem and repository to run the generator on: files
    with their contents, paths that cannot be written, and a git that
    works or fails as a whole. *)

Module Sim.

Record world : Type := World {
  disk : gmap string string;
  readonly : list string;
  isGitRepo : bool;
  gitBroken : bool;
  commits : list string
}.

Definition exists_ (p : string) (w : world) : bool :=
  bool_decide (is_Some (disk w !! p)).

Definition read (p : string) (w : world) : outcome string :=
  match disk w !! p with
  | Some text => Ret text
  | None => Threw ("Error: ENOENT: no such file or directory, open '" +:+ p +:+ "'")
  end.

Definition write (p text : string) (w : world) : outcome unit * world :=
  if bool_decide (p ∈ readonly w)
  then (Threw ("Error: EACCES: permission denied, open '" +:+ p +:+ "'"), w)
  else (Ret tt,
        World (<[p := text]> (disk w)) (readonly w) (isGitRepo w)
              (gitBroken w) (commits w)).

Definition remove (p : string) (w : world) : outcome unit * world :=
  (Ret tt,
   World (base.delete p (disk w)) (readonly w) (isGitRepo w) (gitBroken w)
         (commits w)).

Definition git {A} (a : A) (w : world) : outcome A * world :=
  if gitBroken w then (Threw "Error: spawn git ENOENT", w) else (Ret a, w).

Global Instance externals : Externals world := {|
  fs_existsSync := exists_;
  fs_readFileSync := read;
  fs_ensureDir := fun _ w => (Ret tt, w);
  fs_writeFile := write;
  fs_pathExists := exists_;
  fs_remove := remove;
  git_getStatus := fun w => (Ret (isGitRepo w), w);
  git_createBranch := fun featureName w => git ("hypercode-" +:+ featureName) w;
  git_generateCommitMessage := fun _ feature _ => "Add " +:+ feature;
  git_commit := fun message _ w =>
    if gitBroken w then (Threw "Error: Failed to commit", w)
    else (Ret tt,
          World (disk w) (readonly w) (isGitRepo w) (gitBroken w)
                (commits w ++ [message]))
|}.

Definition empty_disk : world := World ∅ [] false false [].

(** The project of the examples, rooted at [/home/u/app]. *)
Definition root : string := "/home/u/app".

Definition generator : FileGenerator.t :=
  FileGenerator.Build root (DirectorySafety.Build root root)
    GitManager.getDefaultConfig.

Definition unlines (l : list string) : string := Js.join (String Js.nl "") l.

End Sim.

(** * Properties of the parser and of the plan builder *)

Module ParserProps.
Import Regex FileGenerator.

(** ** The safety boundary *)

(** A fenced region that names a file in a sibling directory whose
    name merely starts like the project root. *)
Definition leaking_text : string :=
  Sim.unlines ["```"; "// ../app-secrets/key.ts"; "token"; "```"].

(** C1 fails on the code. [/home/u/app-secrets/key.ts] is outside the
    project root [/home/u/app], yet [isPathSafe] accepts it, because
    it compares the two paths as strings, and the operation enters
    the plan. *)
Lemma sibling_directory_enters_plan :
  let target := NodePath.resolve Sim.root [Sim.root; "../app-secrets/key.ts"] in
  let safety := directorySafety Sim.generator in
  target = "/home/u/app-secrets/key.ts"
  /\ ~ DirectorySafety.within Sim.root target
  /\ DirectorySafety.isPathSafe Sim.root safety target = true
  /\ DirectorySafety.validatePath Sim.root safety target = Ret tt
  /\ path <$> files (createGenerationPlan Sim.root Sim.generator Sim.empty_disk
                       "login" leaking_text 0)
     = ["../app-secrets/key.ts"].
Proof.
  repeat split; try (vm_compute; reflexivity).
  apply (bool_decide_eq_false_1
           (DirectorySafety.within Sim.root "/home/u/app-secrets/key.ts")).
  vm_compute. reflexivity.
Qed.

(** ** The branch name *)

(** C9 fails on the code. The whitespace of the feature text is
    removed, not turned into hyphens: the patterns of
    [sanitizeFeatureName] are written with a doubled backslash. *)
Lemma whitespace_is_not_hyphenated :
  sanitizeFeatureName "Add User Login" = "adduserlogin"
  /\ branchName (createGenerationPlan Sim.root Sim.generator Sim.empty_disk
                   "Add User Login" "" 0)
     = Some "hypercode-adduserlogin"
  /\ sanitizeFeatureName "add\sssuser" = "add-user".
Proof. repeat split; vm_compute; reflexivity. Qed.

(** ** Order and duplicates *)

Section Parse.
Context {W : Type} `{!Externals W}.
Variable cwd : string.
Variable self : FileGenerator.t.
Variable w : W.

(** The path a match of [fileRegex] puts forward, if any. *)
Definition fenced_candidate (x : rmatch) : option string :=
  match Js.str <$> group 1 (m_caps x) with
  | Some pc =>
      if Js.truthy pc then
        match extractFilePath pc with
        | Some filePath => if Js.truthy filePath then Some filePath else None
        | None => None
        end
      else None
  | None => None
  end.







Lemma push_candidate_shape filePath text lines readBackup acc :
  push_candidate cwd self w filePath text lines readBackup acc = acc
  \/ exists op, path op = filePath
       /\ push_candidate cwd self w filePath text lines readBackup acc
          = acc ++ [op].
Proof.
  unfold push_candidate.
  destruct (DirectorySafety.validatePath _ _ _); [|by left].
  destruct (fs_existsSync _ w && readBackup).
  - destruct (fs_readFileSync _ w); [|by left].
    right. eexists. split; [|reflexivity]. reflexivity.
  - right. eexists. split; [|reflexivity]. reflexivity.
Qed.

Lemma fenced_step_shape acc x :
  fenced_step cwd self w acc x = acc
  \/ exists op, fenced_candidate x = Some (path op)
       /\ fenced_step cwd self w acc x = acc ++ [op].
Proof.
  unfold fenced_step, fenced_candidate.
  destruct (Js.str <$> group 1 (m_caps x)) as [pc|]; [|by left].
  destruct (Js.truthy pc); [|by left].
  destruct (extractFilePath pc) as [filePath|]; [|by left].
  destruct (Js.truthy filePath); [|by left].
  destruct (push_candidate_shape filePath
              (Js.trim (default "" (Js.str <$> group 2 (m_caps x))))
              (length (Js.split Js.nl (default "" (Js.str <$> group 2 (m_caps x)))))
              true acc) as [->|(op & <- & ->)]; [by left|].
  right. by exists op.
Qed.

Lemma fenced_fold ms acc :
  exists added,
    foldl (fenced_step cwd self w) acc ms = acc ++ added
    /\ (path <$> added) `sublist_of` omap fenced_candidate ms.
Proof.
  revert acc. induction ms as [|x ms IH]; intros acc; simpl.
  - exists []. by rewrite app_nil_r.
  - destruct (fenced_step_shape acc x) as [->|(op & Hc & ->)].
    + destruct (IH acc) as (added & -> & Hsub). exists added.
      split; [done|]. destruct (fenced_candidate x); [by constructor|done].
    + destruct (IH (acc ++ [op])) as (added & -> & Hsub).
      exists (op :: added). rewrite <- app_assoc. split; [done|].
      rewrite Hc. simpl. by constructor.
Qed.





End Parse.

(** Two fenced regions annotated with the same path. *)
Definition twice_text : string :=
  Sim.unlines ["```"; "// src/a.ts"; "export const a = 1;"; "```";
               "```"; "// src/a.ts"; "export const a = 2;"; "```"].



End ParserProps.

(** * Properties of plan execution *)

Module ExecProps.
Import FileGenerator Exec.

Arguments NodePath.resolve : simpl never.
Arguments sanitizeFeatureName : simpl never.

Section Loop.
Context {W : Type} `{!Externals W}.
Variable cwd : string.
Variable self : FileGenerator.t.

(** ** The loop body, case by case *)

Definition on_result (f : GenerationResult -> GenerationResult)
    (s : state W) : state W :=
  State (f (result s)) (autoMode s) (asked s) (world s).

(** The state once the callback has been invoked for [op] and has
    left the world as [w']. *)
Definition prompted (op : FileOperation) (w' : W) (automatic : bool)
    (s : state W) : state W :=
  State (result s) automatic (asked s ++ [op]) w'.

Definition failed (op : FileOperation) (e : string) (s : state W) : state W :=
  on_result (fun r => set_success false (push_error (failed_to_process op e) r)) s.

Definition recorded (op : FileOperation) (s : state W) : state W :=
  match type op with
  | create => on_result (push_created (path op)) s
  | modify => on_result (push_modified (path op)) s
  | delete => s
  end.

Lemma decide_approval_eq cb op s :
  decide_approval cb op s =
    if autoMode s then (Ret approve, s)
    else
      match cb op (world s) with
      | (Ret auto, w') => (Ret approve, prompted op w' true s)
      | (Ret d, w') => (Ret d, prompted op w' false s)
      | (Threw e, w') => (Threw e, prompted op w' false s)
      end.
Proof.
  unfold decide_approval, ask, set_autoMode, call, mbind, M_bind, bind,
    get, modify_, ret, prompted.
  destruct s as [r [] a w]; simpl; [done|].
  destruct (cb op w) as [[[]|e] w']; reflexivity.
Qed.

Lemma executeFileOperation_frame op s :
  exists w', (executeFileOperation cwd self op s).2
             = State (result s) (autoMode s) (asked s) w'.
Proof.
  unfold executeFileOperation, call, mbind, M_bind, bind, get, ret.
  destruct s as [r m a w]; simpl.
  destruct (fs_ensureDir _ w) as [[[]|e] w1]; simpl; [|by eexists].
  destruct (type op); simpl.
  - destruct (fs_writeFile _ _ w1) as [x w2]. by eexists.
  - destruct (fs_writeFile _ _ w1) as [x w2]. by eexists.
  - destruct (fs_pathExists _ w1); simpl; [|by eexists].
    destruct (fs_remove _ w1) as [x w2]. by eexists.
Qed.

Lemma attempt_eq cb op s :
  attempt cwd self cb op s =
    match decide_approval cb op s with
    | (Threw e, s1) => (Threw e, s1)
    | (Ret approve, s1) =>
        match executeFileOperation cwd self op s1 with
        | (Ret _, s2) => (Ret tt, recorded op s2)
        | (Threw e, s2) => (Threw e, s2)
        end
    | (Ret skip, s1) => (Ret tt, on_result (push_skipped (path op)) s1)
    | (Ret edit, s1) =>
        (Ret tt,
         on_result (push_error ("Edit mode not yet implemented for "
                                +:+ path op))
           (on_result (push_skipped (path op)) s1))
    | (Ret auto, s1) => (Ret tt, s1)
    end.
Proof.
  unfold attempt, mbind, M_bind, bind.
  destruct (decide_approval cb op s) as [[[]|e] s1]; try reflexivity.
  destruct (executeFileOperation cwd self op s1) as [[[]|e] s2]; [|done].
  unfold recorded, with_result, modify_, ret, on_result.
  by destruct (type op).
Qed.

Lemma process_operation_eq cb op s :
  process_operation cwd self cb op s =
    match attempt cwd self cb op s with
    | (Ret _, s1) => (Ret tt, s1)
    | (Threw e, s1) => (Ret tt, failed op e s1)
    end.
Proof.
  unfold process_operation, try_catch.
  by destruct (attempt cwd self cb op s) as [[[]|e] s1].
Qed.

Lemma process_operation_returns cb op s :
  (process_operation cwd self cb op s).1 = Ret tt.
Proof.
  rewrite process_operation_eq.
  by destruct (attempt cwd self cb op s) as [[[]|e] s1].
Qed.

(** The state the loop leaves. *)
Definition after (cb : callback) (ops : list FileOperation) (s : state W)
  : state W :=
  (process_all cwd self cb ops s).2.

Lemma after_cons cb op ops s :
  after cb (op :: ops) s = after cb ops (after cb [op] s).
Proof.
  unfold after. simpl. unfold mbind, M_bind, bind, ret.
  pose proof (process_operation_returns cb op s) as Hret.
  destruct (process_operation cwd self cb op s) as [[[]|e] s1]; [|done].
  simpl. reflexivity.
Qed.

Lemma after_one cb op s :
  after cb [op] s = (process_operation cwd self cb op s).2.
Proof.
  unfold after. simpl. unfold mbind, M_bind, bind, ret.
  by destruct (process_operation cwd self cb op s) as [[[]|e] s1].
Qed.

Lemma after_app cb pre post s :
  after cb (pre ++ post) s = after cb post (after cb pre s).
Proof.
  revert s. induction pre as [|op pre IH]; intros s; [done|].
  simpl. rewrite after_cons, IH. by rewrite <- after_cons.
Qed.

Lemma process_all_returns cb ops s :
  (process_all cwd self cb ops s).1 = Ret tt.
Proof.
  revert s. induction ops as [|op ops IH]; intros s; [done|].
  simpl. unfold mbind, M_bind, bind.
  pose proof (process_operation_returns cb op s) as Hret.
  destruct (process_operation cwd self cb op s) as [[[]|e] s1]; [|done].
  apply IH.
Qed.

(** ** Applying an operation touches the world only *)

Definition apply_op (op : FileOperation) (w : W) : outcome unit * W :=
  let fullPath := NodePath.resolve cwd [projectRoot self; path op] in
  match fs_ensureDir (NodePath.dirname fullPath) w with
  | (Threw e, w1) => (Threw e, w1)
  | (Ret _, w1) =>
      match type op with
      | create | modify => fs_writeFile fullPath (content op) w1
      | delete =>
          if fs_pathExists fullPath w1 then fs_remove fullPath w1
          else (Ret tt, w1)
      end
  end.

Arguments apply_op : simpl never.

Definition with_world (w' : W) (s : state W) : state W :=
  State (result s) (autoMode s) (asked s) w'.

Lemma executeFileOperation_eq op s :
  executeFileOperation cwd self op s =
    ((apply_op op (world s)).1, with_world (apply_op op (world s)).2 s).
Proof.
  unfold executeFileOperation, apply_op, call, mbind, M_bind, bind, get,
    ret, with_world.
  destruct s as [r m a w]; simpl.
  destruct (fs_ensureDir _ w) as [[[]|e] w1]; simpl; [|done].
  destruct (type op); simpl.
  - by destruct (fs_writeFile _ _ w1).
  - by destruct (fs_writeFile _ _ w1).
  - destruct (fs_pathExists _ w1); simpl; [|done].
    by destruct (fs_remove _ w1).
Qed.

(** The loop body once the decision is to apply [op]. *)
Definition applied (op : FileOperation) (s : state W) : state W :=
  match apply_op op (world s) with
  | (Ret _, w') => recorded op (with_world w' s)
  | (Threw e, w') => failed op e (with_world w' s)
  end.

Lemma process_operation_auto cb op s :
  autoMode s = true ->
  (process_operation cwd self cb op s).2 = applied op s.
Proof.
  intros Hauto.
  rewrite process_operation_eq, attempt_eq, decide_approval_eq, Hauto.
  rewrite executeFileOperation_eq. unfold applied.
  by destruct (apply_op op (world s)) as [[[]|e] w'].
Qed.

Lemma process_operation_approved cb op s d w' :
  autoMode s = false ->
  cb op (world s) = (Ret d, w') ->
  d = approve \/ d = auto ->
  (process_operation cwd self cb op s).2
    = applied op (prompted op w' (bool_decide (d = auto)) s).
Proof.
  intros Hauto Hcb Hd.
  rewrite process_operation_eq, attempt_eq, decide_approval_eq, Hauto, Hcb.
  unfold applied.
  destruct Hd as [-> | ->]; simpl; rewrite executeFileOperation_eq; simpl;
    by destruct (apply_op op w') as [[[]|e] w''].
Qed.

Lemma applied_frame op s :
  autoMode (applied op s) = autoMode s /\ asked (applied op s) = asked s
  /\ world (applied op s) = (apply_op op (world s)).2.
Proof.
  unfold applied, recorded, failed, on_result, with_world.
  destruct (apply_op op (world s)) as [[[]|e] w']; simpl; [|done].
  by destruct (type op).
Qed.

Lemma applied_result op s s' :
  result s = result s' -> world s = world s' ->
  result (applied op s) = result (applied op s').
Proof.
  unfold applied, recorded, failed, on_result, with_world.
  intros -> ->.
  destruct (apply_op op (world s')) as [[[]|e] w']; simpl; [|done].
  by destruct (type op).
Qed.

(** ** Auto mode *)

(** A callback that approves everything and leaves the world alone. *)
Definition always_approve : @callback W :=
  fun _ w => (Ret approve, w).

(** The worlds the later operations are applied to, one after the
    other. *)
Definition apply_each (ops : list FileOperation) (w : W) : W :=
  foldl (fun w op => (apply_op op w).2) w ops.

Lemma auto_run cb ops s :
  autoMode s = true ->
  autoMode (after cb ops s) = true
  /\ asked (after cb ops s) = asked s
  /\ world (after cb ops s) = apply_each ops (world s).
Proof.
  revert s. induction ops as [|op ops IH]; intros s Hauto; [done|].
  rewrite after_cons, after_one, (process_operation_auto _ _ _ Hauto).
  destruct (applied_frame op s) as (Hm & Ha & Hw).
  destruct (IH (applied op s)) as (? & ? & ?); [congruence|].
  simpl. repeat split; congruence.
Qed.

Lemma auto_as_approved cb ops s s0 :
  autoMode s = true -> autoMode s0 = false ->
  result s = result s0 -> world s = world s0 ->
  result (after cb ops s)
    = result (after always_approve ops s0)
  /\ world (after cb ops s)
    = world (after always_approve ops s0).
Proof.
  revert s s0. induction ops as [|op ops IH]; intros s s0 Hauto Hman Hr Hw;
    [done|].
  rewrite (after_cons cb op ops s), (after_cons always_approve op ops s0).
  rewrite !after_one, (process_operation_auto _ _ _ Hauto).
  rewrite (process_operation_approved always_approve op s0 approve (world s0)
             Hman eq_refl (or_introl eq_refl)).
  simpl.
  destruct (applied_frame op s) as (Hm & _ & Hw1).
  destruct (applied_frame op (prompted op (world s0) false s0))
    as (Hm0 & _ & Hw0).
  apply IH.
  - congruence.
  - by rewrite Hm0.
  - by apply applied_result.
  - rewrite Hw1, Hw0. simpl. by rewrite Hw.
Qed.

(** ** The git steps around the loop *)

Definition after_setup (plan : FileGenerationPlan) (w : W) : state W :=
  (setup_branch plan (initial_state w)).2.

(** An entry of [errors] that a git step wrote. *)
Definition git_note (x : string) : Prop :=
  (exists e, x = "Git branch creation failed: " +:+ e)
  \/ (exists e, x = "Auto-commit failed: " +:+ e).

(** [s'] differs from [s] at most in the world, the git fields of
    the result and git entries added to [errors]. *)
Definition git_only (s s' : state W) : Prop :=
  autoMode s' = autoMode s /\ asked s' = asked s
  /\ success (result s') = success (result s)
  /\ filesCreated (result s') = filesCreated (result s)
  /\ filesModified (result s') = filesModified (result s)
  /\ filesSkipped (result s') = filesSkipped (result s)
  /\ exists notes, errors (result s') = errors (result s) ++ notes
                   /\ Forall git_note notes.

Lemma git_only_refl s : git_only s s.
Proof.
  repeat split. exists []. by rewrite app_nil_r.
Qed.

Ltac same_notes :=
  split; [done|]; repeat split; simpl; exists []; by rewrite app_nil_r.
Ltac one_note side :=
  split; [done|]; repeat split; simpl; eexists; split; [done|];
  constructor; [|done]; side; by eexists.

Lemma setup_branch_frame plan s :
  (setup_branch plan s).1 = Ret tt /\ git_only s (setup_branch plan s).2.
Proof.
  unfold setup_branch.
  destruct (bool_decide _ && Js.truthy _); [|same_notes].
  unfold try_catch, call, mbind, M_bind, bind, with_result, modify_, ret.
  destruct s as [r m a w]; simpl.
  destruct (git_getStatus w) as [[isRepo|e] w1]; simpl; [|one_note ltac:(left)].
  destruct isRepo; simpl; [|same_notes].
  destruct (git_createBranch _ w1) as [[b|e] w2]; simpl;
    [same_notes|one_note ltac:(left)].
Qed.

Lemma auto_commit_frame plan s :
  (auto_commit self plan s).1 = Ret tt /\ git_only s (auto_commit self plan s).2.
Proof.
  unfold auto_commit, mbind, M_bind, bind, get. simpl.
  destruct (GitManager.autoCommit _ && _); [|same_notes].
  unfold try_catch, call, mbind, M_bind, bind, with_result, modify_, ret.
  destruct s as [r m a w]; simpl.
  destruct (git_commit _ _ w) as [[[]|e] w1]; simpl;
    [same_notes|one_note ltac:(right)].
Qed.

Lemma run_plan_eq cb plan w :
  run_plan cwd self cb plan w
    = (auto_commit self plan (after cb (files plan) (after_setup plan w))).2.
Proof.
  unfold run_plan, after, after_setup, mbind, M_bind, bind.
  destruct (setup_branch_frame plan (initial_state w)) as [Hret _].
  destruct (setup_branch plan (initial_state w)) as [[[]|e] s1]; [|done].
  simpl. pose proof (process_all_returns cb (files plan) s1) as Hret'.
  destruct (process_all cwd self cb (files plan) s1) as [[[]|e] s2]; [|done].
  reflexivity.
Qed.

Lemma after_setup_initial plan w :
  git_only (initial_state w) (after_setup plan w).
Proof. apply setup_branch_frame. Qed.

(** ** When the success flag falls *)

(** The decision callback threw when it was invoked for [op]. *)
Definition callback_threw (cb : callback) (op : FileOperation)
    (s : state W) : Prop :=
  autoMode s = false /\ exists e, (cb op (world s)).1 = Threw e.

(** The decision for [op] was to apply it, and applying it threw. *)
Definition apply_threw (cb : callback) (op : FileOperation)
    (s : state W) : Prop :=
  exists e s1,
    decide_approval cb op s = (Ret approve, s1)
    /\ (executeFileOperation cwd self op s1).1 = Threw e.

Lemma decide_approval_result (cb : @callback W) op (s : state W) :
  result (decide_approval cb op s).2 = result s.
Proof.
  rewrite decide_approval_eq. destruct (autoMode s); [done|].
  by destruct (cb op (world s)) as [[[]|e] w'].
Qed.

Lemma recorded_success op (s : state W) :
  success (result (recorded op s)) = success (result s).
Proof. unfold recorded. by destruct (type op). Qed.

Lemma process_operation_success (cb : @callback W) op (s : state W) :
  success (result (process_operation cwd self cb op s).2) = false
  <-> success (result s) = false
      \/ callback_threw cb op s \/ apply_threw cb op s.
Proof.
  rewrite process_operation_eq, attempt_eq.
  unfold callback_threw, apply_threw.
  pose proof (decide_approval_result cb op s) as Hres.
  pose proof (decide_approval_eq cb op s) as Hdec.
  destruct (decide_approval cb op s) as [[d|e] s1] eqn:Hd; simpl in Hres.
  - assert (~ (autoMode s = false /\ exists e, (cb op (world s)).1 = Threw e))
      as Hno.
    { intros [Hm [e He]]. rewrite Hm in Hdec.
      destruct (cb op (world s)) as [[[]|e'] w']; simplify_eq. }
    destruct d; simpl; rewrite ?Hres.
    + rewrite executeFileOperation_eq. simpl.
      destruct (apply_op op (world s1)) as [[[]|e] w'] eqn:Happ; simpl.
      * rewrite recorded_success. simpl. rewrite Hres.
        split; [tauto|]. intros [?|[?|(e & s2 & [= <-] & He)]]; [done|tauto|].
        rewrite executeFileOperation_eq, Happ in He. done.
      * split; [|done]. intros _. right. right. exists e, s1.
        split; [done|]. by rewrite executeFileOperation_eq, Happ.
    + split; [tauto|]. intros [?|[?|(e & s2 & [=] & _)]]; [done|tauto].
    + split; [tauto|]. intros [?|[?|(e & s2 & [=] & _)]]; [done|tauto].
    + split; [tauto|]. intros [?|[?|(e & s2 & [=] & _)]]; [done|tauto].
  - simpl. split; [|done]. intros _. right. left.
    destruct (autoMode s); [done|]. split; [done|].
    destruct (cb op (world s)) as [[[]|e'] w']; simplify_eq. by eexists.
Qed.

Lemma success_after (cb : @callback W) ops (s : state W) :
  success (result (after cb ops s)) = false
  <-> success (result s) = false
      \/ exists pre op post,
           ops = pre ++ op :: post
           /\ (callback_threw cb op (after cb pre s)
               \/ apply_threw cb op (after cb pre s)).
Proof.
  revert s. induction ops as [|op ops IH]; intros s.
  - split; [by left|]. intros [?|(pre & o & post & Heq & _)]; [done|].
    by destruct pre.
  - rewrite after_cons, IH, after_one, process_operation_success. split.
    + intros [[?|Hthrew]|(pre & o & post & -> & Hthrew)].
      * by left.
      * right. by exists [], op, ops.
      * right. exists (op :: pre), o, post. split; [done|].
        by rewrite after_cons, after_one.
    + intros [?|(pre & o & post & Heq & Hthrew)]; [by left; left|].
      destruct pre as [|o' pre]; simpl in Heq; simplify_eq.
      * left. by right.
      * right. exists pre, o, post. split; [done|].
        by rewrite after_cons, after_one in Hthrew.
Qed.

(** ** One approved operation *)

(** What a successful application adds to the result. *)
Definition record_result (op : FileOperation) (r : GenerationResult)
  : GenerationResult :=
  match type op with
  | create => push_created (path op) r
  | modify => push_modified (path op) r
  | delete => r
  end.

(** What the [catch] adds to the result. *)
Definition failure_result (op : FileOperation) (e : string)
    (r : GenerationResult) : GenerationResult :=
  set_success false (push_error (failed_to_process op e) r).

Lemma approved_step (cb : @callback W) op (s : state W) :
  (decide_approval cb op s).1 = Ret approve ->
  result (process_operation cwd self cb op s).2 =
    match (executeFileOperation cwd self op (decide_approval cb op s).2).1 with
    | Ret _ => record_result op (result s)
    | Threw e => failure_result op e (result s)
    end.
Proof.
  intros Hd. rewrite process_operation_eq, attempt_eq.
  pose proof (decide_approval_result cb op s) as Hres.
  destruct (decide_approval cb op s) as [[d|e] s1]; simpl in *; [|done].
  injection Hd as ->. rewrite executeFileOperation_eq. simpl.
  destruct (apply_op op (world s1)) as [[[]|e] w']; simpl; [|by rewrite Hres].
  unfold recorded, record_result. destruct (type op); simpl; by rewrite Hres.
Qed.

Lemma record_result_created op r :
  filesCreated (record_result op r)
    = filesCreated r ++ (path <$> filter (fun o => type o = create) [op]).
Proof.
  unfold record_result. rewrite filter_cons, filter_nil.
  destruct (type op); simpl; by rewrite ?app_nil_r.
Qed.

Lemma record_result_modified op r :
  filesModified (record_result op r)
    = filesModified r ++ (path <$> filter (fun o => type o = modify) [op]).
Proof.
  unfold record_result. rewrite filter_cons, filter_nil.
  destruct (type op); simpl; by rewrite ?app_nil_r.
Qed.

Lemma record_result_rest op r :
  filesSkipped (record_result op r) = filesSkipped r
  /\ errors (record_result op r) = errors r
  /\ success (record_result op r) = success r.
Proof. unfold record_result. by destruct (type op). Qed.
End Loop.

(** ** Sample plans *)

Definition sample_op (p : string) (k : OpType) : FileOperation :=
  Build_FileOperation p k ("// " +:+ p) None ("Create file " +:+ p) 1.

Definition op_a : FileOperation := sample_op "src/a.ts" create.
Definition op_b : FileOperation := sample_op "src/b.ts" modify.
Definition op_c : FileOperation := sample_op "src/c.ts" create.

Definition three_files : FileGenerationPlan :=
  Build_FileGenerationPlan "login" [op_a; op_b; op_c] 0 new_branch
    (Some "hypercode-login") "Generate login: 2 new files, 1 modified file (~3 lines)".

(** Approves [src/a.ts], switches to auto at [src/b.ts], and would
    throw if it were asked about anything else. *)
Definition approve_then_auto : @callback Sim.world :=
  fun op w =>
    if bool_decide (path op = "src/a.ts") then (Ret approve, w)
    else if bool_decide (path op = "src/b.ts") then (Ret auto, w)
    else (Threw "Error: asked after auto", w).

(** ** Auto mode is monotonic *)

(** C3. Once the callback has answered [auto] for an operation, it is
    not invoked for any later operation of the plan (the log of
    invocations ends with that operation), auto mode stays on, every
    later operation is applied to the world in plan order, and the
    result is the one a run that approves each of them would give. *)
Theorem auto_mode_is_monotonic {W : Type} `{!Externals W} (cwd : string)
    (self : FileGenerator.t) (cb : callback) (plan : FileGenerationPlan)
    (w : W) (pre : list FileOperation) (op : FileOperation)
    (post : list FileOperation) (w' : W) :
  files plan = pre ++ op :: post ->
  autoMode (after cwd self cb pre (after_setup plan w)) = false ->
  cb op (world (after cwd self cb pre (after_setup plan w))) = (Ret auto, w') ->
  let before := after cwd self cb pre (after_setup plan w) in
  let at_op := after cwd self cb [op] before in
  let loop_end := after cwd self cb post at_op in
  let final := run_plan cwd self cb plan w in
  asked final = asked before ++ [op]
  /\ autoMode final = true
  /\ world loop_end = apply_each cwd self post (world at_op)
  /\ (let approved :=
        after cwd self always_approve post
          (State (result at_op) false (asked at_op) (world at_op)) in
      result loop_end = result approved /\ world loop_end = world approved)
  /\ final = (auto_commit self plan loop_end).2.
Proof.
  intros Hfiles Hmanual Hcb before at_op loop_end final.
  assert (final = (auto_commit self plan loop_end).2) as Hfinal.
  { subst final loop_end at_op before.
    rewrite run_plan_eq, Hfiles, after_app.
    by rewrite (after_cons cwd self cb op post). }
  assert (at_op = applied cwd self op (prompted op w' true before)) as Hat.
  { subst at_op. rewrite after_one.
    by rewrite (process_operation_approved cwd self cb op before auto w'
                  Hmanual Hcb (or_intror eq_refl)). }
  destruct (applied_frame cwd self op (prompted op w' true before))
    as (Hm & Ha & _).
  rewrite <- Hat in Hm, Ha. simpl in Hm, Ha.
  destruct (auto_run cwd self cb post at_op Hm) as (Hm' & Ha' & Hw').
  fold loop_end in Hm', Ha', Hw'.
  destruct (auto_commit_frame self plan loop_end) as (_ & Hgm & Hga & _).
  rewrite <- Hfinal in Hgm, Hga.
  repeat split.
  - congruence.
  - congruence.
  - exact Hw'.
  - by apply (auto_as_approved cwd self cb post at_op).
  - by apply (auto_as_approved cwd self cb post at_op).
  - exact Hfinal.
Qed.

(** ** Continue on error *)

(** C4. When the decision for an operation is to apply it and applying
    it throws, the loop records one error entry naming that operation,
    sets success to false, leaves the created, modified and skipped
    lists as they were, and goes on with every later operation from
    there; success is false at the end.  In particular, in a plan of
    three approved operations of which only the second fails to apply,
    the created and modified lists hold exactly the first and the
    third, nothing is skipped, and the one entry the operations leave
    in the errors is the entry of the second. *)
Theorem failure_does_not_abort {W : Type} `{!Externals W} (cwd : string)
    (self : FileGenerator.t) (cb : callback) (plan : FileGenerationPlan)
    (w : W) (pre : list FileOperation) (op : FileOperation)
    (post : list FileOperation) (e : string) :
  let s0 := after_setup plan w in
  let before := after cwd self cb pre s0 in
  let at_op := after cwd self cb [op] before in
  let r := (executeGenerationPlan cwd self cb plan w).1 in
  let approved o s := (decide_approval cb o s).1 = Ret approve in
  let application o s :=
    (executeFileOperation cwd self o (decide_approval cb o s).2).1 in
  files plan = pre ++ op :: post ->
  approved op before ->
  application op before = Threw e ->
  result at_op = failure_result op e (result before)
  /\ run_plan cwd self cb plan w
     = (auto_commit self plan (after cwd self cb post at_op)).2
  /\ success r = false
  /\ (forall o1 o3,
        pre = [o1] -> post = [o3] ->
        approved o1 s0 -> application o1 s0 = Ret tt ->
        approved o3 at_op -> application o3 at_op = Ret tt ->
        filesCreated r = path <$> filter (fun o => type o = create) [o1; o3]
        /\ filesModified r = path <$> filter (fun o => type o = modify) [o1; o3]
        /\ filesSkipped r = []
        /\ exists earlier later,
             errors r = earlier ++ [failed_to_process op e] ++ later
             /\ Forall git_note (earlier ++ later)).
Proof.
  intros s0 before at_op r approved application Hfiles Hd Ha.
  subst approved application. simpl in *.
  pose proof (approved_step cwd self cb op before Hd) as Hop. rewrite Ha in Hop.
  rewrite <- after_one in Hop. fold at_op in Hop.
  assert (run_plan cwd self cb plan w
          = (auto_commit self plan (after cwd self cb post at_op)).2) as Hrun.
  { rewrite run_plan_eq, Hfiles, after_app.
    by rewrite (after_cons cwd self cb op post). }
  set (loop_end := after cwd self cb post at_op) in *.
  destruct (auto_commit_frame self plan loop_end)
    as (_ & _ & _ & Hs' & Hc' & Hm' & Hk' & notes1 & He' & Hn1).
  assert (r = result (auto_commit self plan loop_end).2) as Hr.
  { subst r. unfold executeGenerationPlan. simpl. by rewrite Hrun. }
  rewrite <- Hr in Hs', Hc', Hm', Hk', He'.
  split; [exact Hop|]. split; [exact Hrun|]. split.
  - rewrite Hs'. apply success_after. left. by rewrite Hop.
  - intros o1 o3 -> -> Hd1 Ha1 Hd3 Ha3.
    pose proof (approved_step cwd self cb o1 s0 Hd1) as H1. rewrite Ha1 in H1.
    pose proof (approved_step cwd self cb o3 at_op Hd3) as H3. rewrite Ha3 in H3.
    rewrite <- after_one in H1, H3. fold before in H1. fold loop_end in H3.
    destruct (after_setup_initial plan w)
      as (_ & _ & _ & Hc & Hm & Hk & notes0 & He & Hn0).
    fold s0 in Hc, Hm, Hk, He. simpl in Hc, Hm, Hk, He.
    destruct (record_result_rest o3 (result at_op)) as (Hk3 & He3 & _).
    destruct (record_result_rest o1 (result s0)) as (Hk1 & He1 & _).
    rewrite H3 in *. rewrite Hop in *. rewrite H1 in *.
    repeat split.
    + rewrite Hc', record_result_created. simpl.
      rewrite record_result_created, Hc. simpl.
      rewrite <- fmap_app. f_equal.
      change [o1; o3] with ([o1] ++ [o3]). by rewrite filter_app.
    + rewrite Hm', record_result_modified. simpl.
      rewrite record_result_modified, Hm. simpl.
      rewrite <- fmap_app. f_equal.
      change [o1; o3] with ([o1] ++ [o3]). by rewrite filter_app.
    + rewrite Hk', Hk3. simpl. by rewrite Hk1.
    + exists notes0, notes1. split.
      * rewrite He', He3. simpl. rewrite He1, He. by rewrite <- app_assoc.
      * by apply Forall_app.
Qed.

(** A world in which [src/b.ts] cannot be written. *)
Definition second_is_readonly : Sim.world :=
  Sim.World {[ "/home/u/app/src/b.ts" := "old" ]} ["/home/u/app/src/b.ts"]
    true false [].

Lemma failure_does_not_abort_witness :
  let r := (executeGenerationPlan Sim.root Sim.generator always_approve
              three_files second_is_readonly).1 in
  success r = false
  /\ filesCreated r = ["src/a.ts"; "src/c.ts"]
  /\ filesModified r = []
  /\ errors r = ["Failed to process src/b.ts: Error: EACCES: permission denied, open '/home/u/app/src/b.ts'"].
Proof.
  pose proof (failure_does_not_abort Sim.root Sim.generator always_approve
                three_files second_is_readonly [op_a] op_b [op_c]
                "Error: EACCES: permission denied, open '/home/u/app/src/b.ts'")
    as Hthm.
  cbv zeta in Hthm.
  destruct Hthm as (_ & _ & Hs & Hlists); try (vm_compute; reflexivity).
  destruct (Hlists op_a op_c) as (Hc & Hm & _ & _);
    try (vm_compute; reflexivity).
  intros r. subst r. rewrite Hs, Hc, Hm.
  repeat split; vm_compute; reflexivity.
Defined.

(** ** The success flag *)

(** A callback that fails, as when the prompt's input has been
    closed. *)
Definition hang_up : @callback Sim.world :=
  fun _ w => (Threw "Error: readline was closed", w).

Definition one_file : FileGenerationPlan :=
  Build_FileGenerationPlan "login" [op_a] 0 current_branch None
    "Generate login: 1 new file (~1 lines)".

(** C5, as stated, fails: when the decision callback throws, success
    becomes false although no operation was applied, let alone threw
    while being applied; the disk is untouched. *)
Lemma callback_failure_clears_success :
  let run := executeGenerationPlan Sim.root Sim.generator hang_up one_file
               Sim.empty_disk in
  success run.1 = false
  /\ errors run.1 = ["Failed to process src/a.ts: Error: readline was closed"]
  /\ run.2 = Sim.empty_disk
  /\ ~ apply_threw Sim.root Sim.generator hang_up op_a
        (after_setup one_file Sim.empty_disk).
Proof.
  repeat split; try (vm_compute; reflexivity).
  intros (e & s1 & Hd & _). vm_compute in Hd. discriminate Hd.
Qed.

(** C5, amended. Success is false at the end of a run exactly when,
    for some operation of the plan, processing it threw: either the
    decision callback threw when invoked for it, or the decision was
    to apply it and applying it threw.  Skipped operations, the
    [edit] decision, and failures of branch creation or of the
    auto-commit leave success true. *)
Theorem success_false_iff_threw {W : Type} `{!Externals W} (cwd : string)
    (self : FileGenerator.t) (cb : callback) (plan : FileGenerationPlan)
    (w : W) :
  success (executeGenerationPlan cwd self cb plan w).1 = false
  <-> exists pre op post,
        files plan = pre ++ op :: post
        /\ (callback_threw cb op (after cwd self cb pre (after_setup plan w))
            \/ apply_threw cwd self cb op
                 (after cwd self cb pre (after_setup plan w))).
Proof.
  unfold executeGenerationPlan. simpl. rewrite run_plan_eq.
  destruct (auto_commit_frame self plan
              (after cwd self cb (files plan) (after_setup plan w)))
    as (_ & _ & _ & -> & _).
  rewrite success_after.
  destruct (after_setup_initial plan w) as (_ & _ & -> & _). simpl.
  split; [|by right]. by intros [?|?].
Qed.

Lemma auto_mode_is_monotonic_witness :
  asked (run_plan Sim.root Sim.generator approve_then_auto three_files
           Sim.empty_disk)
    = [op_a; op_b]
  /\ filesCreated (executeGenerationPlan Sim.root Sim.generator
                     approve_then_auto three_files Sim.empty_disk).1
     = ["src/a.ts"; "src/c.ts"].
Proof.
  split; [|vm_compute; reflexivity].
  pose proof (auto_mode_is_monotonic Sim.root Sim.generator approve_then_auto
                three_files Sim.empty_disk [op_a] op_b [op_c]
                (world (after Sim.root Sim.generator approve_then_auto [op_a]
                          (after_setup three_files Sim.empty_disk))))
    as Hthm.
  destruct Hthm as (Hasked & _).
  - reflexivity.
  - vm_compute. reflexivity.
  - vm_compute. reflexivity.
  - rewrite Hasked. vm_compute. reflexivity.
Defined.

End ExecProps.

(** * More of the task ledger: progress, and what the operations keep *)

(** ** Progress ([getProgress], [calculateGroupProgress], [getTodoCount]) *)

Module Progress.
Import TodoManager.

Record TodoProgress : Type := Build_TodoProgress {
  total : nat;
  completed : nat;
  inProgress : nat;
  pending : nat;
  skipped : nat;
  blocked : nat;
  percentage : Z;
  estimatedTokensRemaining : Z
}.

Definition count (s : Status.t) (todos : list Todo.t) : nat :=
  length (filter (fun t => Todo.status t = s) todos).

(** [todo.estimatedTokens || 1000] *)
Definition tokensOrDefault (todo : Todo.t) : Z :=
  match Todo.estimatedTokens todo with
  | Some n => if (n =? 0)%Z then 1000 else n
  | None => 1000
  end.

Section Percent.
(** [Math.round((completed / total) * 100)]: a floating-point
    computation, taken as it comes. *)
Variable roundedPercent : nat -> nat -> Z.

(** The body that [getProgress] and [calculateGroupProgress] share. *)
Definition progressOf (todos : list Todo.t) : TodoProgress :=
  let total_ := length todos in
  let completed_ := count Status.completed todos in
  let remainingTodos :=
    filter (fun t => Todo.status t = Status.pending
                     \/ Todo.status t = Status.in_progress) todos in
  {| total := total_;
     completed := completed_;
     inProgress := count Status.in_progress todos;
     pending := count Status.pending todos;
     skipped := count Status.skipped todos;
     blocked := count Status.blocked todos;
     percentage :=
       if (0 <? total_)%nat then roundedPercent completed_ total_ else 0%Z;
     estimatedTokensRemaining :=
       foldl (fun sum todo => (sum + tokensOrDefault todo)%Z) 0%Z remainingTodos |}.

Definition calculateGroupProgress (group : TodoGroup.t) : TodoProgress :=
  progressOf (TodoGroup.todos group).

Definition getProgress (self : TodoManager.t) (groupId : option string)
  : TodoProgress :=
  let whole := progressOf (getAllTodos self) in
  match groupId with
  | Some gid =>
      if Js.truthy gid then
        match list_find (fun g => TodoGroup.id g = gid) (groups self) with
        | Some (_, g) => progressOf (TodoGroup.todos g)
        | None => progressOf []
        end
      else whole
  | None => whole
  end.
End Percent.

Definition getTodoCount (self : TodoManager.t) : nat :=
  length (filter (fun t => Todo.status t = Status.pending
                           \/ Todo.status t = Status.in_progress)
            (getAllTodos self)).

End Progress.

Module LedgerMore.
Import TodoManager Progress LedgerProps.

(** ** Counting *)

Lemma counts_partition (todos : list Todo.t) :
  length todos =
    (count Status.completed todos + count Status.in_progress todos
     + count Status.pending todos + count Status.skipped todos
     + count Status.blocked todos)%nat.
Proof.
  unfold count. induction todos as [|t todos IH]; [done|].
  rewrite !filter_cons. simpl. rewrite IH.
  destruct (Todo.status t);
    repeat match goal with |- context [decide ?P] => destruct (decide P) end;
    try done; simpl; lia.
Qed.

Lemma open_count (todos : list Todo.t) :
  length (filter (fun t => Todo.status t = Status.pending
                           \/ Todo.status t = Status.in_progress) todos)
  = (count Status.pending todos + count Status.in_progress todos)%nat.
Proof.
  unfold count. induction todos as [|t todos IH]; [done|].
  rewrite !filter_cons. simpl.
  destruct (Todo.status t) eqn:Hs;
    repeat match goal with |- context [decide ?P] => destruct (decide P) end;
    simpl; try lia; try tauto; try intuition congruence.
Qed.

(** X1. In every progress report the five status counts add up to the
    total, whichever group is asked for; the percentage is 0 when
    there is no todo; and [getTodoCount] is the number of pending plus
    the number of in-progress todos of the whole ledger. *)
Theorem progress_counts_add_up (roundedPercent : nat -> nat -> Z)
    (self : TodoManager.t) (groupId : option string) :
  let p := getProgress roundedPercent self groupId in
  total p = (completed p + inProgress p + pending p + skipped p + blocked p)%nat
  /\ (total p = 0%nat -> percentage p = 0%Z)
  /\ getTodoCount self
     = (pending (getProgress roundedPercent self None)
        + inProgress (getProgress roundedPercent self None))%nat.
Proof.
  assert (forall todos,
            total (progressOf roundedPercent todos)
            = (completed (progressOf roundedPercent todos)
               + inProgress (progressOf roundedPercent todos)
               + pending (progressOf roundedPercent todos)
               + skipped (progressOf roundedPercent todos)
               + blocked (progressOf roundedPercent todos))%nat
            /\ (total (progressOf roundedPercent todos) = 0%nat ->
                percentage (progressOf roundedPercent todos) = 0%Z)) as Hany.
  { intros todos. simpl. split; [apply counts_partition|].
    by intros ->. }
  intros p. split; [|split].
  - subst p. unfold getProgress.
    destruct groupId as [gid|]; [|apply Hany].
    destruct (Js.truthy gid); [|apply Hany].
    destruct (list_find _ (groups self)) as [[i g]|]; apply Hany.
  - subst p. unfold getProgress.
    destruct groupId as [gid|]; [|apply Hany].
    destruct (Js.truthy gid); [|apply Hany].
    destruct (list_find _ (groups self)) as [[i g]|]; apply Hany.
  - unfold getTodoCount. simpl. apply open_count.
Qed.

(** X2. Asking for the progress of a group id that no group has is not
    an error: the report is all zeros. *)
Theorem progress_of_unknown_group (roundedPercent : nat -> nat -> Z)
    (self : TodoManager.t) (gid : string) :
  gid <> "" ->
  gid ∉ (TodoGroup.id <$> groups self) ->
  getProgress roundedPercent self (Some gid)
    = Build_TodoProgress 0 0 0 0 0 0 0 0.
Proof.
  intros Hne Hnone. unfold getProgress.
  destruct gid as [|c gid]; [done|]. simpl.
  destruct (list_find _ (groups self)) as [[i g]|] eqn:Hf; [|done].
  apply list_find_Some in Hf as (Hi & Hid & _). destruct Hnone.
  rewrite <- Hid. apply list_elem_of_fmap_2. by eapply list_elem_of_lookup_2.
Qed.

Lemma progress_of_unknown_group_witness :
  getProgress (fun _ _ => 50%Z) finished_ledger (Some "nowhere")
    = Build_TodoProgress 0 0 0 0 0 0 0 0.
Proof.
  apply (progress_of_unknown_group (fun _ _ => 50%Z) finished_ledger "nowhere").
  - discriminate.
  - apply (bool_decide_eq_false_1
             ("nowhere" ∈ (TodoGroup.id <$> groups finished_ledger))).
    vm_compute. reflexivity.
Defined.

(** X3. When [updateTodoStatus] finds the id, it rewrites exactly one
    todo, the first of that id in ledger order, and nothing else: the
    todos before and after it, the ids and their order, the groups'
    ids and the current group are as they were.  What it returns is
    what the save returns. *)
Theorem updateTodoStatus_touches_one save now groupNow (self : TodoManager.t)
    (todoId : string) (status : Status.t) (a : option Z)
    (gi ti : nat) (g : TodoGroup.t) (t : Todo.t) :
  findTodo self todoId = Some (gi, ti, g, t) ->
  let run := updateTodoStatus save now groupNow todoId status a self in
  (exists pre post,
     getAllTodos self = pre ++ t :: post
     /\ getAllTodos run.2 = pre ++ set_status now status a t :: post
     /\ todoId ∉ (Todo.id <$> pre))
  /\ Todo.id <$> getAllTodos run.2 = Todo.id <$> getAllTodos self
  /\ TodoGroup.id <$> groups run.2 = TodoGroup.id <$> groups self
  /\ currentGroup run.2 = currentGroup self
  /\ run.1 = save run.2.
Proof.
  intros Hf run.
  assert (run.2 = with_groups self
            (<[gi := updateGroupStatus groupNow
                 (with_todos g (alter (set_status now status a) ti
                                      (TodoGroup.todos g)))]> (groups self)))
    as Hstate by apply (updateTodoStatus_state _ _ _ _ _ _ _ _ _ _ _ Hf).
  pose proof (findTodo_Some _ _ _ _ _ _ Hf) as (Hg & Ht & Hid).
  pose proof (getAllTodos_split self gi ti g t Hg Ht) as Hbefore.
  pose proof (getAllTodos_altered self gi ti g t (set_status now status a)
                _ Hg Ht
                (updateGroupStatus_todos groupNow
                   (with_todos g (alter (set_status now status a) ti
                                        (TodoGroup.todos g))))) as Hafter.
  rewrite <- Hstate in Hafter.
  split; [|split; [|split; [|split]]].
  - exists (before self gi ti g), (behind self gi ti g).
    split; [done|]. split; [done|].
    pose proof (find_from_first _ _ _ _ _ _ _ Hf) as Hfirst.
    by rewrite Nat.sub_0_r in Hfirst.
  - rewrite Hafter, Hbefore. by rewrite !fmap_app, !fmap_cons.
  - rewrite Hstate. simpl. apply list_eq. intros i.
    rewrite !list_lookup_fmap.
    destruct (decide (i = gi)) as [->|Hne].
    + rewrite list_lookup_insert_eq by (by eapply lookup_lt_Some).
      rewrite Hg. simpl. f_equal. unfold updateGroupStatus.
      repeat match goal with |- context [if ?b then _ else _] => destruct b end;
        reflexivity.
    + by rewrite list_lookup_insert_ne.
  - by rewrite Hstate.
  - subst run. unfold updateTodoStatus, mbind, M_bind, bind, get. simpl.
    rewrite Hf. reflexivity.
Qed.

Lemma updateTodoStatus_touches_one_witness :
  let run := updateTodoStatus saved 9 10 "docs" Status.completed (Some 120%Z)
               finished_ledger in
  (exists pre post,
     getAllTodos finished_ledger = pre ++ waiting :: post
     /\ getAllTodos run.2
        = pre ++ set_status 9 Status.completed (Some 120%Z) waiting :: post
     /\ "docs" ∉ (Todo.id <$> pre))
  /\ Todo.id <$> getAllTodos run.2 = Todo.id <$> getAllTodos finished_ledger
  /\ TodoGroup.id <$> groups run.2 = TodoGroup.id <$> groups finished_ledger
  /\ currentGroup run.2 = currentGroup finished_ledger
  /\ run.1 = saved run.2.
Proof.
  apply (updateTodoStatus_touches_one saved 9 10 finished_ledger "docs"
           Status.completed (Some 120%Z) 0 1
           (sample_group "g" GroupStatus.in_progress [finished; waiting])
           waiting).
  vm_compute. reflexivity.
Defined.

(** X4. An id that no todo of the ledger has makes [updateTodoStatus]
    and [skipTodo] throw the not-found error; the ledger is left as it
    was and nothing is saved. *)
Theorem unknown_id_is_rejected save now groupNow (self : TodoManager.t)
    (todoId : string) (status : Status.t) (a : option Z)
    (reason : option string) :
  todoId ∉ (Todo.id <$> getAllTodos self) ->
  updateTodoStatus save now groupNow todoId status a self
    = (Threw (not_found todoId), self)
  /\ skipTodo save now groupNow todoId reason self = (Threw (not_found todoId), self).
Proof.
  intros Hnone%findTodo_None_iff.
  unfold skipTodo, updateTodoStatus, mbind, M_bind, bind, get. simpl.
  by rewrite Hnone.
Qed.

Lemma unknown_id_is_rejected_witness :
  updateTodoStatus saved 9 10 "nothing" Status.completed None finished_ledger
    = (Threw (not_found "nothing"), finished_ledger)
  /\ skipTodo saved 9 10 "nothing" (Some "why") finished_ledger
     = (Threw (not_found "nothing"), finished_ledger).
Proof.
  apply (unknown_id_is_rejected saved 9 10 finished_ledger "nothing"
           Status.completed None (Some "why")).
  apply (bool_decide_eq_false_1
           ("nothing" ∈ (Todo.id <$> getAllTodos finished_ledger))).
  vm_compute. reflexivity.
Defined.
(** ** [addTodo] *)

Lemma alter_as_insert {A} (f : A -> A) (l : list A) i x :
  l !! i = Some x -> alter f i l = <[i := f x]> l.
Proof.
  revert i. induction l as [|y l IH]; intros [|i] Hi; simplify_eq/=; [done|].
  f_equal. by apply IH.
Qed.

(** The group [addTodo] picks: the first group of the id asked for, or
    else the current group. *)
Definition wanted (self : TodoManager.t) (options : AddOptions) : option nat :=
  match o_groupId options with
  | Some gid =>
      if Js.truthy gid then
        match list_find (fun g => TodoGroup.id g = gid) (groups self) with
        | Some (i, _) => Some i
        | None => currentGroup self
        end
      else currentGroup self
  | None => currentGroup self
  end.

(** [currentGroup] refers to a group of the ledger. *)
Definition current_is_listed (self : TodoManager.t) : Prop :=
  forall i, currentGroup self = Some i -> is_Some (groups self !! i).

Lemma wanted_listed self options :
  current_is_listed self ->
  forall i, wanted self options = Some i -> is_Some (groups self !! i).
Proof.
  intros Hwf i. unfold wanted.
  destruct (o_groupId options) as [gid|]; [|apply Hwf].
  destruct (Js.truthy gid); [|apply Hwf].
  destruct (list_find _ (groups self)) as [[j g]|] eqn:Hf; [|apply Hwf].
  intros [= <-]. apply list_find_Some in Hf as (Hj & _). by exists g.
Qed.

Lemma wanted_named self options gid :
  o_groupId options = Some gid -> gid <> "" ->
  gid ∈ (TodoGroup.id <$> groups self) ->
  exists i g, wanted self options = Some i /\ groups self !! i = Some g
              /\ TodoGroup.id g = gid
              /\ forall j h, groups self !! j = Some h -> (j < i)%nat ->
                             TodoGroup.id h <> gid.
Proof.
  intros Hopt Hne Hin. unfold wanted. rewrite Hopt.
  destruct gid as [|c gid]; [done|]. simpl.
  destruct (list_find _ (groups self)) as [[i g]|] eqn:Hf.
  - apply list_find_Some in Hf as (Hi & Hid & Hleast). exists i, g. eauto.
  - apply list_find_None in Hf. rewrite Forall_forall in Hf.
    apply list_elem_of_fmap in Hin as (h & Hid & Hh). by destruct (Hf h).
Qed.

Definition pushed (touched : Z) (todo : Todo.t) (g : TodoGroup.t)
  : TodoGroup.t :=
  TodoGroup.Build (TodoGroup.id g) (TodoGroup.title g) (TodoGroup.description g)
    (TodoGroup.todos g ++ [todo]) (TodoGroup.status g) (TodoGroup.createdAt g)
    touched (TodoGroup.estimatedTokens g) (TodoGroup.actualTokens g).

Definition made (created updated : Z) (newId title : string)
    (options : AddOptions) : Todo.t :=
  Todo.Build newId title (o_description options) Status.pending
    (default Priority.medium (o_priority options)) created updated
    (o_estimatedTokens options) None
    (Some (default [] (o_dependencies options)))
    (Some (default [] (o_tags options))).

(** Five readings of the clock, each later than the one before. *)
Definition sample_times : AddTimes := Build_AddTimes 9 10 11 12 13.

(** The ledger [addTodo] leaves when it returns, and the place of the
    new todo in it. *)
Lemma addTodo_run save times newId groupId title options self x :
  (forall i, wanted self options = Some i -> is_Some (groups self !! i)) ->
  (addTodo save times newId groupId title options self).1 = Ret x ->
  x = newId
  /\ exists i gs g,
       (addTodo save times newId groupId title options self).2
         = Build (projectRoot self) (sessionId self)
                 (match wanted self options with
                  | Some _ => currentGroup self
                  | None => Some (length (groups self))
                  end)
                 (<[i := pushed (groupTouched times)
                          (made (todoCreated times) (todoUpdated times)
                             newId title options) g]> gs)
       /\ gs !! i = Some g
       /\ match wanted self options with
          | Some j => j = i /\ gs = groups self
          | None =>
              i = length (groups self)
              /\ gs = groups self
                        ++ [TodoGroup.Build groupId "Default Tasks" None []
                              GroupStatus.pending (groupCreated times)
                              (groupUpdated times) None None]
          end.
Proof.
  intros Hlisted. unfold addTodo.
  fold (made (todoCreated times) (todoUpdated times) newId title options).
  unfold createTodoGroup, TodoManager.save.
  unfold mbind, M_bind, bind, get, modify_, mret, M_ret, ret.
  cbv beta zeta. unfold wanted in *.
  destruct (match o_groupId options with Some _ => _ | None => _ end) as [i|];
    simpl.
  - destruct (Hlisted i eq_refl) as [g Hg].
    destruct (save _) as [[]|e] eqn:Hsave; [|done].
    intros [= <-]. split; [done|]. exists i, (groups self), g.
    split; [|done]. unfold with_groups. simpl. f_equal.
    by apply alter_as_insert.
  - destruct (save _) as [[]|e] eqn:Hsave0; [|done]. simpl.
    match goal with |- context [save ?s] =>
      destruct (save s) as [[]|e] eqn:Hsave; [|done] end.
    intros [= <-]. split; [done|].
    eexists (length (groups self)), _, _. split; [|split; [|done]].
    + unfold with_groups. simpl. f_equal. apply alter_as_insert.
      by rewrite lookup_app_r, Nat.sub_diag by lia.
    + by rewrite lookup_app_r, Nat.sub_diag by lia.
Qed.

Lemma getAllTodos_pushed gs i g now todo :
  gs !! i = Some g ->
  (gs ≫= TodoGroup.todos)
    = (take i gs ≫= TodoGroup.todos) ++ TodoGroup.todos g
      ++ (drop (S i) gs ≫= TodoGroup.todos)
  /\ (<[i := pushed now todo g]> gs ≫= TodoGroup.todos)
    = ((take i gs ≫= TodoGroup.todos) ++ TodoGroup.todos g)
      ++ todo :: (drop (S i) gs ≫= TodoGroup.todos).
Proof.
  intros Hg. split.
  - rewrite <- (take_drop_middle _ _ _ Hg) at 1.
    by rewrite bind_app, bind_cons.
  - rewrite insert_take_drop by (by eapply lookup_lt_Some).
    rewrite bind_app, bind_cons. simpl. by rewrite <- !app_assoc.
Qed.

Lemma bind_snoc_empty gs g :
  TodoGroup.todos g = [] ->
  ((gs ++ [g]) ≫= TodoGroup.todos) = gs ≫= TodoGroup.todos.
Proof.
  intros Hg. rewrite bind_app. simpl. by rewrite Hg, !app_nil_r.
Qed.

Lemma addTodo_todos save times newId groupId title options self x :
  (forall i, wanted self options = Some i -> is_Some (groups self !! i)) ->
  (addTodo save times newId groupId title options self).1 = Ret x ->
  exists pre post,
    getAllTodos self = pre ++ post
    /\ getAllTodos (addTodo save times newId groupId title options self).2
       = pre ++ made (todoCreated times) (todoUpdated times) newId title
                  options :: post.
Proof.
  intros Hwf Hret.
  destruct (addTodo_run _ _ _ _ _ _ _ _ Hwf Hret)
    as (_ & i & gs & g & -> & Hg & Hcase).
  destruct (getAllTodos_pushed gs i g (groupTouched times)
              (made (todoCreated times) (todoUpdated times) newId title options)
              Hg) as (Hold & Hnew).
  unfold getAllTodos. simpl. rewrite Hnew.
  eexists _, _. split; [|reflexivity].
  destruct (wanted self options) as [j|].
  - destruct Hcase as (_ & ->). by rewrite Hold, <- app_assoc.
  - destruct Hcase as (_ & ->). rewrite bind_snoc_empty in Hold by done.
    by rewrite Hold, <- app_assoc.
Qed.

(** X5. When [addTodo] returns, it returns the id of the new todo, and
    the ledger has gained exactly that todo: pending, of medium
    priority unless one was given, with empty dependency and tag lists
    unless given, its creation and update times being the first and
    the second reading of the clock; the todos that were there keep
    their order and their contents.  The group that receives it keeps its status: no group of
    the ledger has its status, id or title changed. *)
Theorem addTodo_appends_one save times newId groupId title options
    (self : TodoManager.t) (x : string) :
  current_is_listed self ->
  let run := addTodo save times newId groupId title options self in
  run.1 = Ret x ->
  x = newId
  /\ (exists pre post,
        getAllTodos self = pre ++ post
        /\ getAllTodos run.2
           = pre ++ Todo.Build newId title (o_description options)
                      Status.pending
                      (default Priority.medium (o_priority options))
                      (todoCreated times) (todoUpdated times)
                      (o_estimatedTokens options) None
                      (Some (default [] (o_dependencies options)))
                      (Some (default [] (o_tags options)))
                    :: post)
  /\ (forall i g, groups self !! i = Some g ->
        exists g', groups run.2 !! i = Some g'
                   /\ TodoGroup.status g' = TodoGroup.status g
                   /\ TodoGroup.id g' = TodoGroup.id g
                   /\ TodoGroup.title g' = TodoGroup.title g).
Proof.
  intros Hwf0 run Hret. subst run.
  pose proof (wanted_listed self options Hwf0) as Hwf.
  split; [by destruct (addTodo_run _ _ _ _ _ _ _ _ Hwf Hret)|].
  split; [by apply (addTodo_todos _ _ _ _ _ _ _ _ Hwf Hret)|].
  destruct (addTodo_run _ _ _ _ _ _ _ _ Hwf Hret)
    as (_ & i & gs & g & -> & Hg & Hcase).
  intros j h Hh. simpl.
  assert (gs !! j = Some h) as Hj.
  { destruct (wanted self options).
    - by destruct Hcase as (_ & ->).
    - destruct Hcase as (_ & ->). by apply lookup_app_l_Some. }
  destruct (decide (j = i)) as [->|Hne].
  - rewrite Hg in Hj. injection Hj as ->.
    rewrite list_lookup_insert_eq by (by eapply lookup_lt_Some).
    by eexists.
  - rewrite list_lookup_insert_ne by done. by exists h.
Qed.

Lemma addTodo_appends_one_witness :
  let run := addTodo saved sample_times "t9" "g9" "write tests" no_options
               finished_ledger in
  "t9" = "t9"
  /\ (exists pre post,
        getAllTodos finished_ledger = pre ++ post
        /\ getAllTodos run.2
           = pre ++ Todo.Build "t9" "write tests" None Status.pending
                      Priority.medium 9 10 None None (Some []) (Some [])
                    :: post)
  /\ (forall i g, groups finished_ledger !! i = Some g ->
        exists g', groups run.2 !! i = Some g'
                   /\ TodoGroup.status g' = TodoGroup.status g
                   /\ TodoGroup.id g' = TodoGroup.id g
                   /\ TodoGroup.title g' = TodoGroup.title g).
Proof.
  apply (addTodo_appends_one saved sample_times "t9" "g9" "write tests"
           no_options finished_ledger "t9").
  - intros i [= <-]. vm_compute. eauto.
  - vm_compute. reflexivity.
Defined.

(** X6. A todo added under an id that no todo of the ledger has can be
    found again: [findTodo] of that id gives the new todo, and ids
    that were distinct stay distinct. *)
Theorem added_todo_is_found save times newId groupId title options
    (self : TodoManager.t) (x : string) :
  current_is_listed self ->
  newId ∉ (Todo.id <$> getAllTodos self) ->
  let run := addTodo save times newId groupId title options self in
  run.1 = Ret x ->
  (exists gi ti g todo,
     findTodo run.2 x = Some (gi, ti, g, todo)
     /\ Todo.id todo = newId /\ Todo.title todo = title
     /\ Todo.status todo = Status.pending)
  /\ (NoDup (Todo.id <$> getAllTodos self) ->
      NoDup (Todo.id <$> getAllTodos run.2)).
Proof.
  intros Hwf0 Hfresh run Hret. subst run.
  pose proof (wanted_listed self options Hwf0) as Hwf.
  destruct (addTodo_todos _ _ _ _ _ _ _ _ Hwf Hret)
    as (pre & post & Hold & Hnew).
  destruct (addTodo_run _ _ _ _ _ _ _ _ Hwf Hret) as (-> & _).
  rewrite Hold, fmap_app in Hfresh.
  split.
  - pose proof (find_from_flat newId 0
                  (groups (addTodo save times newId groupId title options self).2))
      as Hflat.
    fold (getAllTodos (addTodo save times newId groupId title options self).2)
      in Hflat.
    rewrite Hnew in Hflat.
    assert (list_find (has_id newId) pre = None) as Hpre.
    { apply list_find_None, Forall_forall. intros u Hu Hid.
      apply Hfresh, elem_of_app. left. rewrite <- Hid.
      by apply list_elem_of_fmap_2. }
    rewrite (list_find_app_r _ _ _ Hpre) in Hflat.
    simpl in Hflat. rewrite decide_True in Hflat by done. simpl in Hflat.
    unfold findTodo.
    destruct (find_from _ _ _) as [[[[gi ti] g] todo]|]; [|done].
    simpl in Hflat. injection Hflat as ->. by eexists _, _, _, _.
  - rewrite Hold, Hnew, !fmap_app, fmap_cons. simpl.
    rewrite !NoDup_app, NoDup_cons. intros (Hpre & Hdisj & Hpost).
    split; [done|]. split.
    + intros z Hz [->|Hin]%elem_of_cons; [|by apply (Hdisj z)].
      apply Hfresh, elem_of_app. by left.
    + split; [|done]. intros Hin. apply Hfresh, elem_of_app. by right.
Qed.

Lemma added_todo_is_found_witness :
  let run := addTodo saved sample_times "t9" "g9" "write tests" no_options
               finished_ledger in
  (exists gi ti g todo,
     findTodo run.2 "t9" = Some (gi, ti, g, todo)
     /\ Todo.id todo = "t9" /\ Todo.title todo = "write tests"
     /\ Todo.status todo = Status.pending)
  /\ (NoDup (Todo.id <$> getAllTodos finished_ledger) ->
      NoDup (Todo.id <$> getAllTodos run.2)).
Proof.
  apply (added_todo_is_found saved sample_times "t9" "g9" "write tests"
           no_options finished_ledger "t9").
  - intros i [= <-]. vm_compute. eauto.
  - apply (bool_decide_eq_false_1
             ("t9" ∈ (Todo.id <$> getAllTodos finished_ledger))).
    vm_compute. reflexivity.
  - vm_compute. reflexivity.
Defined.

(** X7. A todo added with the id of an existing group goes to the end
    of the first group of that id, whatever the current group is; the
    group's update time is the reading of the clock taken after the
    todo was pushed, a reading of its own and not one of the todo's
    two, and no group is added. *)
Theorem addTodo_goes_to_named_group save times newId groupId title options
    (self : TodoManager.t) (gid x : string) :
  o_groupId options = Some gid ->
  gid <> "" ->
  gid ∈ (TodoGroup.id <$> groups self) ->
  let run := addTodo save times newId groupId title options self in
  run.1 = Ret x ->
  exists i g g',
    groups self !! i = Some g /\ TodoGroup.id g = gid
    /\ (forall j h, groups self !! j = Some h -> (j < i)%nat ->
                    TodoGroup.id h <> gid)
    /\ groups run.2 !! i = Some g'
    /\ last (TodoGroup.todos g')
       = Some (made (todoCreated times) (todoUpdated times) newId title options)
    /\ removelast (TodoGroup.todos g') = TodoGroup.todos g
    /\ TodoGroup.updatedAt g' = groupTouched times
    /\ length (groups run.2) = length (groups self)
    /\ currentGroup run.2 = currentGroup self.
Proof.
  intros Hopt Hne Hin run Hret. subst run.
  destruct (wanted_named self options gid Hopt Hne Hin)
    as (i & g & Hw & Hg & Hid & Hleast).
  assert (forall k, wanted self options = Some k -> is_Some (groups self !! k))
    as Hlisted.
  { intros k. rewrite Hw. intros [= <-]. by exists g. }
  destruct (addTodo_run _ _ _ _ _ _ _ _ Hlisted Hret)
    as (_ & i' & gs & g0 & -> & Hg0 & Hcase).
  rewrite Hw in Hcase |- *. destruct Hcase as (<- & ->).
  rewrite Hg in Hg0. injection Hg0 as <-.
  exists i, g, (pushed (groupTouched times)
                  (made (todoCreated times) (todoUpdated times) newId title
                     options) g).
  repeat split; try done.
  - simpl. apply list_lookup_insert_eq. by eapply lookup_lt_Some.
  - simpl. apply last_snoc.
  - simpl. apply removelast_last.
  - simpl. apply length_insert.
Qed.

Definition two_groups : TodoManager.t :=
  TodoManager.Build "/home/u/app" "session" (Some 1%nat)
    [sample_group "g" GroupStatus.completed [finished];
     sample_group "h" GroupStatus.pending [waiting]].

Lemma addTodo_goes_to_named_group_witness :
  let options := Build_AddOptions None None None None None (Some "g") in
  let run := addTodo saved sample_times "t9" "g9" "write tests" options
               two_groups in
  exists i g g',
    groups two_groups !! i = Some g /\ TodoGroup.id g = "g"
    /\ (forall j h, groups two_groups !! j = Some h -> (j < i)%nat ->
                    TodoGroup.id h <> "g")
    /\ groups run.2 !! i = Some g'
    /\ last (TodoGroup.todos g') = Some (made 9 10 "t9" "write tests" options)
    /\ removelast (TodoGroup.todos g') = TodoGroup.todos g
    /\ TodoGroup.updatedAt g' = 13%Z
    /\ length (groups run.2) = length (groups two_groups)
    /\ currentGroup run.2 = currentGroup two_groups.
Proof.
  apply (addTodo_goes_to_named_group saved sample_times "t9" "g9" "write tests"
           (Build_AddOptions None None None None None (Some "g"))
           two_groups "g" "t9").
  - reflexivity.
  - discriminate.
  - apply (bool_decide_unpack ("g" ∈ (TodoGroup.id <$> groups two_groups))).
    vm_compute. exact I.
  - vm_compute. reflexivity.
Defined.

(** X8. With no current group and no group of the id asked for,
    [addTodo] opens a group titled Default Tasks at the end of the
    ledger, makes it the current group and puts the todo in it; an
    unknown group id is not an error.  Of the five readings of the
    clock the todo has the first two, the group is created at the
    third, and its update time, first the fourth, ends as the fifth. *)
Theorem addTodo_opens_default_group save times newId groupId title options
    (self : TodoManager.t) (x : string) :
  currentGroup self = None ->
  (forall gid, o_groupId options = Some gid ->
               gid ∉ (TodoGroup.id <$> groups self)) ->
  let run := addTodo save times newId groupId title options self in
  run.1 = Ret x ->
  groups run.2
    = groups self
      ++ [TodoGroup.Build groupId "Default Tasks" None
            [made (todoCreated times) (todoUpdated times) newId title options]
            GroupStatus.pending (groupCreated times) (groupTouched times)
            None None]
  /\ currentGroup run.2 = Some (length (groups self)).
Proof.
  intros Hcur Hnogroup run Hret. subst run.
  assert (wanted self options = None) as Hw.
  { unfold wanted. destruct (o_groupId options) as [gid|]; [|done].
    destruct (Js.truthy gid); [|done].
    destruct (list_find _ (groups self)) as [[i g]|] eqn:Hf; [|done].
    apply list_find_Some in Hf as (Hi & Hid & _).
    destruct (Hnogroup gid eq_refl). rewrite <- Hid.
    apply list_elem_of_fmap_2. by eapply list_elem_of_lookup_2. }
  assert (forall k, wanted self options = Some k -> is_Some (groups self !! k))
    as Hlisted by (by rewrite Hw).
  destruct (addTodo_run _ _ _ _ _ _ _ _ Hlisted Hret)
    as (_ & i & gs & g & -> & Hg & Hcase).
  rewrite Hw in Hcase |- *. destruct Hcase as (-> & ->).
  rewrite lookup_app_r, Nat.sub_diag in Hg by lia. injection Hg as <-.
  split; [|done]. simpl.
  rewrite insert_app_r_alt, Nat.sub_diag by lia. done.
Qed.

Definition empty_ledger : TodoManager.t :=
  TodoManager.Build "/home/u/app" "session" None [].

Lemma addTodo_opens_default_group_witness :
  let options := Build_AddOptions None None None None None (Some "gone") in
  let run := addTodo saved sample_times "t9" "g9" "write tests" options
               empty_ledger in
  groups run.2
    = groups empty_ledger
      ++ [TodoGroup.Build "g9" "Default Tasks" None
            [made 9 10 "t9" "write tests" options] GroupStatus.pending 11 13
            None None]
  /\ currentGroup run.2 = Some (length (groups empty_ledger)).
Proof.
  apply (addTodo_opens_default_group saved sample_times "t9" "g9" "write tests"
           (Build_AddOptions None None None None None (Some "gone"))
           empty_ledger "t9").
  - reflexivity.
  - intros gid _ Hin. vm_compute in Hin. by apply elem_of_nil in Hin.
  - vm_compute. reflexivity.
Defined.

(** ** Resuming *)

Lemma filter_middle_empty (P : Todo.t -> Prop) `{!forall x, Decision (P x)}
    (pre post : list Todo.t) (t u : Todo.t) :
  filter P (pre ++ t :: post) = [] -> P u ->
  filter P (pre ++ u :: post) = [u].
Proof.
  rewrite !filter_app, !filter_cons. intros Hempty Hu.
  apply app_eq_nil in Hempty as (-> & Hrest).
  destruct (decide (P t)); [done|]. rewrite Hrest.
  by rewrite decide_True.
Qed.

(** X9. The todo that [continueFromLastCheckpoint] hands back is, in
    the ledger it leaves, the todo in progress: [getCurrentTodo] gives
    the todo of that id, and asking again returns it again and changes
    nothing. *)
Theorem continue_is_resumable save now groupNow later groupLater
    (self : TodoManager.t) (resumed : Todo.t) :
  let run := continueFromLastCheckpoint save now groupNow self in
  run.1 = Ret (Some resumed) ->
  exists current,
    getCurrentTodo run.2 = Some current
    /\ Todo.id current = Todo.id resumed
    /\ Todo.status current = Status.in_progress
    /\ continueFromLastCheckpoint save later groupLater run.2
       = (Ret (Some current), run.2).
Proof.
  intros run Hret.
  assert (forall s current, getCurrentTodo s = Some current ->
            continueFromLastCheckpoint save later groupLater s
            = (Ret (Some current), s))
    as Hagain.
  { intros s current Hcur.
    unfold continueFromLastCheckpoint, mbind, M_bind, bind, get. simpl.
    by rewrite Hcur. }
  assert (forall s current, getCurrentTodo s = Some current ->
            Todo.status current = Status.in_progress) as Hstatus.
  { intros s current Hcur. unfold getCurrentTodo in Hcur.
    by apply head_Some_elem_of, list_elem_of_filter in Hcur as [? _]. }
  subst run.
  destruct (getCurrentTodo self) as [currentTodo|] eqn:Hcur.
  - rewrite continue_state, Hcur.
    unfold continueFromLastCheckpoint, mbind, M_bind, bind, get, ret in Hret.
    simpl in Hret. rewrite Hcur in Hret. injection Hret as <-.
    exists currentTodo.
    split; [done|]. split; [done|]. split; [by eapply Hstatus|by apply Hagain].
  - destruct (nextTodoAt self) as [[place nextTodo]|] eqn:Hnext.
    + pose proof (nextTodoAt_lookup _ _ _ Hnext) as [Hplace _].
      destruct (findTodo_present self nextTodo) as [[[[gi ti] g] t] Hf].
      { by eapply list_elem_of_lookup_2. }
      assert (Todo.id resumed = Todo.id nextTodo) as Hsame.
      { by destruct (continue_starts _ _ _ _ _ _ _ _ _ _ _ Hcur Hnext Hf Hret)
          as [_ [[_ ->]|[_ ->]]]. }
      rewrite continue_state, Hcur, getNextTodo_at, Hnext. simpl.
      rewrite (updateTodoStatus_state save now groupNow _ _ _ _ _ _ _ _ Hf).
      pose proof (findTodo_Some _ _ _ _ _ _ Hf) as (Hg & Ht & Hid).
      pose proof (getAllTodos_split self gi ti g t Hg Ht) as Hbefore.
      pose proof (getAllTodos_altered self gi ti g t
                    (set_status now Status.in_progress None) _ Hg Ht
                    (updateGroupStatus_todos groupNow
                       (with_todos g
                          (alter (set_status now Status.in_progress None) ti
                             (TodoGroup.todos g))))) as Hafter.
      match type of Hafter with getAllTodos ?s = _ => set (after := s) in * end.
      assert (getCurrentTodo after
              = Some (set_status now Status.in_progress None t)) as Hnow.
      { unfold getCurrentTodo in Hcur |- *. rewrite Hafter.
        rewrite (filter_middle_empty _ _ _ t); [done| |done].
        rewrite Hbefore in Hcur.
        by destruct (filter _ (before self gi ti g ++ t :: behind self gi ti g)). }
      exists (set_status now Status.in_progress None t).
      split; [done|]. split; [simpl; congruence|].
      split; [done|by apply Hagain].
    + unfold continueFromLastCheckpoint, mbind, M_bind, bind, get, ret in Hret.
      simpl in Hret. by rewrite Hcur, Hnext in Hret.
Qed.

Lemma continue_is_resumable_witness :
  let run := continueFromLastCheckpoint saved 9 10 finished_ledger in
  exists current,
    getCurrentTodo run.2 = Some current
    /\ Todo.id current = "docs"
    /\ Todo.status current = Status.in_progress
    /\ continueFromLastCheckpoint saved 12 13 run.2
       = (Ret (Some current), run.2).
Proof.
  apply (continue_is_resumable saved 9 10 12 13 finished_ledger
           (set_status 9 Status.in_progress None waiting)).
  vm_compute. reflexivity.
Defined.

(** ** Skipping *)

(** The description a skipped todo is left with. *)
Definition annotated (why : string) (todo : Todo.t) : Todo.t :=
  Todo.Build (Todo.id todo) (Todo.title todo)
    (Some (default "" (Todo.description todo) +:+
           String Js.nl ("[SKIPPED: " +:+ why +:+ "]")))
    (Todo.status todo) (Todo.priority todo)
    (Todo.createdAt todo) (Todo.updatedAt todo)
    (Todo.estimatedTokens todo) (Todo.actualTokens todo)
    (Todo.dependencies todo) (Todo.tags todo).

(** X10. [skipTodo] with a reason first stores and saves the status
    skipped, and only then, when the save went through, writes the
    reason into the description of the todo in memory: what was saved
    does not hold the reason.  When the save throws, the todo is
    skipped in memory and has no reason. *)
Theorem skipTodo_annotates_after_saving save now groupNow
    (self : TodoManager.t) (todoId why : string) (gi ti : nat) (g : TodoGroup.t) (t : Todo.t) :
  findTodo self todoId = Some (gi, ti, g, t) ->
  why <> "" ->
  let stored :=
    (updateTodoStatus save now groupNow todoId Status.skipped None self).2 in
  let run := skipTodo save now groupNow todoId (Some why) self in
  exists pre post,
    getAllTodos self = pre ++ t :: post
    /\ getAllTodos stored
       = pre ++ set_status now Status.skipped None t :: post
    /\ run.1 = save stored
    /\ (save stored = Ret tt ->
        getAllTodos run.2
        = pre ++ annotated why (set_status now Status.skipped None t) :: post)
    /\ (forall e, save stored = Threw e -> run.2 = stored).
Proof.
  intros Hf Hne stored run.
  pose proof (findTodo_Some _ _ _ _ _ _ Hf) as (Hg & Ht & Hid).
  pose proof (getAllTodos_split self gi ti g t Hg Ht) as Hbefore.
  pose proof (updateTodoStatus_state save now groupNow _ Status.skipped None
                _ _ _ _ _ Hf) as Hstored.
  fold stored in Hstored.
  pose proof (getAllTodos_altered self gi ti g t
                (set_status now Status.skipped None) _ Hg Ht
                (updateGroupStatus_todos groupNow
                   (with_todos g
                      (alter (set_status now Status.skipped None) ti
                         (TodoGroup.todos g))))) as Hafter.
  rewrite <- Hstored in Hafter.
  assert (updateTodoStatus save now groupNow todoId Status.skipped None self
          = (save stored, stored)) as Hrun.
  { subst stored. unfold updateTodoStatus, mbind, M_bind, bind, get. simpl.
    rewrite Hf. reflexivity. }
  exists (before self gi ti g), (behind self gi ti g).
  split; [done|]. split; [done|].
  subst run. unfold skipTodo, mbind, M_bind, bind, get. simpl.
  rewrite Hf, Hrun. destruct why as [|c why]; [done|]. simpl.
  destruct (save stored) as [[]|e] eqn:Hsave; simpl.
  - split; [done|]. split; [|done]. intros _.
    set (why' := String c why).
    change (fun todo : Todo.t => Todo.Build _ _ _ _ _ _ _ _ _ _ _)
      with (annotated why').
    rewrite Hstored. unfold with_groups at 1. simpl.
    rewrite (alter_as_insert _ _ gi
               (updateGroupStatus groupNow
                  (with_todos g
                     (alter (set_status now Status.skipped None) ti
                        (TodoGroup.todos g)))))
      by (apply list_lookup_insert_eq; by eapply lookup_lt_Some).
    rewrite list_insert_insert_eq.
    apply (getAllTodos_altered self gi ti g t
             (fun todo => annotated why' (set_status now Status.skipped None todo))
             _ Hg Ht).
    simpl. rewrite updateGroupStatus_todos. simpl.
    by rewrite list_alter_alter_eq.
  - split; [done|]. split; [done|]. by intros e' _.
Qed.

Lemma skipTodo_annotates_after_saving_witness :
  let stored :=
    (updateTodoStatus saved 9 10 "docs" Status.skipped None finished_ledger).2 in
  let run := skipTodo saved 9 10 "docs" (Some "later") finished_ledger in
  exists pre post,
    getAllTodos finished_ledger = pre ++ waiting :: post
    /\ getAllTodos stored
       = pre ++ set_status 9 Status.skipped None waiting :: post
    /\ run.1 = saved stored
    /\ (saved stored = Ret tt ->
        getAllTodos run.2
        = pre ++ annotated "later" (set_status 9 Status.skipped None waiting)
                 :: post)
    /\ (forall e, saved stored = Threw e -> run.2 = stored).
Proof.
  apply (skipTodo_annotates_after_saving saved 9 10 finished_ledger "docs"
           "later" 0 1 (sample_group "g" GroupStatus.in_progress [finished; waiting])
           waiting).
  - vm_compute. reflexivity.
  - discriminate.
Defined.

End LedgerMore.

(** * More of plan execution: what the result accounts for *)

Module ExecMore.
Import FileGenerator Exec ExecProps.

Section Accounting.
Context {W : Type} `{!Externals W}.
Variable cwd : string.
Variable self : FileGenerator.t.

(** ** What one turn of the loop does to the result *)

(** The five things a turn of the loop can do to the result. *)
Inductive turn (op : FileOperation) (r : GenerationResult)
  : GenerationResult -> Prop :=
| turn_written : turn op r (record_result op r)
| turn_failed e : turn op r (failure_result op e r)
| turn_skipped : turn op r (push_skipped (path op) r)
| turn_edit :
    turn op r (push_error ("Edit mode not yet implemented for " +:+ path op)
                 (push_skipped (path op) r))
| turn_nothing : turn op r r.

Lemma recorded_result op (s : state W) :
  result (recorded op s) = record_result op (result s).
Proof. unfold recorded, record_result. by destruct (type op). Qed.

Lemma process_operation_turn (cb : @callback W) op (s : state W) :
  turn op (result s) (result (process_operation cwd self cb op s).2).
Proof.
  rewrite process_operation_eq, attempt_eq.
  pose proof (decide_approval_result cb op s) as Hres.
  destruct (decide_approval cb op s) as [[d|e] s1]; simpl in Hres.
  - destruct d; simpl; rewrite <- ?Hres; try constructor.
    rewrite executeFileOperation_eq. simpl.
    destruct (apply_op cwd self op (world s1)) as [[[]|e] w']; simpl.
    + rewrite recorded_result. simpl. constructor.
    + apply (turn_failed op (result s1) e).
  - simpl. rewrite <- Hres. apply (turn_failed op (result s1) e).
Qed.

(** The operations [written] and [skipped_] were picked from [ops],
    in order and none of them twice, and [r'] lists them after what
    [r] lists. *)
Definition accounts (ops : list FileOperation) (r r' : GenerationResult)
  : Prop :=
  exists written skipped_ : list FileOperation,
    written `sublist_of` ops
    /\ skipped_ `sublist_of` ops
    /\ (written ++ skipped_) ⊆+ ops
    /\ filesCreated r'
       = filesCreated r ++ (path <$> filter (fun o => type o = create) written)
    /\ filesModified r'
       = filesModified r ++ (path <$> filter (fun o => type o = modify) written)
    /\ filesSkipped r' = filesSkipped r ++ (path <$> skipped_)
    /\ gitCommit r' = gitCommit r
    /\ branchCreated r' = branchCreated r.

Lemma turn_accounts op r r' : turn op r r' -> accounts [op] r r'.
Proof.
  intros [ |e| | | ].
  - exists [op], []. rewrite app_nil_r.
    destruct (record_result_rest op r) as (Hk & _ & _).
    repeat split; try done.
    + by apply sublist_nil_l.
    + apply record_result_created.
    + apply record_result_modified.
    + by rewrite Hk, app_nil_r.
    + unfold record_result. by destruct (type op).
    + unfold record_result. by destruct (type op).
  - exists [], []. simpl. rewrite !app_nil_r.
    repeat split; try done; try apply sublist_nil_l. apply submseteq_nil_l.
  - exists [], [op]. simpl. rewrite !app_nil_r.
    repeat split; try done. apply sublist_nil_l.
  - exists [], [op]. simpl. rewrite !app_nil_r.
    repeat split; try done. apply sublist_nil_l.
  - exists [], []. simpl. rewrite !app_nil_r.
    repeat split; try done; try apply sublist_nil_l. apply submseteq_nil_l.
Qed.

Lemma accounts_nil r : accounts [] r r.
Proof.
  exists [], []. simpl. rewrite !app_nil_r. repeat split; try done.
Qed.

Lemma accounts_app ops1 ops2 r r1 r2 :
  accounts ops1 r r1 -> accounts ops2 r1 r2 -> accounts (ops1 ++ ops2) r r2.
Proof.
  intros (w1 & k1 & Hw1 & Hk1 & Hm1 & Hc1 & Hf1 & Hs1 & Hg1 & Hb1)
         (w2 & k2 & Hw2 & Hk2 & Hm2 & Hc2 & Hf2 & Hs2 & Hg2 & Hb2).
  exists (w1 ++ w2), (k1 ++ k2). repeat split.
  - by apply sublist_app.
  - by apply sublist_app.
  - transitivity ((w1 ++ k1) ++ (w2 ++ k2)); [|by apply submseteq_app].
    apply Permutation_submseteq.
    rewrite <- !app_assoc. apply Permutation_app_head.
    rewrite !app_assoc. apply Permutation_app_tail, Permutation_app_comm.
  - by rewrite Hc2, Hc1, filter_app, fmap_app, app_assoc.
  - by rewrite Hf2, Hf1, filter_app, fmap_app, app_assoc.
  - by rewrite Hs2, Hs1, fmap_app, app_assoc.
  - congruence.
  - congruence.
Qed.

Lemma after_accounts (cb : @callback W) ops (s : state W) :
  accounts ops (result s) (result (after cwd self cb ops s)).
Proof.
  revert s. induction ops as [|op ops IH]; intros s; [apply accounts_nil|].
  rewrite after_cons. change (op :: ops) with ([op] ++ ops).
  eapply accounts_app; [|apply IH].
  rewrite after_one. apply turn_accounts, process_operation_turn.
Qed.

(** ** Who was asked *)

Lemma process_operation_asked (cb : @callback W) op (s : state W) :
  asked (process_operation cwd self cb op s).2
  = if autoMode s then asked s else asked s ++ [op].
Proof.
  rewrite process_operation_eq, attempt_eq, decide_approval_eq.
  destruct (autoMode s) eqn:Hauto.
  - destruct (executeFileOperation_frame cwd self op s) as [w' Hw'].
    destruct (executeFileOperation cwd self op s) as [[[]|e] s2];
      simpl in *; subst s2; [|done].
    unfold recorded. by destruct (type op).
  - destruct (cb op (world s)) as [[d|e] w1]; [|done].
    destruct d; simpl; try done.
    + destruct (executeFileOperation_frame cwd self op
                  (prompted op w1 false s)) as [w' Hw'].
      destruct (executeFileOperation cwd self op _) as [[[]|e] s2];
        simpl in *; subst s2; [|done].
      unfold recorded. by destruct (type op).
    + destruct (executeFileOperation_frame cwd self op
                  (prompted op w1 true s)) as [w' Hw'].
      destruct (executeFileOperation cwd self op _) as [[[]|e] s2];
        simpl in *; subst s2; [|done].
      unfold recorded. by destruct (type op).
Qed.

Lemma after_asked (cb : @callback W) ops (s : state W) :
  exists k,
    asked (after cwd self cb ops s) = asked s ++ take k ops
    /\ (autoMode (after cwd self cb ops s) = false ->
        k = length ops /\ autoMode s = false).
Proof.
  revert s. induction ops as [|op ops IH]; intros s.
  - exists 0%nat. simpl. by rewrite app_nil_r.
  - destruct (autoMode s) eqn:Hauto.
    + destruct (auto_run cwd self cb (op :: ops) s Hauto) as (Hm & Ha & _).
      exists 0%nat. simpl. rewrite app_nil_r. split; [done|].
      rewrite Hm. done.
    + rewrite after_cons, after_one.
      destruct (IH (process_operation cwd self cb op s).2) as (k & Hk & Hall).
      exists (S k). rewrite Hk, process_operation_asked, Hauto.
      simpl. rewrite <- app_assoc. split; [done|].
      intros Hm. destruct (Hall Hm) as [-> _]. done.
Qed.

End Accounting.

(** ** The run as a whole *)

(** X11. [executeGenerationPlan] does not throw: whatever the
    callback, the filesystem and git do, the three stages of its body
    run to their end. *)
Theorem run_never_throws {W : Type} `{!Externals W} (cwd : string)
    (self : FileGenerator.t) (cb : callback) (plan : FileGenerationPlan)
    (w : W) :
  ((setup_branch plan ;;
    process_all cwd self cb (files plan) ;;
    auto_commit self plan) (initial_state w)).1 = Ret tt.
Proof.
  unfold mbind, M_bind, bind.
  destruct (setup_branch_frame plan (initial_state w)) as [Hret _].
  destruct (setup_branch plan (initial_state w)) as [[[]|e] s1]; [|done].
  pose proof (process_all_returns cwd self cb (files plan) s1) as Hret'.
  destruct (process_all cwd self cb (files plan) s1) as [[[]|e] s2]; [|done].
  apply auto_commit_frame.
Qed.


(** X13. The callback is asked about the operations in plan order,
    without a gap and each at most once: the log of its invocations is
    a prefix of the plan.  When auto mode is still off at the end, it
    was asked about every operation. *)
Theorem asked_is_a_prefix_of_the_plan {W : Type} `{!Externals W}
    (cwd : string) (self : FileGenerator.t) (cb : callback)
    (plan : FileGenerationPlan) (w : W) :
  let final := run_plan cwd self cb plan w in
  asked final `prefix_of` files plan
  /\ (autoMode final = false -> asked final = files plan).
Proof.
  intros final. subst final. rewrite run_plan_eq.
  destruct (auto_commit_frame self plan
              (after cwd self cb (files plan) (after_setup plan w)))
    as (_ & -> & -> & _).
  destruct (after_asked cwd self cb (files plan) (after_setup plan w))
    as (k & -> & Hall).
  destruct (after_setup_initial plan w) as (_ & -> & _). simpl.
  split.
  - exists (drop k (files plan)). by rewrite take_drop.
  - intros Hm. destruct (Hall Hm) as [-> _]. by rewrite firstn_all.
Qed.

(** A callback that declines: whatever it is asked, it answers [skip]
    or [edit] and leaves the world alone. *)
Definition declines {W : Type} (cb : @callback W) : Prop :=
  forall op w, exists d, cb op w = (Ret d, w) /\ (d = skip \/ d = edit).

Lemma declined_loop {W : Type} `{!Externals W} (cwd : string)
    (self : FileGenerator.t) (cb : callback) ops (s : state W) :
  declines cb -> autoMode s = false ->
  let s' := after cwd self cb ops s in
  world s' = world s /\ autoMode s' = false
  /\ filesCreated (result s') = filesCreated (result s)
  /\ filesModified (result s') = filesModified (result s)
  /\ filesSkipped (result s') = filesSkipped (result s) ++ (path <$> ops)
  /\ success (result s') = success (result s)
  /\ gitCommit (result s') = gitCommit (result s).
Proof.
  intros Hcb. revert s. induction ops as [|op ops IH]; intros s Hauto.
  - simpl. by rewrite app_nil_r.
  - intros s'. subst s'. rewrite after_cons, after_one.
    assert (let s1 := (process_operation cwd self cb op s).2 in
            world s1 = world s /\ autoMode s1 = false
            /\ filesCreated (result s1) = filesCreated (result s)
            /\ filesModified (result s1) = filesModified (result s)
            /\ filesSkipped (result s1) = filesSkipped (result s) ++ [path op]
            /\ success (result s1) = success (result s)
            /\ gitCommit (result s1) = gitCommit (result s)) as Hstep.
    { rewrite process_operation_eq, attempt_eq, decide_approval_eq, Hauto.
      destruct (Hcb op (world s)) as (d & -> & [-> | ->]); by simpl. }
    destruct Hstep as (Hw & Hm & Hc & Hf & Hk & Hs & Hg).
    destruct (IH _ Hm) as (Hw' & Hm' & Hc' & Hf' & Hk' & Hs' & Hg').
    rewrite Hw', Hc', Hf', Hk', Hs', Hg', Hk. simpl.
    rewrite <- app_assoc. done.
Qed.

(** X14. When the callback declines every operation, the loop and the
    auto-commit write nothing: the world is the one branch set-up
    left, nothing is created or modified, every path of the plan is in
    the skipped list in plan order, no commit is made, and success
    stays true. *)
Theorem declining_writes_nothing {W : Type} `{!Externals W} (cwd : string)
    (self : FileGenerator.t) (cb : callback) (plan : FileGenerationPlan)
    (w : W) :
  declines cb ->
  let final := run_plan cwd self cb plan w in
  world final = world (after_setup plan w)
  /\ filesCreated (result final) = []
  /\ filesModified (result final) = []
  /\ filesSkipped (result final) = path <$> files plan
  /\ gitCommit (result final) = None
  /\ success (result final) = true
  /\ asked final = files plan.
Proof.
  intros Hcb final.
  destruct (after_setup_initial plan w)
    as (Hm0 & Ha0 & Hs0 & Hc0 & Hf0 & Hk0 & _).
  simpl in *.
  assert (gitCommit (result (after_setup plan w)) = None) as Hg0.
  { unfold after_setup, setup_branch.
    destruct (bool_decide _ && Js.truthy _); [|done].
    unfold try_catch, call, mbind, M_bind, bind, with_result, modify_, ret.
    simpl. destruct (git_getStatus w) as [[[]|e] w1]; simpl; try done.
    by destruct (git_createBranch _ w1) as [[b|e] w2]. }
  destruct (declined_loop cwd self cb (files plan) (after_setup plan w) Hcb Hm0)
    as (Hw & Hm & Hc & Hf & Hk & Hs & Hg).
  rewrite Hc0 in Hc. rewrite Hf0 in Hf. rewrite Hk0 in Hk. rewrite Hs0 in Hs.
  rewrite Hg0 in Hg. simpl in Hk.
  assert (final = after cwd self cb (files plan) (after_setup plan w)) as ->.
  { subst final. rewrite run_plan_eq.
    unfold auto_commit, mbind, M_bind, bind, get. simpl.
    rewrite Hc, Hf. simpl. by rewrite andb_false_r. }
  repeat split; try done.
  destruct (after_asked cwd self cb (files plan) (after_setup plan w))
    as (k & -> & Hall).
  destruct (Hall Hm) as [-> _]. rewrite Ha0. simpl. by rewrite firstn_all.
Qed.

Definition always_skip : @callback Sim.world := fun _ w => (Ret skip, w).

Lemma declining_writes_nothing_witness :
  let final := run_plan Sim.root Sim.generator always_skip three_files
                 Sim.empty_disk in
  world final = world (after_setup three_files Sim.empty_disk)
  /\ filesCreated (result final) = []
  /\ filesModified (result final) = []
  /\ filesSkipped (result final) = path <$> files three_files
  /\ gitCommit (result final) = None
  /\ success (result final) = true
  /\ asked final = files three_files.
Proof.
  apply (declining_writes_nothing Sim.root Sim.generator always_skip
           three_files Sim.empty_disk).
  intros op w. exists skip. split; [reflexivity|]. left. reflexivity.
Defined.

(** ** The git fields of the result *)

Lemma setup_branch_fields {W : Type} `{!Externals W}
    (plan : FileGenerationPlan) (w : W) :
  gitCommit (result (after_setup plan w)) = None
  /\ forall b, branchCreated (result (after_setup plan w)) = Some b ->
       gitStrategy plan = new_branch /\ branchName plan = Some b /\ b <> ""
       /\ exists w1 name w2,
            git_getStatus w = (Ret true, w1)
            /\ git_createBranch (sanitizeFeatureName (feature plan)) w1
               = (Ret name, w2).
Proof.
  unfold after_setup, setup_branch.
  destruct (bool_decide (gitStrategy plan = new_branch)) eqn:Hstrategy;
    [|done].
  apply bool_decide_eq_true in Hstrategy.
  destruct (branchName plan) as [b0|] eqn:Hname; [|done]. simpl.
  destruct (Js.truthy b0) eqn:Htruthy; [|done].
  unfold try_catch, call, mbind, M_bind, bind, with_result, modify_, ret.
  simpl. destruct (git_getStatus w) as [[[]|e] w1]; simpl; try done.
  destruct (git_createBranch _ w1) as [[name|e] w2] eqn:Hbranch; simpl;
    [|done].
  split; [done|]. intros b [= <-]. repeat split; try done.
  - intros ->. done.
  - by exists w1, name, w2.
Qed.

(** X15. The result names a branch only when the plan asked for a new
    branch, git reported a repository and creating the branch did not
    throw, and the name is the one the plan carries; it names a commit
    only when auto-commit is configured, something was created or
    modified, and the commit of exactly the created and then the
    modified paths did not throw. *)
Theorem git_fields_are_earned {W : Type} `{!Externals W} (cwd : string)
    (self : FileGenerator.t) (cb : callback) (plan : FileGenerationPlan)
    (w : W) :
  let r := (executeGenerationPlan cwd self cb plan w).1 in
  let loop_end := after cwd self cb (files plan) (after_setup plan w) in
  (forall b, branchCreated r = Some b ->
     gitStrategy plan = new_branch /\ branchName plan = Some b /\ b <> ""
     /\ exists w1 name w2,
          git_getStatus w = (Ret true, w1)
          /\ git_createBranch (sanitizeFeatureName (feature plan)) w1
             = (Ret name, w2))
  /\ (forall msg, gitCommit r = Some msg ->
       GitManager.autoCommit (gitConfig self) = true
       /\ (filesCreated r <> [] \/ filesModified r <> [])
       /\ msg = git_generateCommitMessage (filesCreated r ++ filesModified r)
                  (feature plan) (world loop_end)
       /\ (git_commit msg (filesCreated r ++ filesModified r)
             (world loop_end)).1 = Ret tt).
Proof.
  intros r loop_end. subst r. unfold executeGenerationPlan. simpl.
  rewrite run_plan_eq. fold loop_end.
  destruct (setup_branch_fields plan w) as (Hcommit0 & Hbranch0).
  destruct (after_accounts cwd self cb (files plan) (after_setup plan w))
    as (_ & _ & _ & _ & _ & _ & _ & _ & Hcommit & Hbranch).
  fold loop_end in Hcommit, Hbranch. rewrite Hcommit0 in Hcommit.
  rewrite <- Hbranch in Hbranch0.
  destruct (auto_commit_frame self plan loop_end)
    as (_ & _ & _ & _ & Hc & Hf & _).
  revert Hc Hf.
  unfold auto_commit, mbind, M_bind, bind, get. simpl.
  destruct (GitManager.autoCommit (gitConfig self)); simpl.
  2: { intros _ _. split; [done|]. intros msg Hmsg. pose proof (eq_trans (eq_sym Hcommit) Hmsg) as Hno. discriminate Hno. }
  destruct ((0 <? length (filesCreated (result loop_end)))%nat
            || (0 <? length (filesModified (result loop_end)))%nat) eqn:Hany.
  2: { intros _ _. split; [done|]. intros msg Hmsg. pose proof (eq_trans (eq_sym Hcommit) Hmsg) as Hno. discriminate Hno. }
  unfold try_catch, call, mbind, M_bind, bind, with_result, modify_, ret.
  destruct loop_end as [r m a w']. simpl in *.
  destruct (git_commit _ _ w') as [[[]|e] w1] eqn:Hgit; simpl.
  - intros _ _. split; [done|]. intros msg [= <-].
    split; [done|]. split; [|split; [done|by rewrite Hgit]].
    apply orb_true_iff in Hany as [Hlen|Hlen]; [left|right];
      apply Nat.ltb_lt in Hlen; intros Hnil; rewrite Hnil in Hlen;
      simpl in Hlen; lia.
  - intros _ _. split; [done|]. intros msg Hmsg.
    pose proof (eq_trans (eq_sym Hcommit) Hmsg) as Hno. discriminate Hno.
Qed.

End ExecMore.

(** * More of the parser: the shape of a parsed operation *)

Module ParserMore.
Import Regex FileGenerator ParserProps.

Global Instance FileOperation_eq_dec : EqDecision FileOperation.
Proof. solve_decision. Defined.

Lemma split_chars_not_nil sep cur l : Js.split_chars sep cur l <> [].
Proof.
  revert cur. induction l as [|c l IH]; intros cur; simpl; [done|].
  destruct (Js.eqc c sep); [done|apply IH].
Qed.

Lemma split_length sep s : (1 <= length (Js.split sep s))%nat.
Proof.
  unfold Js.split. rewrite length_map.
  pose proof (split_chars_not_nil sep [] (Js.chars s)) as Hne.
  destruct (Js.split_chars sep [] (Js.chars s)); [done|simpl; lia].
Qed.

Section Shape.
Context {W : Type} `{!Externals W}.
Variable cwd : string.
Variable self : FileGenerator.t.
Variable w : W.

(** Where an operation writes. *)
Definition target (op : FileOperation) : string :=
  NodePath.resolve cwd [projectRoot self; path op].

(** What [push_candidate] makes of a candidate it accepts. *)
Record pushed_as (filePath text : string) (lines : nat) (readBackup : bool)
    (op : FileOperation) : Prop := {
  pushed_path : path op = filePath;
  pushed_content : content op = text;
  pushed_lines : estimatedLines op = lines;
  pushed_safe :
    DirectorySafety.isPathSafe cwd (directorySafety self) (target op) = true;
  pushed_type :
    type op = if fs_existsSync (target op) w then modify else create;
  pushed_description :
    description op
    = generateFileDescription (path op) (fs_existsSync (target op) w);
  pushed_backup :
    backup op
    = if fs_existsSync (target op) w && readBackup
      then match fs_readFileSync (target op) w with
           | Ret old => Some old
           | Threw _ => None
           end
      else None;
  pushed_read :
    fs_existsSync (target op) w && readBackup = true ->
    exists old, fs_readFileSync (target op) w = Ret old
}.

Lemma push_candidate_inv filePath text lines readBackup acc :
  push_candidate cwd self w filePath text lines readBackup acc = acc
  \/ exists op,
       push_candidate cwd self w filePath text lines readBackup acc
         = acc ++ [op]
       /\ pushed_as filePath text lines readBackup op.
Proof.
  unfold push_candidate, DirectorySafety.validatePath.
  destruct (DirectorySafety.isPathSafe cwd (directorySafety self) _) eqn:Hsafe;
    simpl; [|by left].
  destruct (fs_existsSync _ w && readBackup) eqn:Hold.
  - destruct (fs_readFileSync _ w) as [old|e] eqn:Hread; [|by left].
    right. eexists. split; [reflexivity|].
    split; unfold target; simpl; try done.
    + by rewrite Hold, Hread.
    + intros _. by exists old.
  - right. eexists. split; [reflexivity|].
    split; unfold target; simpl; try done.
    + by rewrite Hold.
    + by rewrite Hold.
Qed.

(** A loop that adds at most one operation per match keeps whatever
    holds of each operation it adds. *)
Lemma fold_adds {X} (step : list FileOperation -> X -> list FileOperation)
    (P : FileOperation -> Prop) :
  (forall acc x, step acc x = acc \/ exists op, step acc x = acc ++ [op] /\ P op) ->
  forall ms acc, exists added,
    foldl step acc ms = acc ++ added /\ Forall P added.
Proof.
  intros Hstep ms. induction ms as [|x ms IH]; intros acc; simpl.
  - exists []. by rewrite app_nil_r.
  - destruct (Hstep acc x) as [->|(op & -> & Hop)]; [apply IH|].
    destruct (IH (acc ++ [op])) as (added & -> & Hadded).
    exists (op :: added). rewrite <- app_assoc. split; [done|].
    by constructor.
Qed.

(** An operation that came from a fenced region. *)
Definition from_region (op : FileOperation) : Prop :=
  exists text lines, (1 <= lines)%nat /\ pushed_as (path op) text lines true op.

(** An operation that came from a mention in the prose. *)
Definition from_mention (op : FileOperation) : Prop :=
  pushed_as (path op) "// TODO: Implementation needed" 10 false op.

Lemma fenced_step_inv acc x :
  fenced_step cwd self w acc x = acc
  \/ exists op, fenced_step cwd self w acc x = acc ++ [op] /\ from_region op.
Proof.
  unfold fenced_step.
  destruct (Js.str <$> group 1 (m_caps x)) as [pc|]; [|by left].
  destruct (Js.truthy pc); [|by left].
  destruct (extractFilePath pc) as [filePath|]; [|by left].
  destruct (Js.truthy filePath); [|by left].
  destruct (push_candidate_inv filePath
              (Js.trim (default "" (Js.str <$> group 2 (m_caps x))))
              (length (Js.split Js.nl (default "" (Js.str <$> group 2 (m_caps x)))))
              true acc) as [->|(op & -> & Hop)]; [by left|].
  right. exists op. split; [done|]. eexists _, _. split; [|].
  - apply split_length.
  - by rewrite (pushed_path _ _ _ _ _ Hop).
Qed.

Lemma explicit_step_inv acc x :
  explicit_step cwd self w acc x = acc
  \/ exists op, explicit_step cwd self w acc x = acc ++ [op] /\ from_mention op.
Proof.
  unfold explicit_step.
  destruct (negb _); [|by left].
  destruct (push_candidate_inv
              (default "" (Js.str <$> group 1 (m_caps x)))
              "// TODO: Implementation needed" 10 false acc)
    as [->|(op & -> & Hop)]; [by left|].
  right. exists op. split; [done|]. unfold from_mention.
  by rewrite (pushed_path _ _ _ _ _ Hop).
Qed.

Lemma parse_parts text :
  exists fenced mentioned,
    parseGeneratedContent cwd self w text = fenced ++ mentioned
    /\ fenced = foldl (fenced_step cwd self w) [] (exec_all fileRegex text)
    /\ Forall from_region fenced /\ Forall from_mention mentioned.
Proof.
  unfold parseGeneratedContent.
  destruct (fold_adds (fenced_step cwd self w) from_region fenced_step_inv
              (exec_all fileRegex text) []) as (fenced & Hf & Hfenced).
  destruct (fold_adds (explicit_step cwd self w) from_mention explicit_step_inv
              (exec_all explicitFileRegex text)
              (foldl (fenced_step cwd self w) [] (exec_all fileRegex text)))
    as (mentioned & Hm & Hmentioned).
  exists (foldl (fenced_step cwd self w) [] (exec_all fileRegex text)), mentioned.
  split; [done|]. split; [done|]. split; [|done]. by rewrite Hf.
Qed.
End Shape.

(** X16. Every operation of a parsed plan passed the boundary check at
    the place it would be written to; its type is [modify] exactly
    when a file exists there and [create] otherwise, never [delete];
    its description is the one for that path and that type; and it is
    estimated at one line or more. *)
Theorem parsed_operations_fit {W : Type} `{!Externals W} (cwd : string)
    (self : FileGenerator.t) (w : W) (text : string) (op : FileOperation) :
  op ∈ parseGeneratedContent cwd self w text ->
  let place := NodePath.resolve cwd [projectRoot self; path op] in
  DirectorySafety.isPathSafe cwd (directorySafety self) place = true
  /\ (type op = modify <-> fs_existsSync place w = true)
  /\ (type op = create <-> fs_existsSync place w = false)
  /\ type op <> delete
  /\ description op = generateFileDescription (path op) (fs_existsSync place w)
  /\ (1 <= estimatedLines op)%nat.
Proof.
  intros Hin place.
  assert (exists text lines rb, (1 <= lines)%nat
            /\ pushed_as cwd self w (path op) text lines rb op)
    as (t & n & rb & Hn & Hop).
  { destruct (parse_parts cwd self w text)
      as (fenced & mentioned & Heq & _ & Hf & Hm).
    rewrite Heq in Hin. apply elem_of_app in Hin as [Hin|Hin].
    - rewrite Forall_forall in Hf.
      destruct (Hf op Hin) as (t & n & Hn & Hop). by exists t, n, true.
    - rewrite Forall_forall in Hm.
      exists "// TODO: Implementation needed", 10%nat, false.
      split; [lia|]. by apply Hm. }
  destruct Hop as [_ _ Hlines Hsafe Htype Hdesc _ _].
  fold place in Hsafe, Htype, Hdesc. unfold target in *. fold place in Htype, Hdesc, Hsafe.
  split; [done|]. rewrite Htype, Hlines.
  destruct (fs_existsSync place w); repeat split; try done.
Qed.

Definition one_old_file : Sim.world :=
  Sim.World {[ "/home/u/app/src/a.ts" := "old" ]} [] false false [].

Lemma parsed_operations_fit_witness :
  let op := Build_FileOperation "src/a.ts" modify "export const a = 1;"
              (Some "old") "Modify TypeScript file a.ts" 2 in
  let place := NodePath.resolve Sim.root [projectRoot Sim.generator; path op] in
  DirectorySafety.isPathSafe Sim.root (directorySafety Sim.generator) place = true
  /\ (type op = modify <-> fs_existsSync place one_old_file = true)
  /\ (type op = create <-> fs_existsSync place one_old_file = false)
  /\ type op <> delete
  /\ description op
     = generateFileDescription (path op) (fs_existsSync place one_old_file)
  /\ (1 <= estimatedLines op)%nat.
Proof.
  apply (parsed_operations_fit Sim.root Sim.generator one_old_file
           (Sim.unlines ["```"; "// src/a.ts"; "export const a = 1;"; "```"])).
  apply (bool_decide_unpack
           (Build_FileOperation "src/a.ts" modify "export const a = 1;"
              (Some "old") "Modify TypeScript file a.ts" 2
            ∈ parseGeneratedContent Sim.root Sim.generator one_old_file
                (Sim.unlines ["```"; "// src/a.ts"; "export const a = 1;"; "```"]))).
  vm_compute. exact I.
Defined.

(** X17. An operation taken from a fenced region carries a backup
    exactly when it modifies an existing file, and the backup is the
    content of that file as read.  An operation taken from a mention in
    the prose has the placeholder text as its content, is estimated at
    10 lines and never carries a backup, also when it modifies an
    existing file. *)
Theorem backups_and_placeholders {W : Type} `{!Externals W} (cwd : string)
    (self : FileGenerator.t) (w : W) (text : string) :
  let fenced := foldl (fenced_step cwd self w) [] (exec_all fileRegex text) in
  let place op := NodePath.resolve cwd [projectRoot self; path op] in
  exists mentioned,
    parseGeneratedContent cwd self w text = fenced ++ mentioned
    /\ Forall (fun op =>
                (type op = modify <-> is_Some (backup op))
                /\ forall old, backup op = Some old ->
                     fs_readFileSync (place op) w = Ret old) fenced
    /\ Forall (fun op =>
                content op = "// TODO: Implementation needed"
                /\ estimatedLines op = 10%nat
                /\ backup op = None) mentioned.
Proof.
  intros fenced place.
  destruct (parse_parts cwd self w text)
    as (fenced' & mentioned & Heq & Hfenced & Hf & Hm).
  subst fenced'. fold fenced in Heq, Hf.
  exists mentioned. split; [done|]. split.
  - eapply Forall_impl; [exact Hf|]. intros op (t & n & _ & Hop).
    destruct Hop as [_ _ _ _ Htype _ Hbackup Hread].
    unfold target in *. fold (place op) in Htype, Hbackup, Hread.
    rewrite Htype, Hbackup.
    destruct (fs_existsSync (place op) w); simpl in *.
    + destruct (Hread eq_refl) as [old Hold]. rewrite Hold.
      split; [by split|]. by intros old' [= <-].
    + split; [|done]. split; [done|]. by intros [? ?].
  - eapply Forall_impl; [exact Hm|]. intros op Hop.
    destruct Hop as [_ Hcontent Hlines _ _ _ Hbackup _].
    rewrite Hbackup, andb_false_r. done.
Qed.

End ParserMore.

(** * The branch name *)

Module SlugProps.
Import Regex FileGenerator.

(** ** Strings as lists of characters *)

Lemma chars_str l : Js.chars (Js.str l) = l.
Proof. apply list_ascii_of_string_of_list_ascii. Qed.

Lemma str_chars s : Js.str (Js.chars s) = s.
Proof. apply string_of_list_ascii_of_string. Qed.

Lemma length_chars s : length (Js.chars s) = String.length s.
Proof. induction s as [|c s IH]; simpl; [done|]. by rewrite <- IH. Qed.

(** ** Searching and replacing *)

(** What is left after a match is a tail of the input. *)
Lemma search_rest r p l x l' :
  search r p l = Some (x, l') -> exists k, l' = drop k l.
Proof.
  revert p x l'. induction l as [|c l IH]; intros p x l'; simpl.
  - destruct (match_here r p []) as [y|]; [|done].
    intros [= <- <-]. by eexists.
  - destruct (match_here r p (c :: l)) as [y|].
    + intros [= <- <-]. by eexists.
    + intros Hs. apply IH in Hs as [k ->]. by exists (S k).
Qed.

(** Replacing puts together pieces of the input and copies of the
    replacement: what holds of every character of both holds of every
    character of the result. *)
Lemma replace_loop_Forall (P : ascii -> Prop) fuel r by_ p l :
  Forall P by_ -> Forall P l -> Forall P (replace_loop fuel r by_ p l).
Proof.
  intros Hby. revert p l. induction fuel as [|fuel IH]; intros p l Hl; [done|].
  simpl. destruct (search r p l) as [[x l']|] eqn:Hs; [|done].
  apply search_rest in Hs as [k ->].
  apply Forall_app. split; [by apply Forall_take|].
  apply Forall_app. split; [done|].
  assert (Forall P (drop k l)) as Hrest by (by apply Forall_drop).
  destruct (m_end x =? m_start x)%nat; [|by apply IH].
  destruct (drop k l) as [|c tl]; [done|].
  apply Forall_cons in Hrest as [Hc Htl]. constructor; [done|by apply IH].
Qed.

Lemma replace_all_Forall (P : ascii -> Prop) r by_ s :
  Forall P (Js.chars by_) -> Forall P (Js.chars s) ->
  Forall P (Js.chars (replace_all r by_ s)).
Proof.
  intros Hby Hs. unfold replace_all. rewrite chars_str.
  by apply replace_loop_Forall.
Qed.

(** The search for one character of a class. *)
Lemma search_Chr_None p pos l :
  search (Chr p) pos l = None -> Forall (fun c => p c = false) l.
Proof.
  revert pos. induction l as [|c l IH]; intros pos; [done|].
  simpl. unfold match_here. simpl.
  destruct (p c) eqn:Hp; [done|]. intros Hs. constructor; [done|by eapply IH].
Qed.

Lemma search_Chr_Some p pos l x l' :
  search (Chr p) pos l = Some (x, l') ->
  exists pre c,
    l = pre ++ c :: l' /\ Forall (fun c => p c = false) pre
    /\ m_start x = (pos + length pre)%nat /\ m_end x = S (m_start x).
Proof.
  revert pos x l'. induction l as [|c l IH]; intros pos x l'; [done|].
  simpl. unfold match_here. simpl.
  destruct (p c) eqn:Hp.
  - intros [= <- <-]. simpl. exists [], c. simpl.
    replace (S pos - pos)%nat with 1%nat by lia. simpl.
    rewrite drop_0. repeat split; try done; lia.
  - intros Hs. apply IH in Hs as (pre & c' & -> & Hpre & Hstart & Hend).
    exists (c :: pre), c'. simpl. repeat split; try done.
    + by constructor.
    + lia.
Qed.

(** Deleting every character of a class leaves none of them. *)
Lemma delete_class p fuel pos l :
  (length l < fuel)%nat ->
  Forall (fun c => p c = false) (replace_loop fuel (Chr p) [] pos l).
Proof.
  revert pos l. induction fuel as [|fuel IH]; intros pos l Hfuel; [lia|].
  simpl. destruct (search (Chr p) pos l) as [[x l']|] eqn:Hs.
  - apply search_Chr_Some in Hs as (pre & c & -> & Hpre & Hstart & Hend).
    rewrite Hend, Hstart.
    replace (pos + length pre - pos)%nat with (length pre) by lia.
    rewrite take_app_length.
    replace (S (pos + length pre) =? pos + length pre)%nat with false
      by (symmetry; apply Nat.eqb_neq; lia).
    apply Forall_app. split; [done|]. apply IH.
    rewrite length_app in Hfuel. simpl in Hfuel. lia.
  - by apply search_Chr_None in Hs.
Qed.

(** The characters a branch name is made of. *)
Definition slug_char (c : ascii) : bool :=
  Js.is_lower c || Js.is_digit c || Js.eqc c "-"%char || Js.eqc c Js.backslash.

Lemma kept_is_slug_char c :
  negb (Js.is_lower c || Js.is_digit c || Js.eqc c Js.backslash
        || Js.eqc c "s"%char || Js.eqc c "-"%char) = false ->
  slug_char c = true.
Proof.
  unfold slug_char. intros Hkept%negb_false_iff.
  repeat (apply orb_true_iff in Hkept as [Hkept|Hkept]);
    rewrite ?Hkept, ?orb_true_r; try done.
  unfold Js.eqc in Hkept. apply Nat.eqb_eq in Hkept.
  unfold Js.is_lower, Js.in_range. rewrite Hkept. done.
Qed.

(** X18. The name [sanitizeFeatureName] gives has at most 50
    characters, each of them a lower-case letter a-z, a digit, a
    hyphen or a backslash: no upper-case letter, no white space and
    no other punctuation survives, whatever the feature text. *)
Theorem sanitizeFeatureName_alphabet (feature : string) :
  (String.length (sanitizeFeatureName feature) <= 50)%nat
  /\ Forall (fun c => slug_char c = true)
       (Js.chars (sanitizeFeatureName feature)).
Proof.
  unfold sanitizeFeatureName, Js.substring0. split.
  - rewrite <- length_chars, chars_str, length_take. lia.
  - rewrite chars_str. apply Forall_take.
    apply replace_all_Forall; [by repeat constructor|].
    apply replace_all_Forall; [by repeat constructor|].
    unfold replace_all. rewrite chars_str.
    eapply Forall_impl.
    + apply delete_class. rewrite length_chars. lia.
    + intros c Hc. by apply kept_is_slug_char.
Qed.

End SlugProps.

(** * The safety boundary, from the inside *)

Module BoundaryProps.
Import NodePath.

(** ** Strings and their characters *)

Lemma chars_append a b : Js.chars (a +:+ b) = Js.chars a ++ Js.chars b.
Proof. induction a as [|c a IH]; simpl; [done|]. by rewrite <- IH. Qed.

Lemma str_of_chars s : Js.str (Js.chars s) = s.
Proof. apply string_of_list_ascii_of_string. Qed.

Lemma eqc_refl c : Js.eqc c c = true.
Proof. apply Nat.eqb_refl. Qed.

Lemma starts_with_app p l : Js.starts_with p (p ++ l) = true.
Proof.
  induction p as [|c p IH]; simpl; [done|]. by rewrite eqc_refl, IH.
Qed.

(** ** Joining and splitting *)

Lemma join_cons sep x l :
  Js.join sep (x :: l)
  = x +:+ match l with [] => "" | _ => sep +:+ Js.join sep l end.
Proof.
  destruct l as [|y l]; simpl; [|done].
  induction x as [|c x IH]; [done|].
  change (String c x +:+ "") with (String c (x +:+ "")). by rewrite <- IH.
Qed.

(** The join of a list starts with the join of each of its prefixes. *)
Lemma join_prefix sep l1 l2 :
  exists rest,
    Js.chars (Js.join sep (l1 ++ l2)) = Js.chars (Js.join sep l1) ++ rest.
Proof.
  induction l1 as [|x l1 IH].
  - by eexists.
  - destruct IH as [rest IH]. rewrite <- app_comm_cons, !join_cons.
    rewrite !chars_append. destruct l1 as [|y l1].
    + simpl. rewrite app_nil_r. by eexists.
    + rewrite <- app_comm_cons in *. rewrite !chars_append, IH.
      exists rest. by rewrite <- !app_assoc.
Qed.

Definition no_slash (l : list ascii) : Prop :=
  Forall (fun c => Js.eqc c slash = false) l.

Lemma split_chars_whole cur l :
  no_slash l -> Js.split_chars slash cur l = [rev cur ++ l].
Proof.
  revert cur. induction l as [|c l IH]; intros cur Hl; simpl.
  - by rewrite app_nil_r.
  - apply Forall_cons in Hl as [Hc Hl]. rewrite Hc, IH by done.
    simpl. by rewrite <- app_assoc.
Qed.

Lemma split_chars_at_slash cur l1 l2 :
  no_slash l1 ->
  Js.split_chars slash cur (l1 ++ slash :: l2)
  = (rev cur ++ l1) :: Js.split_chars slash [] l2.
Proof.
  revert cur. induction l1 as [|c l1 IH]; intros cur Hl; simpl.
  - by rewrite app_nil_r.
  - apply Forall_cons in Hl as [Hc Hl]. rewrite Hc, IH by done.
    simpl. by rewrite <- app_assoc.
Qed.

Lemma split_chars_no_slash cur l :
  no_slash cur -> Forall no_slash (Js.split_chars slash cur l).
Proof.
  revert cur. induction l as [|c l IH]; intros cur Hcur; simpl.
  - constructor; [|done]. by apply List.Forall_rev.
  - destruct (Js.eqc c slash) eqn:Hc.
    + constructor; [by apply List.Forall_rev|]. apply IH. constructor.
    + apply IH. by constructor.
Qed.

(** ** Normal segments *)

(** A directory name as [normalize_segments] leaves it. *)
Definition name (s : string) : Prop :=
  s <> "" /\ s <> "." /\ s <> ".." /\ no_slash (Js.chars s).

Lemma normalize_segments_names stack segs :
  Forall name stack -> Forall (fun s => no_slash (Js.chars s)) segs ->
  Forall name (normalize_segments stack segs).
Proof.
  revert stack. induction segs as [|s segs IH]; intros stack Hstack Hsegs; simpl.
  - by apply List.Forall_rev.
  - apply Forall_cons in Hsegs as [Hs Hsegs].
    destruct (decide (s = "")) as [->|Hne]; [by apply IH|].
    destruct (decide (s = ".")) as [->|Hdot]; [by apply IH|].
    rewrite !bool_decide_eq_false_2 by done. simpl.
    destruct (decide (s = "..")) as [->|Hup].
    + simpl. apply IH; [|done]. destruct stack; [done|].
      by apply Forall_cons in Hstack as [_ ?].
    + rewrite bool_decide_eq_false_2 by done. apply IH; [|done].
      by constructor.
Qed.

Lemma normalize_segments_fixed stack segs :
  Forall name segs -> normalize_segments stack segs = rev stack ++ segs.
Proof.
  revert stack. induction segs as [|s segs IH]; intros stack Hsegs; simpl.
  - by rewrite app_nil_r.
  - apply Forall_cons in Hsegs as [(Hne & Hdot & Hup & _) Hsegs].
    rewrite !bool_decide_eq_false_2 by done. simpl.
    rewrite IH by done. simpl. by rewrite <- app_assoc.
Qed.

Lemma segments_names p : Forall name (segments p).
Proof.
  unfold segments. apply normalize_segments_names; [done|].
  unfold Js.split. apply Forall_forall. intros s Hs.
  apply list_elem_of_In, in_map_iff in Hs as (l & <- & Hl).
  apply list_elem_of_In in Hl.
  pose proof (split_chars_no_slash [] (Js.chars p) (Forall_nil_2 _)) as Hall.
  rewrite Forall_forall in Hall. unfold Js.chars at 1, Js.str.
  rewrite list_ascii_of_string_of_list_ascii. by apply Hall.
Qed.

Lemma split_join_names segs :
  Forall name segs -> segs <> [] ->
  map Js.str (Js.split_chars slash [] (Js.chars (Js.join "/" segs))) = segs.
Proof.
  induction segs as [|s segs IH]; intros Hsegs Hne; [done|].
  apply Forall_cons in Hsegs as [(_ & _ & _ & Hs) Hsegs].
  rewrite join_cons, chars_append. destruct segs as [|s' segs].
  - simpl. rewrite app_nil_r, split_chars_whole by done. simpl.
    by rewrite str_of_chars.
  - rewrite chars_append. change (Js.chars "/") with [slash]. simpl.
    rewrite split_chars_at_slash by done. simpl.
    rewrite str_of_chars. f_equal. by apply IH.
Qed.

(** Resolving gives a path whose segments are the segments it was
    built from. *)
Lemma segments_of_joined segs :
  Forall name segs -> segments ("/" +:+ Js.join "/" segs) = segs.
Proof.
  intros Hsegs. unfold segments, Js.split. rewrite chars_append.
  change (Js.chars "/") with [slash]. simpl.
  destruct segs as [|s segs]; [done|].
  rewrite split_join_names by done.
  by rewrite normalize_segments_fixed.
Qed.

(** The segments [resolve] arrives at. *)
Definition resolved_segments (cwd : string) (args : list string)
  : list string :=
  let '(joined, absolute) := resolve_join (rev args) "" in
  segments (if absolute then joined else cwd +:+ "/" +:+ joined).

Lemma resolve_segments cwd args :
  resolve cwd args = "/" +:+ Js.join "/" (resolved_segments cwd args)
  /\ segments (resolve cwd args) = resolved_segments cwd args.
Proof.
  unfold resolve, resolved_segments.
  destruct (resolve_join (rev args) "") as [joined absolute].
  split; [done|]. apply segments_of_joined, segments_names.
Qed.

(** X19. The boundary check never turns away a path that is inside:
    when the resolved target is the resolved project root or lies
    below it, directory name by directory name, [isPathSafe] is true
    and [validatePath] does not throw. *)
Theorem inside_is_accepted (cwd : string) (self : DirectorySafety.t)
    (targetPath : string) :
  DirectorySafety.within
    (resolve cwd [DirectorySafety.projectRoot self])
    (resolve cwd [targetPath]) ->
  DirectorySafety.isPathSafe cwd self targetPath = true
  /\ DirectorySafety.validatePath cwd self targetPath = Ret tt.
Proof.
  unfold DirectorySafety.within, DirectorySafety.validatePath,
    DirectorySafety.isPathSafe.
  destruct (resolve_segments cwd [DirectorySafety.projectRoot self])
    as (Hroot & ->).
  destruct (resolve_segments cwd [targetPath]) as (Htarget & ->).
  intros [below Hbelow].
  assert (Js.startsWith (resolve cwd [targetPath])
            (resolve cwd [DirectorySafety.projectRoot self]) = true) as Hsafe.
  { rewrite Hroot, Htarget, Hbelow. unfold Js.startsWith.
    rewrite !chars_append.
    destruct (join_prefix "/"
                (resolved_segments cwd [DirectorySafety.projectRoot self])
                below) as [rest ->].
    rewrite app_assoc. apply starts_with_app. }
  by rewrite Hsafe.
Qed.

Lemma inside_is_accepted_witness :
  DirectorySafety.isPathSafe "/home/u/app"
    (DirectorySafety.Build "/home/u/app" "/home/u/app") "src/../src/a.ts" = true
  /\ DirectorySafety.validatePath "/home/u/app"
       (DirectorySafety.Build "/home/u/app" "/home/u/app") "src/../src/a.ts"
     = Ret tt.
Proof.
  apply (inside_is_accepted "/home/u/app"
           (DirectorySafety.Build "/home/u/app" "/home/u/app")
           "src/../src/a.ts").
  apply (bool_decide_unpack
           (DirectorySafety.within
              (resolve "/home/u/app" ["/home/u/app"])
              (resolve "/home/u/app" ["src/../src/a.ts"]))).
  vm_compute. exact I.
Defined.

End BoundaryProps.

(** * GitManager ([src/core/git-manager.ts]): the commands *)

Module GitCommands.
Import GitManager Regex.

(** What the promise of [runGitCommand] resolves to. *)
Record CommandResult : Type := Build_CommandResult {
  cr_success : bool;
  stdout : string;
  stderr : string
}.

(** [s.split(sep)] for a separator of one character or more: the
    input is cut at each occurrence of [sep], found left to right;
    [skip] counts the characters of an occurrence still to be passed
    over. *)
Fixpoint split_by (sep : list ascii) (skip : nat) (cur : list ascii)
    (l : list ascii) : list (list ascii) :=
  match l with
  | [] => [rev cur]
  | c :: tl =>
      match skip with
      | S k => split_by sep k cur tl
      | 0 =>
          if Js.starts_with sep l
          then rev cur :: split_by sep (length sep - 1) [] tl
          else split_by sep 0 (c :: cur) tl
      end
  end.

Definition split_str (sep : string) (s : string) : list string :=
  map Js.str (split_by (Js.chars sep) 0 [] (Js.chars s)).

(** The separators the source writes as ['\\n'] and ['\\t']: a
    backslash followed by the letter. *)
Definition backslash_n : string := String Js.backslash "n".
Definition backslash_t : string := String Js.backslash "t".

(** [a || b] on strings that may be undefined. *)
Definition or_string (a : option string) (b : string) : string :=
  match a with
  | Some s => if Js.truthy s then s else b
  | None => b
  end.

(** *** [parseInt(s)] without a radix

    White space is skipped, a sign is read, [0x] or [0X] selects
    base 16, and the longest run of digits of the base is the value;
    without a digit the result is NaN, here [None].  (Values are
    exact; a JavaScript number is so below 2^53.) *)
Definition digit_of (base : Z) (c : ascii) : option Z :=
  let n := Js.code c in
  let v : option Z :=
    if Js.is_digit c then Some (Z.of_nat n - 48)%Z
    else if Js.is_lower c then Some (Z.of_nat n - 87)%Z
    else if Js.is_upper c then Some (Z.of_nat n - 55)%Z
    else None in
  match v with
  | Some d => if (d <? base)%Z then Some d else None
  | None => None
  end.

Fixpoint digits (base : Z) (acc : option Z) (l : list ascii) : option Z :=
  match l with
  | c :: tl =>
      match digit_of base c with
      | Some d => digits base (Some (default 0%Z acc * base + d)%Z) tl
      | None => acc
      end
  | [] => acc
  end.

Definition parseInt (s : string) : option Z :=
  let l := Js.drop_space (Js.chars s) in
  let '(sign, l) :=
    match l with
    | c :: tl =>
        if Js.eqc c "-"%char then ((-1)%Z, tl)
        else if Js.eqc c "+"%char then (1%Z, tl)
        else (1%Z, l)
    | [] => (1%Z, l)
    end in
  let '(base, l) :=
    match l with
    | z :: x :: tl =>
        if Js.eqc z "0"%char && (Js.eqc x "x"%char || Js.eqc x "X"%char)
        then (16%Z, tl) else (10%Z, l)
    | _ => (10%Z, l)
    end in
  Z.mul sign <$> digits base None l.

(** *** The pattern of [getTrackingInfo]

    The source writes it with doubled backslashes, so that each
    alternative is a backslash followed by one character of a class:
    the square bracket after the backslash opens the class, and the
    parentheses, the plus sign, the comma and the letters stand in it
    for themselves.  There is no group in it. *)
Definition one_of (s : string) : re :=
  Chr (fun c => existsb (Js.eqc c) (Js.chars s)).

Definition trackingPattern : re :=
  alts [ seq [ch Js.backslash; one_of "ahead (\d+), behind (\d+)\"];
         seq [ch Js.backslash; one_of "ahead (\d+)\"];
         seq [ch Js.backslash; one_of "behind (\d+)\"] ].

Record RemoteInfo : Type := Build_RemoteInfo {
  hasRemote : bool;
  remoteName : option string;
  remoteUrl : option string
}.

(** [ahead] and [behind] are what [parseInt] gave: [None] is NaN. *)
Record GitStatus : Type := Build_GitStatus {
  isGitRepo : bool;
  currentBranch : string;
  s_hasRemote : bool;
  s_remoteName : option string;
  s_remoteUrl : option string;
  hasUncommittedChanges : bool;
  ahead : option Z;
  behind : option Z
}.

Section Commands.
(** The world the git subprocess acts on. *)
Context {G : Type}.
(** [spawn('git', args, ...)] followed to its [close] or [error]
    event: the exit status and what was written to the two pipes.
    The call of [spawn] itself is taken not to throw. *)
Variable spawn_git : list string -> G -> CommandResult * G.
(** [this.config] *)
Variable config : GitConfig.

(** [issued] is a ghost log of the command lines handed to git,
    oldest first. *)
Record state : Type := State {
  world : G;
  issued : list (list string)
}.

Definition throw {A} (e : string) : M state A := fun s => (Threw e, s).

(** [runGitCommand]: its promise is resolved on [close] and on
    [error] alike, and never rejected. *)
Definition runGitCommand (args : list string) : M state CommandResult :=
  fun s =>
    let '(r, g) := spawn_git args (world s) in
    (Ret r, State g (issued s ++ [args])).

Definition isGitRepository : M state bool :=
  try_catch
    (result ← runGitCommand ["rev-parse"; "--git-dir"];
     ret (cr_success result))
    (fun _ => ret false).

Definition getCurrentBranch : M state string :=
  try_catch
    (result ← runGitCommand ["branch"; "--show-current"];
     ret (or_string (Some (Js.trim (stdout result))) "HEAD"))
    (fun _ => ret "unknown").

Definition getRemoteInfo : M state RemoteInfo :=
  try_catch
    (result ← runGitCommand ["remote"; "-v"];
     if negb (cr_success result) || negb (Js.truthy (Js.trim (stdout result)))
     then ret (Build_RemoteInfo false None None)
     else
       let lines := split_str backslash_n (Js.trim (stdout result)) in
       let firstRemote := default "" (head lines) in
       let parts := split_str backslash_t firstRemote in
       let remoteName_ := default "" (parts !! 0%nat) in
       match parts !! 1%nat with
       | None =>
           throw "TypeError: Cannot read properties of undefined (reading 'split')"
       | Some remoteUrl_ =>
           ret (Build_RemoteInfo true (Some (Js.trim remoteName_))
                  (head (Js.split " "%char remoteUrl_)))
       end)
    (fun _ => ret (Build_RemoteInfo false None None)).

Definition getTrackingInfo : M state (option Z * option Z) :=
  try_catch
    (result ← runGitCommand ["status"; "--porcelain=v1"; "--branch"];
     let lines := split_str backslash_n (stdout result) in
     match List.find (fun line => Js.startsWith line "##") lines with
     | None => ret (Some 0%Z, Some 0%Z)
     | Some branchLine =>
         match match_first trackingPattern branchLine with
         | None => ret (Some 0%Z, Some 0%Z)
         | Some x =>
             let g i := Js.str <$> group i (m_caps x) in
             let ahead_ := parseInt (or_string (g 1%nat) (or_string (g 3%nat) "0")) in
             let behind_ := parseInt (or_string (g 2%nat) (or_string (g 4%nat) "0")) in
             ret (ahead_, behind_)
         end
     end)
    (fun _ => ret (Some 0%Z, Some 0%Z)).

(** [getStatus].  The four queries of [Promise.all] are started in
    the order written; each is taken to run to its end before the
    next. *)
Definition getStatus : M state GitStatus :=
  isRepo ← isGitRepository;
  if negb isRepo
  then ret (Build_GitStatus false "" false None None false (Some 0%Z) (Some 0%Z))
  else
    currentBranch_ ← getCurrentBranch;
    remoteInfo ← getRemoteInfo;
    statusResult ← runGitCommand ["status"; "--porcelain"];
    trackingInfo ← getTrackingInfo;
    ret (Build_GitStatus true currentBranch_ (hasRemote remoteInfo)
           (remoteName remoteInfo) (remoteUrl remoteInfo)
           (0 <? String.length (Js.trim (stdout statusResult)))%nat
           trackingInfo.1 trackingInfo.2).

Definition createBranch (featureName : string) : M state string :=
  let branchName := branchPrefix config +:+ featureName in
  try_catch
    (branchExists ← runGitCommand
                      ["show-ref"; "--verify"; "--quiet";
                       "refs/heads/" +:+ branchName];
     (if cr_success branchExists
      then runGitCommand ["checkout"; branchName]
      else runGitCommand ["checkout"; "-b"; branchName]) ;;
     ret branchName)
    (fun error =>
       throw ("Error: Failed to create/switch to branch " +:+ branchName
              +:+ ": " +:+ error)).

Fixpoint stage_each (files : list string) : M state unit :=
  match files with
  | [] => ret tt
  | file :: later => runGitCommand ["add"; file] ;; stage_each later
  end.

Definition stageFiles (files : list string) : M state unit :=
  try_catch (stage_each files)
    (fun error => throw ("Error: Failed to stage files: " +:+ error)).

Definition commit (message : string) (files : option (list string))
  : M state unit :=
  try_catch
    (match files with
     | Some (f :: fs) => stageFiles (f :: fs)
     | _ => ret tt
     end ;;
     let fullMessage := commitMessagePrefix config +:+ " " +:+ message in
     runGitCommand ["commit"; "-m"; fullMessage] ;;
     ret tt)
    (fun error => throw ("Error: Failed to commit: " +:+ error)).

Definition autoCommit_ (files : list string) (feature : string)
  : M state unit :=
  if negb (autoCommit config) then ret tt
  else commit ("Add " +:+ feature) (Some files).

Definition push (remote branch : option string) : M state unit :=
  try_catch
    (let given (x : option string) := Js.truthy (default "" x) in
     args ← (if given remote && given branch
             then ret ["push"; default "" remote; default "" branch]
             else if given remote
             then ret ["push"; default "" remote]
             else
               current ← getCurrentBranch;
               ret ["push"; "--set-upstream"; "origin"; current]);
     runGitCommand args ;;
     ret tt)
    (fun error => throw ("Error: Failed to push: " +:+ error)).

Definition getDiff (file : option string) : M state string :=
  try_catch
    (let args :=
       ["diff"; "--color=always"]
       ++ (if Js.truthy (default "" file) then [default "" file] else []) in
     result ← runGitCommand args;
     ret (stdout result))
    (fun _ => ret "").
End Commands.

Arguments State {G}.
Arguments world {G}.
Arguments issued {G}.

End GitCommands.

(** * Properties of the git commands *)

Module GitProps.
Import GitManager Regex GitCommands.

(** ** Patterns without groups capture nothing *)

Lemma clear_nothing st : clear [] st = st.
Proof.
  destruct st as [p l c]. unfold clear. simpl. f_equal.
  induction c as [|kv c IH]; [done|]. cbn. by f_equal.
Qed.

(** A matcher that hands its continuation the groups it was given. *)
Definition keeps_caps (body : cont -> cont) : Prop :=
  forall k st e, body k st = Some e ->
    exists st', k st' = Some e /\ cap st' = cap st.

Lemma rep_keeps_caps body fuel greedy lo hi :
  keeps_caps body -> keeps_caps (rep fuel body [] greedy lo hi).
Proof.
  intros Hbody. revert lo hi.
  induction fuel as [|fuel IH]; intros lo hi k st e; [done|].
  simpl.
  assert (forall x,
            body (fun st' =>
                    if (lo =? 0)%nat && (pos st' =? pos st)%nat then None
                    else rep fuel body [] greedy (pred lo)
                           (option_map pred hi) k st')
                 (clear [] st) = Some x ->
            exists st', k st' = Some x /\ cap st' = cap st) as Hagain.
  { intros x Hx. apply Hbody in Hx as (st1 & Hx & Hcap).
    rewrite clear_nothing in Hcap.
    destruct ((lo =? 0)%nat && (pos st1 =? pos st)%nat); [done|].
    apply IH in Hx as (st2 & Hx & Hcap2). exists st2. split; [done|congruence]. }
  assert (forall x, k st = Some x ->
            exists st', k st' = Some x /\ cap st' = cap st) as Hstop
    by (intros x Hx; by exists st).
  destruct hi as [[|h]|]; [by apply Hstop| |].
  - destruct (0 <? lo)%nat; [apply Hagain|].
    destruct greedy; unfold or_else.
    + destruct (body _ _) as [y|] eqn:Hy; [|apply Hstop].
      intros [= <-]. by apply Hagain.
    + destruct (k st) as [y|] eqn:Hy; [|apply Hagain].
      intros [= <-]. by apply Hstop.
  - destruct (0 <? lo)%nat; [apply Hagain|].
    destruct greedy; unfold or_else.
    + destruct (body _ _) as [y|] eqn:Hy; [|apply Hstop].
      intros [= <-]. by apply Hagain.
    + destruct (k st) as [y|] eqn:Hy; [|apply Hagain].
      intros [= <-]. by apply Hstop.
Qed.

Lemma m_keeps_caps r : groups r = [] -> keeps_caps (m r).
Proof.
  induction r as [ |p|a IHa b IHb|a IHa b IHb|g lo hi a IHa|i a IHa| | ];
    intros Hg k st e.
  - simpl. intros He. by exists st.
  - simpl. destruct (rest st) as [|c tl]; [done|]. destruct (p c); [|done].
    intros He. by eexists.
  - simpl in *. apply app_eq_nil in Hg as [Ha Hb]. intros He.
    apply (IHa Ha) in He as (st1 & He & Hcap1).
    apply (IHb Hb) in He as (st2 & He & Hcap2).
    exists st2. split; [done|congruence].
  - simpl in *. apply app_eq_nil in Hg as [Ha Hb]. unfold or_else.
    destruct (m a k st) as [y|] eqn:Hy.
    + intros [= <-]. by apply (IHa Ha) in Hy.
    + by apply (IHb Hb).
  - simpl in Hg.
    change (m (Rep g lo hi a) k st)
      with (rep (S (lo + length (rest st))) (m a) (groups a) g lo hi k st).
    rewrite Hg. by apply rep_keeps_caps, IHa.
  - done.
  - simpl. destruct (pos st =? 0)%nat; [|done]. intros He. by exists st.
  - simpl. destruct (rest st); [|done]. intros He. by exists st.
Qed.

Lemma search_no_groups r p l x l' :
  groups r = [] -> search r p l = Some (x, l') -> m_caps x = [].
Proof.
  intros Hg. revert p.
  assert (forall p l y, match_here r p l = Some y -> m_caps y = []) as Hhere.
  { intros p l0 y. unfold match_here.
    destruct (m r Some (MState p l0 [])) as [e|] eqn:He; [|done].
    intros [= <-]. simpl.
    apply (m_keeps_caps r Hg) in He as (st' & [= <-] & Hcap). done. }
  induction l as [|c l IH]; intros p; simpl.
  - destruct (match_here r p []) as [y|] eqn:Hy; [|done].
    intros [= <- <-]. by eapply Hhere.
  - destruct (match_here r p (c :: l)) as [y|] eqn:Hy.
    + intros [= <- <-]. by eapply Hhere.
    + apply IH.
Qed.

Lemma match_first_no_groups r s x :
  groups r = [] -> match_first r s = Some x -> m_caps x = [].
Proof.
  intros Hg. unfold match_first.
  destruct (search r 0 (Js.chars s)) as [[y l']|] eqn:Hs; [|done].
  intros [= <-]. by eapply search_no_groups.
Qed.

Section Commands.
Context {G : Type}.
Variable spawn_git : list string -> G -> CommandResult * G.
Variable config : GitConfig.

Lemma runGitCommand_eq args (s : @GitCommands.state G) :
  runGitCommand spawn_git args s
  = (Ret (spawn_git args (world s)).1,
     State (spawn_git args (world s)).2 (issued s ++ [args])).
Proof.
  unfold runGitCommand. by destruct (spawn_git args (world s)).
Qed.

Lemma getTrackingInfo_zero (s : @GitCommands.state G) :
  (getTrackingInfo spawn_git s).1 = Ret (Some 0%Z, Some 0%Z).
Proof.
  unfold getTrackingInfo, try_catch, mbind, M_bind, bind.
  rewrite runGitCommand_eq. simpl.
  destruct (List.find _ _) as [branchLine|]; [|done].
  destruct (match_first trackingPattern branchLine) as [x|] eqn:Hx; [|done].
  apply match_first_no_groups in Hx; [|done]. by rewrite Hx.
Qed.

Lemma isGitRepository_eq (s : @GitCommands.state G) :
  isGitRepository spawn_git s
  = (Ret (cr_success (spawn_git ["rev-parse"; "--git-dir"] (world s)).1),
     State (spawn_git ["rev-parse"; "--git-dir"] (world s)).2
       (issued s ++ [["rev-parse"; "--git-dir"]])).
Proof.
  unfold isGitRepository, try_catch, mbind, M_bind, bind.
  by rewrite runGitCommand_eq.
Qed.

Lemma getCurrentBranch_returns (s : @GitCommands.state G) :
  exists b, (getCurrentBranch spawn_git s).1 = Ret b.
Proof.
  unfold getCurrentBranch, try_catch, mbind, M_bind, bind.
  rewrite runGitCommand_eq. simpl. by eexists.
Qed.

Lemma getRemoteInfo_returns (s : @GitCommands.state G) :
  exists info, (getRemoteInfo spawn_git s).1 = Ret info.
Proof.
  unfold getRemoteInfo, try_catch, mbind, M_bind, bind.
  rewrite runGitCommand_eq. simpl.
  destruct (negb _ || negb _); [by eexists|].
  destruct (_ !! 1%nat); by eexists.
Qed.

Lemma getStatus_returns (s : @GitCommands.state G) :
  exists status,
    (getStatus spawn_git s).1 = Ret status
    /\ isGitRepo status
       = cr_success (spawn_git ["rev-parse"; "--git-dir"] (world s)).1
    /\ ahead status = Some 0%Z /\ behind status = Some 0%Z.
Proof.
  unfold getStatus, mbind, M_bind, bind. rewrite isGitRepository_eq.
  destruct (cr_success _) eqn:Hrepo; simpl; [|by eexists].
  match goal with |- context [getCurrentBranch spawn_git ?s1] =>
    destruct (getCurrentBranch_returns s1) as [b Hb];
    destruct (getCurrentBranch spawn_git s1) as [o1 s2] end.
  simpl in Hb. subst o1.
  destruct (getRemoteInfo_returns s2) as [info Hinfo].
  destruct (getRemoteInfo spawn_git s2) as [o2 s3]. simpl in Hinfo. subst o2.
  rewrite runGitCommand_eq.
  match goal with |- context [getTrackingInfo spawn_git ?s4] =>
    pose proof (getTrackingInfo_zero s4) as Hzero;
    destruct (getTrackingInfo spawn_git s4) as [o4 s5] end.
  simpl in Hzero. subst o4. simpl. by eexists.
Qed.

(** X20. [getTrackingInfo] reports 0 commits ahead and 0 behind,
    whatever git prints: its pattern has no group, so that nothing of
    the branch line is ever read as a number.  [getStatus] does not
    throw, says [isGitRepo] exactly when [git rev-parse --git-dir]
    exits with 0, and its [ahead] and [behind] are 0. *)
Theorem tracking_is_always_zero (s : @GitCommands.state G) :
  (getTrackingInfo spawn_git s).1 = Ret (Some 0%Z, Some 0%Z)
  /\ exists status,
       (getStatus spawn_git s).1 = Ret status
       /\ isGitRepo status
          = cr_success (spawn_git ["rev-parse"; "--git-dir"] (world s)).1
       /\ ahead status = Some 0%Z /\ behind status = Some 0%Z.
Proof.
  split; [apply getTrackingInfo_zero|apply getStatus_returns].
Qed.

(** ** Failures of git are not exceptions *)

Lemma stage_each_eq files (s : @GitCommands.state G) :
  (stage_each spawn_git files s).1 = Ret tt
  /\ issued (stage_each spawn_git files s).2
     = issued s ++ ((fun file => ["add"; file]) <$> files).
Proof.
  revert s. induction files as [|file files IH]; intros s; simpl.
  - by rewrite app_nil_r.
  - unfold mbind, M_bind, bind. rewrite runGitCommand_eq.
    destruct (IH (State (spawn_git ["add"; file] (world s)).2
                    (issued s ++ [["add"; file]]))) as (Hret & Hlog).
    split; [done|]. rewrite Hlog. simpl. by rewrite <- app_assoc.
Qed.

Lemma stageFiles_eq files (s : @GitCommands.state G) :
  stageFiles spawn_git files s
  = (Ret tt, (stage_each spawn_git files s).2).
Proof.
  unfold stageFiles, try_catch.
  destruct (stage_each_eq files s) as (Hret & _).
  destruct (stage_each spawn_git files s) as [o s']. simpl in *. by subst o.
Qed.

Lemma commit_eq message files (s : @GitCommands.state G) :
  (commit spawn_git config message files s).1 = Ret tt
  /\ issued (commit spawn_git config message files s).2
     = issued s ++ ((fun file => ["add"; file]) <$> default [] files)
       ++ [["commit"; "-m"; commitMessagePrefix config +:+ " " +:+ message]].
Proof.
  unfold commit, try_catch, mbind, M_bind, bind.
  destruct files as [[|f fs]|].
  - cbn [ret]. rewrite runGitCommand_eq. simpl. done.
  - rewrite stageFiles_eq, runGitCommand_eq. simpl.
    destruct (stage_each_eq (f :: fs) s) as (_ & Hlog).
    simpl in Hlog. rewrite Hlog. by rewrite <- !app_assoc.
  - cbn [ret]. rewrite runGitCommand_eq. simpl. done.
Qed.

Lemma createBranch_eq featureName (s : @GitCommands.state G) :
  let branchName := branchPrefix config +:+ featureName in
  let query := ["show-ref"; "--verify"; "--quiet"; "refs/heads/" +:+ branchName] in
  (createBranch spawn_git config featureName s).1 = Ret branchName
  /\ issued (createBranch spawn_git config featureName s).2
     = issued s
       ++ [query;
           if cr_success (spawn_git query (world s)).1
           then ["checkout"; branchName]
           else ["checkout"; "-b"; branchName]].
Proof.
  unfold createBranch, try_catch, mbind, M_bind, bind.
  rewrite runGitCommand_eq. simpl.
  destruct (cr_success _); rewrite runGitCommand_eq; simpl;
    by rewrite <- app_assoc.
Qed.

(** X21. No answer of git makes [createBranch], [stageFiles],
    [commit], [autoCommit] or [push] throw: a command that exits with
    a failure is not told apart from one that succeeds.
    [createBranch] returns the prefixed name also when the checkout
    failed. *)
Theorem git_failures_are_swallowed (s : @GitCommands.state G)
    (featureName message feature : string) (files : list string)
    (given : option (list string)) (remote branch : option string) :
  (createBranch spawn_git config featureName s).1
    = Ret (branchPrefix config +:+ featureName)
  /\ (stageFiles spawn_git files s).1 = Ret tt
  /\ (commit spawn_git config message given s).1 = Ret tt
  /\ (autoCommit_ spawn_git config files feature s).1 = Ret tt
  /\ (push spawn_git remote branch s).1 = Ret tt.
Proof.
  split; [apply createBranch_eq|]. split; [by rewrite stageFiles_eq|].
  split; [apply commit_eq|]. split.
  - unfold autoCommit_. destruct (autoCommit config); [apply commit_eq|done].
  - unfold push, try_catch, mbind, M_bind, bind.
    destruct (Js.truthy (default "" remote) && Js.truthy (default "" branch)).
    { cbn [ret]. by rewrite runGitCommand_eq. }
    destruct (Js.truthy (default "" remote)).
    { cbn [ret]. by rewrite runGitCommand_eq. }
    destruct (getCurrentBranch_returns s) as [b Hb].
    destruct (getCurrentBranch spawn_git s) as [o s1]. simpl in Hb. subst o.
    cbn [ret]. by rewrite runGitCommand_eq.
Qed.

(** X22. The command lines [commit] hands to git are one [add] for
    each file, in the order given, and then one [commit -m] with the
    configured prefix, a space and the message; the commit is issued
    whether or not the [add]s succeeded.  [createBranch] issues the
    [show-ref] query for the prefixed name and then [checkout] of it
    when the query succeeded, [checkout -b] otherwise. *)
Theorem commands_issued (s : @GitCommands.state G)
    (featureName message : string) (given : option (list string)) :
  issued (commit spawn_git config message given s).2
    = issued s ++ ((fun file => ["add"; file]) <$> default [] given)
      ++ [["commit"; "-m"; commitMessagePrefix config +:+ " " +:+ message]]
  /\ (let branchName := branchPrefix config +:+ featureName in
      let query :=
        ["show-ref"; "--verify"; "--quiet"; "refs/heads/" +:+ branchName] in
      issued (createBranch spawn_git config featureName s).2
      = issued s
        ++ [query;
            if cr_success (spawn_git query (world s)).1
            then ["checkout"; branchName]
            else ["checkout"; "-b"; branchName]]).
Proof.
  split; [apply commit_eq|apply createBranch_eq].
Qed.

(** ** The remote *)

Definition no_backslash (l : list ascii) : Prop :=
  Forall (fun c => Js.eqc Js.backslash c = false) l.

Lemma split_by_whole sep cur l :
  no_backslash l ->
  split_by (Js.backslash :: sep) 0 cur l = [rev cur ++ l].
Proof.
  revert cur. induction l as [|c l IH]; intros cur Hl.
  - simpl. by rewrite app_nil_r.
  - apply Forall_cons in Hl as [Hc Hl].
    cbn [split_by Js.starts_with]. rewrite Hc. simpl.
    rewrite IH by done. simpl. by rewrite <- app_assoc.
Qed.

Lemma drop_space_no_backslash l :
  no_backslash l -> no_backslash (Js.drop_space l).
Proof.
  induction l as [|c l IH]; intros Hl; [done|]. simpl.
  destruct (Js.is_space c); [|done]. apply IH.
  by apply Forall_cons in Hl as [_ ?].
Qed.

Lemma trim_no_backslash s :
  no_backslash (Js.chars s) -> no_backslash (Js.chars (Js.trim s)).
Proof.
  intros Hs. unfold Js.trim, Js.trim_chars, Js.chars at 1, Js.str.
  rewrite list_ascii_of_string_of_list_ascii.
  apply List.Forall_rev, drop_space_no_backslash, List.Forall_rev.
  by apply drop_space_no_backslash.
Qed.

Lemma split_str_whole sep s :
  no_backslash (Js.chars s) -> split_str (String Js.backslash sep) s = [s].
Proof.
  intros Hs. unfold split_str.
  change (Js.chars (String Js.backslash sep))
    with (Js.backslash :: Js.chars sep).
  rewrite split_by_whole by done. simpl.
  unfold Js.str, Js.chars. by rewrite string_of_list_ascii_of_string.
Qed.

(** X23. When what [git remote -v] prints holds no backslash,
    [getRemoteInfo] reports that there is no remote, also when
    remotes were printed: the lines and the two columns are split at
    a backslash followed by a letter, not at the line feed and the
    tab that git prints. *)
Theorem remote_is_never_found (s : @GitCommands.state G) :
  no_backslash (Js.chars (stdout (spawn_git ["remote"; "-v"] (world s)).1)) ->
  (getRemoteInfo spawn_git s).1 = Ret (Build_RemoteInfo false None None).
Proof.
  intros Hout. unfold getRemoteInfo, try_catch, mbind, M_bind, bind.
  rewrite runGitCommand_eq. simpl.
  destruct (negb _ || negb _); [done|].
  apply trim_no_backslash in Hout.
  unfold backslash_n, backslash_t.
  rewrite (split_str_whole "n" _ Hout). simpl.
  rewrite (split_str_whole "t" _ Hout). done.
Qed.

End Commands.

(** A git that prints one remote the way git does, with a tab and a
    line feed. *)
Definition one_remote (args : list string) (g : unit) : CommandResult * unit :=
  (Build_CommandResult true
     ("origin" +:+ String (Js.chr 9) "https://example.org/app.git (fetch)"
      +:+ String Js.nl "")
     "", g).

Lemma remote_is_never_found_witness :
  (getRemoteInfo one_remote (State tt [])).1
  = Ret (Build_RemoteInfo false None None).
Proof.
  apply (remote_is_never_found one_remote (State tt [])).
  apply (bool_decide_unpack
           (no_backslash
              (Js.chars (stdout (one_remote ["remote"; "-v"] tt).1)))).
  vm_compute. exact I.
Defined.

End GitProps.

(** ** The generator on top of GitManager

    [FileGenerator] with its own [GitManager] behind it: the world is
    the one the git subprocess and the filesystem act on, together
    with the log of the command lines issued. *)

Module RealGit.
Import FileGenerator Exec ExecProps ExecMore.

Section Backend.
Context {G : Type}.
Variable spawn_git : list string -> G -> GitCommands.CommandResult * G.
(** The generator; the configuration it holds is its GitManager's. *)
Variable self : FileGenerator.t.
(** The filesystem calls of the generator, on the same world. *)
Variable existsSync : string -> G -> bool.
Variable readFileSync : string -> G -> outcome string.
Variable ensureDir : string -> G -> outcome unit * G.
Variable writeFile : string -> string -> G -> outcome unit * G.
Variable pathExists : string -> G -> bool.
Variable remove : string -> G -> outcome unit * G.
(** [generateCommitMessage], which reads the filesystem and does not
    throw. *)
Variable generateCommitMessage : list string -> string -> G -> string.

Definition on_world {A} (f : G -> outcome A * G) (s : @GitCommands.state G)
  : outcome A * @GitCommands.state G :=
  let '(o, g) := f (GitCommands.world s) in
  (o, GitCommands.State g (GitCommands.issued s)).

#[local] Instance backend : Externals (@GitCommands.state G) := {|
  fs_existsSync := fun p s => existsSync p (GitCommands.world s);
  fs_readFileSync := fun p s => readFileSync p (GitCommands.world s);
  fs_ensureDir := fun p => on_world (ensureDir p);
  fs_writeFile := fun p text => on_world (writeFile p text);
  fs_pathExists := fun p s => pathExists p (GitCommands.world s);
  fs_remove := fun p => on_world (remove p);
  git_getStatus := fun s =>
    let '(o, s') := GitCommands.getStatus spawn_git s in
    (match o with
     | Ret status => Ret (GitCommands.isGitRepo status)
     | Threw e => Threw e
     end, s');
  git_createBranch := GitCommands.createBranch spawn_git (gitConfig self);
  git_generateCommitMessage := fun files feature s =>
    generateCommitMessage files feature (GitCommands.world s);
  git_commit := fun message files =>
    GitCommands.commit spawn_git (gitConfig self) message (Some files)
|}.

(** X24. With GitManager behind it, [executeGenerationPlan] reports a
    branch as created whenever the plan asks for one and
    [git rev-parse --git-dir] exits with 0, whether or not the
    checkout worked, and reports a commit exactly when auto-commit is
    configured and something was created or modified, whether or not
    git committed anything; neither git step ever adds to the
    errors. *)
Theorem git_steps_always_report (cwd : string)
    (cb : callback) (plan : FileGenerationPlan) (w : @GitCommands.state G) :
  let r := (executeGenerationPlan cwd self cb plan w).1 in
  let loop_end := after cwd self cb (files plan) (after_setup plan w) in
  branchCreated r
    = (if bool_decide (gitStrategy plan = new_branch)
          && Js.truthy (default "" (branchName plan))
          && GitCommands.cr_success
               (spawn_git ["rev-parse"; "--git-dir"] (GitCommands.world w)).1
       then branchName plan else None)
  /\ (is_Some (gitCommit r) <->
      GitManager.autoCommit (gitConfig self) = true
      /\ (filesCreated r <> [] \/ filesModified r <> []))
  /\ errors (result (after_setup plan w)) = []
  /\ errors r = errors (result loop_end).
Proof.
  intros r loop_end. subst r. unfold executeGenerationPlan. simpl.
  rewrite run_plan_eq. fold loop_end.
  assert (gitCommit (result (after_setup plan w)) = None
          /\ errors (result (after_setup plan w)) = []
          /\ branchCreated (result (after_setup plan w))
             = (if bool_decide (gitStrategy plan = new_branch)
                   && Js.truthy (default "" (branchName plan))
                   && GitCommands.cr_success
                        (spawn_git ["rev-parse"; "--git-dir"]
                           (GitCommands.world w)).1
                then branchName plan else None))
    as (Hcommit0 & Herrors0 & Hbranch0).
  { unfold after_setup, setup_branch.
    destruct (bool_decide _ && Js.truthy _); [|done].
    unfold try_catch, call, mbind, M_bind, bind, with_result, modify_, ret.
    simpl.
    destruct (GitProps.getStatus_returns spawn_git w)
      as (status & Hstatus & Hrepo & _).
    destruct (GitCommands.getStatus spawn_git w) as [o w1].
    simpl in Hstatus. subst o. rewrite <- Hrepo.
    destruct (GitCommands.isGitRepo status); [|done].
    cbn [world result autoMode asked].
    destruct (GitProps.createBranch_eq spawn_git (gitConfig self)
                (sanitizeFeatureName (feature plan)) w1) as (Hret & _).
    destruct (GitCommands.createBranch _ _ _ w1) as [o w2].
    simpl in Hret. subst o. done. }
  destruct (after_accounts cwd self cb (files plan) (after_setup plan w))
    as (_ & _ & _ & _ & _ & _ & _ & _ & Hcommit & Hbranch).
  fold loop_end in Hcommit, Hbranch.
  rewrite Hcommit0 in Hcommit. rewrite Hbranch0 in Hbranch.
  unfold auto_commit, mbind, M_bind, bind, get. simpl.
  destruct (GitManager.autoCommit (gitConfig self)); simpl.
  2: { rewrite Hbranch, Hcommit. repeat split; try done. by intros [? _]. }
  destruct ((0 <? length (filesCreated (result loop_end)))%nat
            || (0 <? length (filesModified (result loop_end)))%nat) eqn:Hany.
  2: { simpl. rewrite Hbranch, Hcommit. repeat split; try done.
       intros [_ Hsome]. apply orb_false_iff in Hany as [Hc Hm].
       apply Nat.ltb_ge in Hc, Hm.
       destruct Hsome as [Hne|Hne]; destruct Hne;
         apply nil_length_inv; lia. }
  unfold try_catch, call, mbind, M_bind, bind, with_result, modify_, ret.
  destruct loop_end as [r m a w'] eqn:Hloop. simpl in *.
  destruct (GitProps.commit_eq spawn_git (gitConfig self)
              (generateCommitMessage (filesCreated r ++ filesModified r)
                 (feature plan) (GitCommands.world w'))
              (Some (filesCreated r ++ filesModified r)) w') as (Hret & _).
  destruct (GitCommands.commit _ _ _ _ w') as [o w''].
  simpl in Hret. subst o. simpl.
  repeat split; try done.
  apply orb_true_iff in Hany as [Hlen|Hlen]; [left|right];
    apply Nat.ltb_lt in Hlen; intros Hnil; rewrite Hnil in Hlen;
    simpl in Hlen; lia.
Qed.
End Backend.

End RealGit.

(** * From the generated text to the disk *)

Module PlanProps.
Import Regex FileGenerator Exec ExecProps ExecMore ParserProps ParserMore.

Lemma parsed_is_safe {W : Type} `{!Externals W} (cwd : string)
    (self : FileGenerator.t) (w : W) (text : string) (op : FileOperation) :
  op ∈ parseGeneratedContent cwd self w text ->
  DirectorySafety.isPathSafe cwd (directorySafety self)
    (NodePath.resolve cwd [projectRoot self; path op]) = true.
Proof.
  intros Hin.
  destruct (parse_parts cwd self w text)
    as (fenced & mentioned & Heq & _ & Hf & Hm).
  rewrite Heq in Hin. apply elem_of_app in Hin as [Hin|Hin].
  - rewrite Forall_forall in Hf.
    destruct (Hf op Hin) as (t & n & _ & Hop). apply Hop.
  - rewrite Forall_forall in Hm. apply (Hm op Hin).
Qed.

(** X25. From the generated text to the disk: every path that a run
    reports as created or modified is the path of an operation of the
    plan that [createGenerationPlan] built, and the place it was
    written to had passed the boundary check when the plan was
    built, whatever the callback answered and whatever the
    filesystem held at either time. *)
Theorem written_paths_passed_the_check {W : Type} `{!Externals W}
    (cwd : string) (self : FileGenerator.t) (w0 : W) (feature_ text : string)
    (cost : Z) (cb : callback) (w : W) (p : string) :
  let plan := createGenerationPlan cwd self w0 feature_ text cost in
  let r := (executeGenerationPlan cwd self cb plan w).1 in
  p ∈ filesCreated r ++ filesModified r ->
  p ∈ (path <$> files plan)
  /\ DirectorySafety.isPathSafe cwd (directorySafety self)
       (NodePath.resolve cwd [projectRoot self; p]) = true.
Proof.
  intros plan r. subst r. unfold executeGenerationPlan. simpl.
  rewrite run_plan_eq.
  destruct (auto_commit_frame self plan
              (after cwd self cb (files plan) (after_setup plan w)))
    as (_ & _ & _ & _ & -> & -> & _).
  destruct (after_accounts cwd self cb (files plan) (after_setup plan w))
    as (written & skipped_ & Hw & _ & _ & -> & -> & _).
  destruct (after_setup_initial plan w) as (_ & _ & _ & -> & -> & _).
  simpl. intros Hp.
  assert (exists op, op ∈ written /\ path op = p) as (op & Hop & <-).
  { apply elem_of_app in Hp as [Hp|Hp];
      apply list_elem_of_fmap in Hp as (op & -> & Hop);
      apply list_elem_of_filter in Hop as [_ Hop]; by exists op. }
  assert (op ∈ files plan) as Hin by (by eapply elem_of_sublist).
  split; [by apply list_elem_of_fmap_2|].
  by apply (parsed_is_safe cwd self w0 text).
Qed.

Lemma written_paths_passed_the_check_witness :
  let plan := createGenerationPlan Sim.root Sim.generator Sim.empty_disk
                "login" twice_text 0 in
  "src/a.ts" ∈ (path <$> files plan)
  /\ DirectorySafety.isPathSafe Sim.root (directorySafety Sim.generator)
       (NodePath.resolve Sim.root [projectRoot Sim.generator; "src/a.ts"])
     = true.
Proof.
  apply (written_paths_passed_the_check Sim.root Sim.generator Sim.empty_disk
           "login" twice_text 0 always_approve Sim.empty_disk "src/a.ts").
  apply (bool_decide_unpack
           ("src/a.ts"
            ∈ filesCreated
                (executeGenerationPlan Sim.root Sim.generator always_approve
                   (createGenerationPlan Sim.root Sim.generator Sim.empty_disk
                      "login" twice_text 0) Sim.empty_disk).1
              ++ filesModified
                   (executeGenerationPlan Sim.root Sim.generator always_approve
                      (createGenerationPlan Sim.root Sim.generator
                         Sim.empty_disk "login" twice_text 0)
                      Sim.empty_disk).1)).
  vm_compute. exact I.
Defined.

End PlanProps.

(** * The diff shown for an operation ([generateDiff] and below) *)

Module Diff.
Import FileGenerator.

(** [s.padStart(3)] *)
Definition padStart3 (s : string) : string :=
  Js.str (replicate (3 - String.length s) " "%char) +:+ s.

(** [(index + 1).toString().padStart(3)] *)
Definition numbered (index : nat) : string := padStart3 (pretty (S index)).

Section Colours.
(** The colour functions of [chalk]. *)
Variables blue green red dim : string -> string.

Definition added (index : nat) (line : string) : string :=
  green ("+" +:+ numbered index +:+ " " +:+ line).
Definition removed (index : nat) (line : string) : string :=
  red ("-" +:+ numbered index +:+ " " +:+ line).
Definition kept (index : nat) (line : string) : string :=
  dim (" " +:+ numbered index +:+ " " +:+ line).

(** The body of the loop of [simpleDiff] from index [i] on, the two
    arrays being given from that index on: past the end of an array
    its entry is undefined. *)
Fixpoint only_new (i : nat) (newLines : list string) : list string :=
  match newLines with
  | [] => []
  | newLine :: later => added i newLine :: only_new (S i) later
  end.

Fixpoint only_old (i : nat) (oldLines : list string) : list string :=
  match oldLines with
  | [] => []
  | oldLine :: later => removed i oldLine :: only_old (S i) later
  end.

Fixpoint diff_lines (i : nat) (oldLines newLines : list string)
  : list string :=
  match oldLines, newLines with
  | [], _ => only_new i newLines
  | _, [] => only_old i oldLines
  | oldLine :: oldLater, newLine :: newLater =>
      (if bool_decide (oldLine <> newLine)
       then [removed i oldLine; added i newLine]
       else [kept i oldLine])
      ++ diff_lines (S i) oldLater newLater
  end.

(** The results are joined with what the source writes as ['\\n'],
    a backslash and the letter n, and the texts are split at it. *)
Definition simpleDiff (oldLines newLines : list string) : string :=
  Js.join GitCommands.backslash_n (diff_lines 0 oldLines newLines).

Definition lines_of (text : string) : list string :=
  GitCommands.split_str GitCommands.backslash_n text.

Definition generateCreateDiff (operation : FileOperation) : string :=
  let lines := lines_of (content operation) in
  let header := blue ("+++ " +:+ path operation +:+ " (new file)") in
  let content_ := Js.join GitCommands.backslash_n (imap added lines) in
  header +:+ GitCommands.backslash_n +:+ content_.

Definition generateModifyDiff (operation : FileOperation) : string :=
  match backup operation with
  | None => ""
  | Some old =>
      if negb (Js.truthy old) then ""
      else
        let oldLines := lines_of old in
        let newLines := lines_of (content operation) in
        let header :=
          blue ("--- " +:+ path operation +:+ " (original)"
                +:+ GitCommands.backslash_n
                +:+ "+++ " +:+ path operation +:+ " (modified)") in
        header +:+ GitCommands.backslash_n +:+ simpleDiff oldLines newLines
  end.

Definition generateDiff (operation : FileOperation) : string :=
  match type operation with
  | create => generateCreateDiff operation
  | modify =>
      if Js.truthy (default "" (backup operation))
      then generateModifyDiff operation
      else ""
  | delete => ""
  end.
End Colours.

End Diff.

Module DiffProps.
Import Regex FileGenerator ParserProps ParserMore Diff.

Section Colours.
Variables blue green red dim : string -> string.

Lemma only_new_length i l : length (only_new green i l) = length l.
Proof. revert i. induction l as [|x l IH]; intros i; simpl; [done|]. by rewrite IH. Qed.

Lemma only_old_length i l : length (only_old red i l) = length l.
Proof. revert i. induction l as [|x l IH]; intros i; simpl; [done|]. by rewrite IH. Qed.

Lemma diff_lines_length i oldLines newLines :
  (length oldLines `max` length newLines
   <= length (diff_lines green red dim i oldLines newLines)
   <= length oldLines + length newLines)%nat.
Proof.
  revert i newLines. induction oldLines as [|o oldLines IH]; intros i newLines.
  - simpl. rewrite only_new_length. lia.
  - destruct newLines as [|n newLines].
    + change (diff_lines green red dim i (o :: oldLines) [])
        with (only_old red i (o :: oldLines)).
      rewrite only_old_length. simpl. lia.
    + simpl. specialize (IH (S i) newLines).
      destruct (bool_decide (o <> n)); simpl; lia.
Qed.

Lemma diff_lines_same i l :
  diff_lines green red dim i l l = imap (fun k => kept dim (i + k)) l.
Proof.
  revert i. induction l as [|x l IH]; intros i; simpl; [done|].
  rewrite bool_decide_eq_false_2 by (by intros ?). simpl.
  rewrite Nat.add_0_r, IH. f_equal. apply imap_ext. intros k y _. simpl.
  by replace (i + S k)%nat with (S (i + k)) by lia.
Qed.

(** X26. [simpleDiff] compares the two texts line by line at equal
    line numbers: its result has at least as many entries as the
    longer text has lines and at most as many as both together, and a
    text compared with itself gives one unmarked entry for each line
    and no added or removed one. *)
Theorem simpleDiff_by_line_number (oldLines newLines : list string) :
  (length oldLines `max` length newLines
   <= length (diff_lines green red dim 0 oldLines newLines)
   <= length oldLines + length newLines)%nat
  /\ diff_lines green red dim 0 oldLines oldLines
     = imap (kept dim) oldLines
  /\ simpleDiff green red dim oldLines oldLines
     = Js.join GitCommands.backslash_n (imap (kept dim) oldLines).
Proof.
  split; [apply diff_lines_length|].
  assert (diff_lines green red dim 0 oldLines oldLines
          = imap (kept dim) oldLines) as Hsame
    by (rewrite diff_lines_same; by apply imap_ext).
  split; [done|]. unfold simpleDiff. by rewrite Hsame.
Qed.

(** X27. For an operation that came from a mention in the prose and
    modifies an existing file there is no diff to show: [generateDiff]
    gives the empty string, the operation carrying no backup of the
    file it will overwrite. *)
Theorem mentioned_modify_has_no_diff {W : Type} `{!Externals W}
    (cwd : string) (self : FileGenerator.t) (w : W) (text : string)
    (op : FileOperation) :
  let fenced := foldl (fenced_step cwd self w) [] (exec_all fileRegex text) in
  forall mentioned,
    parseGeneratedContent cwd self w text = fenced ++ mentioned ->
    op ∈ mentioned ->
    type op = modify ->
    generateDiff blue green red dim op = ""
    /\ content op = "// TODO: Implementation needed".
Proof.
  intros fenced mentioned Heq Hin Htype.
  destruct (parse_parts cwd self w text)
    as (fenced' & mentioned' & Heq' & Hfenced & _ & Hm).
  subst fenced'. fold fenced in Heq'.
  rewrite Heq in Heq'. apply app_inv_head in Heq'. subst mentioned'.
  rewrite Forall_forall in Hm. destruct (Hm op Hin) as [_ Hc _ _ _ _ Hb _].
  split; [|done]. unfold generateDiff. rewrite Htype, Hb.
  by rewrite andb_false_r.
Qed.

End Colours.

Definition update_text : string := "Update file `src/a.ts` to export b.".

Lemma mentioned_modify_has_no_diff_witness :
  let op := Build_FileOperation "src/a.ts" modify
              "// TODO: Implementation needed" None
              "Modify TypeScript file a.ts" 10 in
  generateDiff id id id id op = ""
  /\ content op = "// TODO: Implementation needed".
Proof.
  apply (mentioned_modify_has_no_diff id id id id Sim.root Sim.generator
           one_old_file update_text
           (Build_FileOperation "src/a.ts" modify
              "// TODO: Implementation needed" None
              "Modify TypeScript file a.ts" 10)
           [Build_FileOperation "src/a.ts" modify
              "// TODO: Implementation needed" None
              "Modify TypeScript file a.ts" 10]).
  - vm_compute. reflexivity.
  - apply list_elem_of_singleton. reflexivity.
  - reflexivity.
Defined.

End DiffProps.

(** * The path comment of a fenced region *)

Module PathCommentProps.
Import Regex FileGenerator.

(** ** Patterns that cannot match without a certain character *)

Definition every_char (f : ascii -> bool) : bool :=
  forallb (fun n => f (ascii_of_nat n)) (List.seq 0 256).

Lemma every_char_spec f c : every_char f = true -> f c = true.
Proof.
  unfold every_char. rewrite forallb_forall. intros Hall.
  rewrite <- (ascii_nat_embedding c). apply Hall, in_seq.
  pose proof (nat_ascii_bounded c). lia.
Qed.

(** [needs bad r]: whatever [r] matches holds a character of [bad]. *)
Fixpoint needs (bad : ascii -> bool) (r : re) : bool :=
  match r with
  | Chr p => every_char (fun c => implb (p c) (bad c))
  | Cat a b => needs bad a || needs bad b
  | Alt a b => needs bad a && needs bad b
  | Rep _ lo hi a =>
      (0 <? lo)%nat && negb (bool_decide (hi = Some 0%nat)) && needs bad a
  | Grp _ a => needs bad a
  | Eps | Bol | Eol => false
  end.

Section Without.
Variable bad : ascii -> bool.

Definition clean (l : list ascii) : Prop := Forall (fun c => bad c = false) l.

(** A continuation that fails wherever the rest of the input is
    clean. *)
Definition dead (k : cont) : Prop := forall st, clean (rest st) -> k st = None.

Lemma rep_dead body gs fuel greedy lo hi k :
  (forall k', dead k' -> dead (body k')) -> dead k ->
  dead (rep fuel body gs greedy lo hi k).
Proof.
  intros Hbody Hk. revert lo hi.
  induction fuel as [|fuel IH]; intros lo hi st Hst; [done|].
  simpl.
  assert (body (fun st' =>
                  if (lo =? 0)%nat && (pos st' =? pos st)%nat then None
                  else rep fuel body gs greedy (pred lo)
                         (option_map pred hi) k st')
               (clear gs st) = None) as Hagain.
  { apply Hbody; [|done]. intros st' Hst'.
    destruct ((lo =? 0)%nat && (pos st' =? pos st)%nat); [done|].
    by apply IH. }
  rewrite Hagain, (Hk st Hst).
  destruct hi as [[|h]|]; [done| |]; destruct (0 <? lo)%nat; try done;
    by destruct greedy.
Qed.

Lemma m_dead r k : dead k -> dead (m r k).
Proof.
  revert k.
  induction r as [ |p|a IHa b IHb|a IHa b IHb|g lo hi a IHa|i a IHa| | ];
    intros k Hk st Hst.
  - by apply Hk.
  - simpl. destruct (rest st) as [|c tl] eqn:Hrest; [done|].
    destruct (p c); [|done]. apply Hk. simpl.
    by apply Forall_cons in Hst as [_ ?].
  - simpl. by apply IHa; [apply IHb|].
  - simpl. unfold or_else. rewrite (IHa k Hk st Hst). by apply IHb.
  - change (m (Rep g lo hi a) k st)
      with (rep (S (lo + length (rest st))) (m a) (groups a) g lo hi k st).
    by apply rep_dead.
  - simpl. apply IHa; [|done]. intros st' Hst'. by apply Hk.
  - simpl. destruct (pos st =? 0)%nat; [by apply Hk|done].
  - simpl. destruct (rest st) eqn:Hrest; [|done]. apply Hk. by rewrite Hrest.
Qed.

Lemma m_needs r k st :
  needs bad r = true -> clean (rest st) -> m r k st = None.
Proof.
  revert k st.
  induction r as [ |p|a IHa b IHb|a IHa b IHb|g lo hi a IHa|i a IHa| | ];
    intros k st Hneeds Hst; try done.
  - simpl in *. destruct (rest st) as [|c tl]; [done|].
    apply Forall_cons in Hst as [Hc _].
    pose proof (every_char_spec _ c Hneeds) as Himp. simpl in Himp.
    rewrite Hc in Himp. by destruct (p c).
  - simpl in *. apply orb_true_iff in Hneeds as [Ha|Hb].
    + by apply IHa.
    + apply m_dead; [|done]. intros st' Hst'. by apply IHb.
  - simpl in *. apply andb_true_iff in Hneeds as [Ha Hb].
    unfold or_else. rewrite (IHa k st Ha Hst). by apply IHb.
  - simpl in Hneeds.
    apply andb_true_iff in Hneeds as [[Hlo Hhi]%andb_true_iff Ha].
    apply negb_true_iff, bool_decide_eq_false in Hhi.
    change (m (Rep g lo hi a) k st)
      with (rep (S (lo + length (rest st))) (m a) (groups a) g lo hi k st).
    simpl. rewrite Hlo.
    destruct hi as [[|h]|]; [done| |]; by apply IHa.
  - simpl in *. by apply IHa.
Qed.

Lemma search_needs r p l :
  needs bad r = true -> clean l -> search r p l = None.
Proof.
  intros Hneeds. revert p.
  assert (forall p l, clean l -> match_here r p l = None) as Hhere.
  { intros p l0 Hl. unfold match_here. by rewrite m_needs. }
  induction l as [|c l IH]; intros p Hl; simpl.
  - by rewrite Hhere.
  - rewrite Hhere by done. apply IH. by apply Forall_cons in Hl as [_ ?].
Qed.
End Without.

(** ** A greedy run over characters that all fit *)

Lemma chr_step (p : ascii -> bool) k n x l c :
  p x = true -> m (Chr p) k (MState n (x :: l) c) = k (MState (S n) l c).
Proof. intros Hx. simpl. by rewrite Hx. Qed.

Lemma rep_all (p : ascii -> bool) l :
  Forall (fun c => p c = true) l ->
  forall fuel lo n c k,
    (length l < fuel)%nat -> (lo <= length l)%nat ->
    is_Some (k (MState (n + length l) [] c)) ->
    rep fuel (m (Chr p)) [] true lo None k (MState n l c)
    = k (MState (n + length l) [] c).
Proof.
  induction l as [|x l IH]; intros Hl fuel lo n c k Hfuel Hlo Hk.
  - destruct fuel as [|fuel]; [simpl in Hfuel; lia|].
    simpl in *. replace lo with 0%nat by lia. simpl.
    by rewrite Nat.add_0_r in *.
  - destruct fuel as [|fuel]; [simpl in Hfuel; lia|].
    apply Forall_cons in Hl as [Hx Hl]. simpl in Hfuel, Hlo, Hk.
    cbn [rep]. rewrite GitProps.clear_nothing, !chr_step by done.
    cbn [pos option_map].
    replace (S n =? n)%nat with false by (symmetry; apply Nat.eqb_neq; lia).
    rewrite andb_false_r.
    rewrite (IH Hl fuel (pred lo) (S n) c k) by (try lia;
      by replace (S n + length l)%nat with (n + S (length l))%nat by lia).
    replace (S n + length l)%nat with (n + S (length l))%nat by lia.
    destruct Hk as [e He]. simpl. rewrite He.
    by destruct (0 <? lo)%nat.
Qed.

(** The characters that neither end a line nor are a backslash. *)
Definition plain (c : ascii) : bool :=
  negb (Js.is_line_terminator c) && negb (Js.eqc c Js.backslash).

Lemma whole_line_matches l :
  l <> [] -> Forall (fun c => plain c = true) l ->
  exists x, search (seq [Bol; Grp 1 (plus dot); Eol]) 0 l = Some (x, [])
            /\ group 1 (m_caps x) = Some l.
Proof.
  intros Hne Hl.
  assert (Forall (fun c => negb (Js.is_line_terminator c) = true) l) as Hdot.
  { eapply Forall_impl; [exact Hl|]. intros c Hc.
    by apply andb_true_iff in Hc as [? _]. }
  assert (match_here (seq [Bol; Grp 1 (plus dot); Eol]) 0 l
          = Some (RMatch 0 (length l) (take (length l - 0) l)
                    [(1%nat, take (length l - 0) l)])) as Hhere.
  { unfold match_here. cbn [seq m pos]. simpl (0 =? 0)%nat. cbv iota.
    unfold plus, dot.
    change (m (Rep true 1 None (Chr (fun c => negb (Js.is_line_terminator c))))
              ?k (MState 0 l []))
      with (rep (S (1 + length l))
              (m (Chr (fun c => negb (Js.is_line_terminator c)))) [] true 1
              None k (MState 0 l [])).
    rewrite (rep_all _ l Hdot); [done|simpl; lia| |by eexists].
    destruct l; [done|simpl; lia]. }
  exists (RMatch 0 (length l) (take (length l - 0) l)
            [(1%nat, take (length l - 0) l)]).
  split.
  - destruct l as [|c l]; [done|]. cbn [search]. rewrite Hhere.
    cbn [m_end]. by rewrite Nat.sub_0_r, drop_all.
  - simpl. by rewrite Nat.sub_0_r, firstn_all.
Qed.

(** X28. A path comment without a backslash is taken whole: when what
    is left of the comment after its leader and the surrounding white
    space is not empty and holds neither a backslash nor a line
    break, [extractFilePath] returns exactly that text.  The first
    three patterns, written with a doubled backslash, apply to no such
    text, so that a label such as [File:] stays in the path. *)
Theorem comment_is_taken_whole (comment : string) :
  let cleaned := Js.trim (replace_first commentLeader "" comment) in
  cleaned <> "" ->
  Forall (fun c => plain c = true) (Js.chars cleaned) ->
  extractFilePath comment = Some (Js.trim cleaned).
Proof.
  intros cleaned Hne Hplain. unfold extractFilePath. fold cleaned.
  assert (clean (Js.eqc Js.backslash) (Js.chars cleaned)) as Hclean.
  { eapply Forall_impl; [exact Hplain|]. intros c Hc.
    apply andb_true_iff in Hc as [_ Hc]. apply negb_true_iff in Hc.
    unfold Js.eqc in *. by rewrite Nat.eqb_sym. }
  assert (forall r, needs (Js.eqc Js.backslash) r = true ->
                    match_first r cleaned = None) as Hnone.
  { intros r Hr. unfold match_first. by rewrite (search_needs _ r 0 _ Hr Hclean). }
  unfold pathPatterns, first_match.
  rewrite !Hnone by (vm_compute; reflexivity).
  destruct (whole_line_matches (Js.chars cleaned)) as (x & Hx & Hgroup);
    [|done|].
  { intros Hnil. apply Hne. rewrite <- (SlugProps.str_chars cleaned).
    by rewrite Hnil. }
  unfold match_first. rewrite Hx. simpl. rewrite Hgroup.
  by rewrite SlugProps.str_chars.
Qed.

Lemma comment_is_taken_whole_witness :
  extractFilePath "// File: src/a.ts" = Some "File: src/a.ts".
Proof.
  apply (comment_is_taken_whole "// File: src/a.ts").
  - discriminate.
  - apply (bool_decide_unpack
             (Forall (fun c => plain c = true)
                (Js.chars (Js.trim (replace_first commentLeader ""
                                      "// File: src/a.ts"))))).
    vm_compute. exact I.
Defined.

End PathCommentProps.

(** * Adding work to an idle ledger *)

Module LedgerFlow.
Import TodoManager LedgerProps LedgerMore.

Lemma list_find_skip {A} (P : A -> Prop) `{!forall x, Decision (P x)}
    (pre post : list A) (y : A) :
  ~ P y ->
  snd <$> list_find P (pre ++ y :: post) = snd <$> list_find P (pre ++ post).
Proof.
  intros Hy. destruct (list_find P pre) as [[i x]|] eqn:Hpre.
  - by rewrite !(list_find_app_l _ _ _ _ _ Hpre).
  - rewrite !(list_find_app_r _ _ _ Hpre). simpl.
    rewrite decide_False by done.
    by destruct (list_find P post) as [[j z]|].
Qed.

(** What [findTodo] finds, leaving the places aside. *)
Lemma findTodo_flat self todoId :
  (fun r => r.2) <$> findTodo self todoId
  = snd <$> list_find (has_id todoId) (getAllTodos self).
Proof. apply find_from_flat. Qed.

(** X29. In a ledger that has nothing to do next, a todo added
    without dependencies under a fresh id is the next todo: once
    [addTodo] has returned, [getNextTodo] gives exactly the todo that
    was added, with the two readings of the clock taken for it. *)
Theorem added_todo_is_next save times newId groupId title options
    (self : TodoManager.t) (x : string) :
  current_is_listed self ->
  newId ∉ (Todo.id <$> getAllTodos self) ->
  getNextTodo self = None ->
  default [] (o_dependencies options) = [] ->
  let run := addTodo save times newId groupId title options self in
  run.1 = Ret x ->
  getNextTodo run.2
  = Some (made (todoCreated times) (todoUpdated times) newId title options).
Proof.
  intros Hwf0 Hfresh Hidle Hnodeps run Hret. subst run.
  pose proof (wanted_listed self options Hwf0) as Hwf.
  destruct (addTodo_todos _ _ _ _ _ _ _ _ Hwf Hret)
    as (pre & post & Hold & Hnew).
  set (self' := (addTodo save times newId groupId title options self).2) in *.
  set (todo := made (todoCreated times) (todoUpdated times) newId title
                 options) in *.
  assert (eligible self' todo) as Hthere.
  { split; [|split].
    - rewrite Hnew. apply elem_of_app. right. by left.
    - done.
    - intros depId Hdep. simpl in Hdep. rewrite Hnodeps in Hdep.
      by apply elem_of_nil in Hdep. }
  assert (forall u, eligible self' u -> u = todo) as Honly.
  { intros u (Hin & Hpending & Hdeps).
    rewrite Hnew in Hin.
    assert (u ∈ getAllTodos self -> False) as Hnot_old.
    2: { rewrite Hold in Hnot_old.
         apply elem_of_app in Hin as [Hin|[->|Hin]%elem_of_cons]; [|done|];
           destruct Hnot_old; apply elem_of_app; [by left|by right]. }
    intros Hold_u.
    destruct (getNextTodo_none self u Hidle). split; [done|split; [done|]].
    intros depId Hdep.
    {
      destruct (Hdeps depId Hdep) as (gi & ti & g & dep & Hfound & Hdone).
      pose proof (findTodo_flat self' depId) as Hflat.
      rewrite Hfound, Hnew in Hflat. simpl in Hflat.
      destruct (decide (has_id depId todo)) as [Hsame|Hdiff].
      + assert (list_find (has_id depId) pre = None) as Hpre.
        { apply list_find_None, Forall_forall. intros z Hz Hid.
          apply Hfresh. rewrite Hold, fmap_app. apply elem_of_app. left.
          unfold has_id in Hid, Hsame. simpl in Hsame.
          rewrite Hsame, <- Hid. by apply list_elem_of_fmap_2. }
        rewrite (list_find_app_r _ _ _ Hpre) in Hflat. simpl in Hflat.
        rewrite decide_True in Hflat by done. simpl in Hflat.
        injection Hflat as ->. done.
      + rewrite (list_find_skip _ _ _ _ Hdiff), <- Hold in Hflat.
        rewrite <- findTodo_flat in Hflat.
        destruct (findTodo self depId) as [[[[gi' ti'] g'] dep']|]; [|done].
        simpl in Hflat. injection Hflat as <-. by eexists _, _, _, _. } }
  destruct (getNextTodo self') as [u|] eqn:Hnext.
  - f_equal. by apply Honly, getNextTodo_eligible.
  - by destruct (getNextTodo_none self' todo Hnext).
Qed.

Definition all_done : TodoManager.t :=
  sample_ledger [sample_group "g" GroupStatus.completed [finished]].

Lemma added_todo_is_next_witness :
  getNextTodo (addTodo saved sample_times "t9" "g9" "write tests" no_options
                 all_done).2
  = Some (made 9 10 "t9" "write tests" no_options).
Proof.
  apply (added_todo_is_next saved sample_times "t9" "g9" "write tests"
           no_options all_done "t9").
  - intros i [= <-]. vm_compute. eauto.
  - apply (bool_decide_eq_false_1
             ("t9" ∈ (Todo.id <$> getAllTodos all_done))).
    vm_compute. reflexivity.
  - vm_compute. reflexivity.
  - reflexivity.
  - vm_compute. reflexivity.
Defined.

End LedgerFlow.
